(** * Block Blast: bitboard engine and placement solver

    A shallow embedding of [game.py] (class [BlockBlast]) and
    [bots/simple.py] (class [Solver]).

    - Python's unbounded [int] is [Z]; [&], [|], [~], [<<], [>>] are
      [Z.land], [Z.lor], [Z.lnot], [Z.shiftl], [Z.shiftr].
    - Python's [float] is IEEE 754 binary64, which is exactly Rocq's
      primitive [float].
    - Piece names, the keys of the two catalog dictionaries, are the
      constructors of an enumeration; [piece_str] gives their spelling.
    - The attributes filled in by [_precompute_masks] depend on the board
      size only and are functions of the geometry.
    - [random] is an explicit argument: a shuffle is any function that
      permutes its argument.
    - Operations that may raise or loop live in the [run] monad. *)

From Stdlib Require Import ZArith List Bool Lia Floats Permutation String Sorted.
Import ListNotations.
Local Open Scope Z_scope.

(** ** Python preliminaries *)

(** [range(n)]: empty when [n <= 0]. *)
Definition range (n : Z) : list Z := map Z.of_nat (seq 0 (Z.to_nat n)).

Fixpoint popcount_pos (p : positive) : Z :=
  match p with
  | xH => 1
  | xO q => popcount_pos q
  | xI q => 1 + popcount_pos q
  end.

(** [int.bit_count()]: number of ones in the binary form of the absolute
    value. *)
Definition bit_count (z : Z) : Z :=
  match z with
  | Z0 => 0
  | Zpos p => popcount_pos p
  | Zneg p => popcount_pos p
  end.

(** [enumerate(l)]: the entries paired with their indices, from [k] on. *)
Fixpoint enumerate_from {A : Type} (k : nat) (l : list A) : list (nat * A) :=
  match l with
  | [] => []
  | a :: t => (k, a) :: enumerate_from (S k) t
  end.

Definition enumerate {A : Type} (l : list A) : list (nat * A) :=
  enumerate_from 0 l.

(** [l.pop(i)] on a copy, for an index in range: the list without its
    [i]-th element. *)
Fixpoint pop {A : Type} (i : nat) (l : list A) : list A :=
  match l, i with
  | [], _ => []
  | _ :: t, O => t
  | a :: t, S j => a :: pop j t
  end.

(** Exceptions the modelled code can raise. *)
Inductive exn : Type := KeyError | ValueError | OverflowError.

(** The outcome of running a routine: a value, an exception, or no answer
    within the allotted number of loop iterations. *)
Inductive run (A : Type) : Type :=
| Ret (a : A)
| Raise (e : exn)
| Timeout.
Arguments Ret {A} a.
Arguments Raise {A} e.
Arguments Timeout {A}.

Definition bind {A B : Type} (m : run A) (k : A -> run B) : run B :=
  match m with
  | Ret a => k a
  | Raise e => Raise e
  | Timeout => Timeout
  end.

Notation "x <- m ;; k" := (bind m (fun x => k))
  (at level 61, m at next level, right associativity).
Notation "' pat <- m ;; k" := (bind m (fun x => match x with pat => k end))
  (at level 61, pat pattern, m at next level, right associativity).

(** [int(f)] for a float: truncation toward zero; [OverflowError] on an
    infinity and [ValueError] on a NaN. *)
Definition int_of_float (f : float) : run Z :=
  match Prim2SF f with
  | S754_zero _ => Ret 0
  | S754_finite s m e =>
      let mag := if 0 <=? e then Z.shiftl (Z.pos m) e
                 else Z.shiftr (Z.pos m) (- e) in
      Ret (if s then - mag else mag)
  | S754_infinity _ => Raise OverflowError
  | S754_nan => Raise ValueError
  end.

(** ** The piece catalog ([_initialize_piece_data]) *)

Module Pc.
Inductive name : Type :=
| sq1 | sq2 | sq3
| line2h | line3h | line4h | line5h
| line2v | line3v | line4v | line5v
| diag2 | diag3 | diag2f | diag3f
| l1 | l2 | l3 | l4 | l1f | l2f | l3f | l4f
| t1 | t2 | t3 | t4
| s1 | s2 | s1f | s2f
| L1 | L2 | L3 | L4
| sL1 | sL2 | sL3 | sL4.
End Pc.

Abbreviation Piece := Pc.name.

Definition piece_eqb (a b : Piece) : bool :=
  match a, b with
  | Pc.sq1, Pc.sq1 | Pc.sq2, Pc.sq2 | Pc.sq3, Pc.sq3
  | Pc.line2h, Pc.line2h | Pc.line3h, Pc.line3h | Pc.line4h, Pc.line4h
  | Pc.line5h, Pc.line5h
  | Pc.line2v, Pc.line2v | Pc.line3v, Pc.line3v | Pc.line4v, Pc.line4v
  | Pc.line5v, Pc.line5v
  | Pc.diag2, Pc.diag2 | Pc.diag3, Pc.diag3 | Pc.diag2f, Pc.diag2f
  | Pc.diag3f, Pc.diag3f
  | Pc.l1, Pc.l1 | Pc.l2, Pc.l2 | Pc.l3, Pc.l3 | Pc.l4, Pc.l4
  | Pc.l1f, Pc.l1f | Pc.l2f, Pc.l2f | Pc.l3f, Pc.l3f | Pc.l4f, Pc.l4f
  | Pc.t1, Pc.t1 | Pc.t2, Pc.t2 | Pc.t3, Pc.t3 | Pc.t4, Pc.t4
  | Pc.s1, Pc.s1 | Pc.s2, Pc.s2 | Pc.s1f, Pc.s1f | Pc.s2f, Pc.s2f
  | Pc.L1, Pc.L1 | Pc.L2, Pc.L2 | Pc.L3, Pc.L3 | Pc.L4, Pc.L4
  | Pc.sL1, Pc.sL1 | Pc.sL2, Pc.sL2 | Pc.sL3, Pc.sL3 | Pc.sL4, Pc.sL4 => true
  | _, _ => false
  end.

(** The spelling of each key. *)
Definition piece_str (p : Piece) : string :=
  match p with
  | Pc.sq1 => "sq1" | Pc.sq2 => "sq2" | Pc.sq3 => "sq3"
  | Pc.line2h => "line2h" | Pc.line3h => "line3h" | Pc.line4h => "line4h"
  | Pc.line5h => "line5h"
  | Pc.line2v => "line2v" | Pc.line3v => "line3v" | Pc.line4v => "line4v"
  | Pc.line5v => "line5v"
  | Pc.diag2 => "diag2" | Pc.diag3 => "diag3" | Pc.diag2f => "diag2f"
  | Pc.diag3f => "diag3f"
  | Pc.l1 => "l1" | Pc.l2 => "l2" | Pc.l3 => "l3" | Pc.l4 => "l4"
  | Pc.l1f => "l1f" | Pc.l2f => "l2f" | Pc.l3f => "l3f" | Pc.l4f => "l4f"
  | Pc.t1 => "t1" | Pc.t2 => "t2" | Pc.t3 => "t3" | Pc.t4 => "t4"
  | Pc.s1 => "s1" | Pc.s2 => "s2" | Pc.s1f => "s1f" | Pc.s2f => "s2f"
  | Pc.L1 => "L1" | Pc.L2 => "L2" | Pc.L3 => "L3" | Pc.L4 => "L4"
  | Pc.sL1 => "sL1" | Pc.sL2 => "sL2" | Pc.sL3 => "sL3" | Pc.sL4 => "sL4"
  end.

(** [name_to_pieces]: the compact shape, one bit per cell of the bounding
    box, rows packed from the least significant end. *)
Definition name_to_pieces (p : Piece) : Z :=
  match p with
  | Pc.sq1 => 1       (* 0b1 *)
  | Pc.sq2 => 15      (* 0b11_11 *)
  | Pc.sq3 => 511     (* 0b111_111_111 *)
  | Pc.line2h => 3    (* 0b11 *)
  | Pc.line3h => 7    (* 0b111 *)
  | Pc.line4h => 15   (* 0b1111 *)
  | Pc.line5h => 31   (* 0b11111 *)
  | Pc.line2v => 3    (* 0b1_1 *)
  | Pc.line3v => 7    (* 0b1_1_1 *)
  | Pc.line4v => 15   (* 0b1_1_1_1 *)
  | Pc.line5v => 31   (* 0b1_1_1_1_1 *)
  | Pc.diag2 => 6     (* 0b01_10 *)
  | Pc.diag3 => 84    (* 0b001_010_100 *)
  | Pc.diag2f => 9    (* 0b10_01 *)
  | Pc.diag3f => 273  (* 0b100_010_001 *)
  | Pc.l1 => 43       (* 0b10_10_11 *)
  | Pc.l2 => 60       (* 0b111_100 *)
  | Pc.l3 => 53       (* 0b11_01_01 *)
  | Pc.l4 => 15       (* 0b001_111 *)
  | Pc.l1f => 23      (* 0b01_01_11 *)
  | Pc.l2f => 39      (* 0b100_111 *)
  | Pc.l3f => 58      (* 0b11_10_10 *)
  | Pc.l4f => 57      (* 0b111_001 *)
  | Pc.t1 => 23       (* 0b010_111 *)
  | Pc.t2 => 29       (* 0b01_11_01 *)
  | Pc.t3 => 58       (* 0b111_010 *)
  | Pc.t4 => 46       (* 0b10_11_10 *)
  | Pc.s1 => 30       (* 0b011_110 *)
  | Pc.s2 => 45       (* 0b10_11_01 *)
  | Pc.s1f => 51      (* 0b110_011 *)
  | Pc.s2f => 30      (* 0b01_11_10 *)
  | Pc.L1 => 295      (* 0b100_100_111 *)
  | Pc.L2 => 484      (* 0b111_100_100 *)
  | Pc.L3 => 457      (* 0b111_001_001 *)
  | Pc.L4 => 79       (* 0b001_001_111 *)
  | Pc.sL1 => 11      (* 0b10_11 *)
  | Pc.sL2 => 14      (* 0b11_10 *)
  | Pc.sL3 => 13      (* 0b11_01 *)
  | Pc.sL4 => 7       (* 0b01_11 *)
  end.

(** [name_to_size]: bounding box as (width, height). *)
Definition name_to_size (p : Piece) : Z * Z :=
  match p with
  | Pc.sq1 => (1, 1)
  | Pc.sq2 => (2, 2)
  | Pc.sq3 => (3, 3)
  | Pc.line2h => (2, 1)
  | Pc.line3h => (3, 1)
  | Pc.line4h => (4, 1)
  | Pc.line5h => (5, 1)
  | Pc.line2v => (1, 2)
  | Pc.line3v => (1, 3)
  | Pc.line4v => (1, 4)
  | Pc.line5v => (1, 5)
  | Pc.diag2 => (2, 2)
  | Pc.diag3 => (3, 3)
  | Pc.diag2f => (2, 2)
  | Pc.diag3f => (3, 3)
  | Pc.l1 => (2, 3)
  | Pc.l2 => (3, 2)
  | Pc.l3 => (2, 3)
  | Pc.l4 => (3, 2)
  | Pc.l1f => (2, 3)
  | Pc.l2f => (3, 2)
  | Pc.l3f => (2, 3)
  | Pc.l4f => (3, 2)
  | Pc.t1 => (3, 2)
  | Pc.t2 => (2, 3)
  | Pc.t3 => (3, 2)
  | Pc.t4 => (2, 3)
  | Pc.s1 => (3, 2)
  | Pc.s2 => (2, 3)
  | Pc.s1f => (3, 2)
  | Pc.s2f => (2, 3)
  | Pc.L1 => (3, 3)
  | Pc.L2 => (3, 3)
  | Pc.L3 => (3, 3)
  | Pc.L4 => (3, 3)
  | Pc.sL1 => (2, 2)
  | Pc.sL2 => (2, 2)
  | Pc.sL3 => (2, 2)
  | Pc.sL4 => (2, 2)
  end.

(** [all_piece_names = list(self.name_to_pieces.keys())], in insertion
    order. *)
Definition all_piece_names : list Piece :=
  [Pc.sq1; Pc.sq2; Pc.sq3; Pc.line2h; Pc.line3h; Pc.line4h; Pc.line5h;
   Pc.line2v; Pc.line3v; Pc.line4v; Pc.line5v; Pc.diag2; Pc.diag3;
   Pc.diag2f; Pc.diag3f; Pc.l1; Pc.l2; Pc.l3; Pc.l4; Pc.l1f; Pc.l2f;
   Pc.l3f; Pc.l4f; Pc.t1; Pc.t2; Pc.t3; Pc.t4; Pc.s1; Pc.s2; Pc.s1f;
   Pc.s2f; Pc.L1; Pc.L2; Pc.L3; Pc.L4; Pc.sL1; Pc.sL2; Pc.sL3; Pc.sL4].

(** ** Board geometry ([_precompute_masks]) *)

(** The construction-time attributes of a game: the board size and the
    dealing mode. *)
Record Config : Type := mkConfig {
  width : Z;
  height : Z;
  is_guranteed_valid_moves : bool
}.

(** [name_to_piece_masks[name]]: the shape with each of its rows moved to a
    stride of [width] bits. *)
Definition name_to_piece_masks (g : Config) (p : Piece) : Z :=
  let compact_mask := name_to_pieces p in
  let '(piece_w, piece_h) := name_to_size p in
  fold_left
    (fun scaled_mask r =>
       let row_bits := Z.land (Z.shiftr compact_mask (r * piece_w))
                              (Z.shiftl 1 piece_w - 1) in
       Z.lor scaled_mask (Z.shiftl row_bits (r * width g)))
    (range piece_h) 0.

Definition row_mask (g : Config) (r : Z) : Z :=
  Z.shiftl (Z.shiftl 1 (width g) - 1) (r * width g).

Definition col_mask (g : Config) (c : Z) : Z :=
  fold_left (fun m r => Z.lor m (Z.shiftl 1 (r * width g + c)))
            (range (height g)) 0.

Definition row_masks (g : Config) : list Z :=
  map (row_mask g) (range (height g)).

Definition col_masks (g : Config) : list Z :=
  map (col_mask g) (range (width g)).

(** ** Placement *)

Abbreviation Position := (Z * Z)%type.

Definition get_piece_mask (g : Config) (piece_name : Piece)
  (position : Position) : Z :=
  let '(px, py) := position in
  Z.shiftl (name_to_piece_masks g piece_name) (py * width g + px).

Definition is_valid_move (g : Config) (board : Z) (piece_name : Piece)
  (position : Position) : bool :=
  let '(piece_w, piece_h) := name_to_size piece_name in
  let '(px, py) := position in
  if (px <? 0) || (py <? 0) || (px + piece_w >? width g)
     || (py + piece_h >? height g)
  then false
  else if negb (Z.land board (get_piece_mask g piece_name position) =? 0)
  then false
  else true.

(** Board positions in the order of the nested loops
    [for y in range(height): for x in range(width)]. *)
Definition positions (g : Config) : list Position :=
  flat_map (fun y => map (fun x => (x, y)) (range (width g)))
           (range (height g)).

(** [_can_place_piece]: the first valid position in row-major order, or
    [None] for the [False] the code returns. *)
Definition _can_place_piece (g : Config) (board : Z) (piece_name : Piece)
  : option Position :=
  find (fun pos => is_valid_move g board piece_name pos) (positions g).

(** ** Line detection

    The two loops over [row_masks] and [col_masks], shared verbatim by
    [make_move] and [try_move]: every mask is tested against the same
    board; the result is [(lines_cleared, cleared_mask)]. *)
Definition detect_step (board : Z) (acc : Z * Z) (mask : Z) : Z * Z :=
  let '(lines_cleared, cleared_mask) := acc in
  if Z.land board mask =? mask
  then (lines_cleared + 1, Z.lor cleared_mask mask)
  else (lines_cleared, cleared_mask).

Definition detect_lines (g : Config) (board : Z) : Z * Z :=
  fold_left (detect_step board) (col_masks g)
    (fold_left (detect_step board) (row_masks g) (0, 0)).

(** Detection followed by [if lines_cleared > 0: board &= ~cleared_mask]:
    the new board and the number of lines. *)
Definition detect_and_clear_lines (g : Config) (board : Z) : Z * Z :=
  let '(lines_cleared, cleared_mask) := detect_lines g board in
  (if lines_cleared >? 0 then Z.land board (Z.lnot cleared_mask) else board,
   lines_cleared).

(** ** Session state *)

Record State : Type := mkState {
  board : Z;
  score : Z;
  combo : Z;
  not_combo_counter : Z;
  score_increment : float;
  score_incremental_acceleration : float;
  game_over : bool;
  current_pieces : list Piece
}.

Definition set_board (s : State) (v : Z) : State :=
  mkState v (score s) (combo s) (not_combo_counter s) (score_increment s)
    (score_incremental_acceleration s) (game_over s) (current_pieces s).
Definition set_score (s : State) (v : Z) : State :=
  mkState (board s) v (combo s) (not_combo_counter s) (score_increment s)
    (score_incremental_acceleration s) (game_over s) (current_pieces s).
Definition set_combo (s : State) (v : Z) : State :=
  mkState (board s) (score s) v (not_combo_counter s) (score_increment s)
    (score_incremental_acceleration s) (game_over s) (current_pieces s).
Definition set_not_combo_counter (s : State) (v : Z) : State :=
  mkState (board s) (score s) (combo s) v (score_increment s)
    (score_incremental_acceleration s) (game_over s) (current_pieces s).
Definition set_score_increment (s : State) (v : float) : State :=
  mkState (board s) (score s) (combo s) (not_combo_counter s) v
    (score_incremental_acceleration s) (game_over s) (current_pieces s).
Definition set_score_incremental_acceleration (s : State) (v : float)
  : State :=
  mkState (board s) (score s) (combo s) (not_combo_counter s)
    (score_increment s) v (game_over s) (current_pieces s).
Definition set_game_over (s : State) (v : bool) : State :=
  mkState (board s) (score s) (combo s) (not_combo_counter s)
    (score_increment s) (score_incremental_acceleration s) v
    (current_pieces s).
Definition set_current_pieces (s : State) (v : list Piece) : State :=
  mkState (board s) (score s) (combo s) (not_combo_counter s)
    (score_increment s) (score_incremental_acceleration s) (game_over s) v.

(** The dictionaries returned by [make_move] and [try_move]: an error with
    its message, or a success; [try_move]'s success has no score key. *)
Inductive Outcome : Type :=
| Error (message : string)
| Success (new_board : Z) (new_score : option Z) (lines_cleared : Z)
    (is_over : bool).

(** [result['board']]: [KeyError] on an error dictionary. *)
Definition outcome_board (o : Outcome) : run Z :=
  match o with
  | Success b _ _ _ => Ret b
  | Error _ => Raise KeyError
  end.

(** ** Queries *)

(** [d[k] = v] on a dictionary kept as an association list in insertion
    order. *)
Fixpoint dict_set (d : list (Piece * list Position)) (k : Piece)
  (v : list Position) : list (Piece * list Position) :=
  match d with
  | [] => [(k, v)]
  | (k', v') :: rest =>
      if piece_eqb k k' then (k, v) :: rest else (k', v') :: dict_set rest k v
  end.

Definition get_possible_moves (g : Config) (s : State)
  : list (Piece * list Position) :=
  fold_left
    (fun possible_moves name =>
       let moves :=
         filter (fun pos => is_valid_move g (board s) name pos)
                (positions g) in
       match moves with
       | [] => possible_moves
       | _ :: _ => dict_set possible_moves name moves
       end)
    (current_pieces s) [].

(** [not d] for a dictionary. *)
Definition dict_is_empty {A : Type} (d : list A) : bool :=
  match d with [] => true | _ :: _ => false end.

(** ** [try_move] *)

Definition try_move (g : Config) (s : State) (board0 : Z)
  (piece_name : Piece) (position : Position) : Outcome * State :=
  if negb (is_valid_move g board0 piece_name position)
  then (Error "Invalid move.", s)
  else
    let board1 := Z.lor board0 (get_piece_mask g piece_name position) in
    let '(lines_cleared, cleared_mask) := detect_lines g board1 in
    let board2 :=
      if lines_cleared >? 0 then Z.land board1 (Z.lnot cleared_mask)
      else board1 in
    let over := if dict_is_empty (get_possible_moves g s) then true
                else false in
    (Success board2 None lines_cleared over, s).

(** ** Randomness

    [random.shuffle] may produce any rearrangement of its argument.
    [random.sample(population, 3)] may produce the first three entries of
    any rearrangement of the population. *)
Record Shuffle : Type := mkShuffle {
  shuffled : list Piece -> list Piece;
  shuffled_perm : forall l, Permutation l (shuffled l)
}.

(** The random choices one call may consume. *)
Record Random : Type := mkRandom {
  sample_order : Shuffle;    (* behind [random.sample] in [_deal_new_pieces] *)
  catalog_order : Shuffle;   (* [random.shuffle(all_pieces_choices)] *)
  held_order : Shuffle       (* [random.shuffle(self.current_pieces)] *)
}.

(** ** Dealing *)

Definition _deal_new_pieces (rnd : Random) (s : State) : State :=
  set_current_pieces s
    (firstn 3 (shuffled (sample_order rnd) all_piece_names)).

(** One run of [for name in all_pieces_choices] over the names still to
    visit; stops early at the [break]. The scratch board is the local
    variable [board]; the draft grows in [self.current_pieces]. *)
Fixpoint deal_scan (g : Config) (names : list Piece) (scratch : Z)
  (s : State) : run (Z * State) :=
  match names with
  | [] => Ret (scratch, s)
  | name :: rest =>
      match _can_place_piece g scratch name with
      | Some placable_position =>
          scratch' <- outcome_board
                        (fst (try_move g s scratch name placable_position)) ;;
          let s' := set_current_pieces s (current_pieces s ++ [name]) in
          if Nat.eqb (List.length (current_pieces s')) 3
          then Ret (scratch', s')
          else deal_scan g rest scratch' s'
      | None => deal_scan g rest scratch s
      end
  end.

(** [while True]: each unit of fuel pays for one full scan. *)
Fixpoint deal_loop (fuel : nat) (g : Config) (all_pieces_choices : list Piece)
  (scratch : Z) (s : State) : run State :=
  match fuel with
  | O => Timeout
  | S fuel' =>
      '(scratch', s') <- deal_scan g all_pieces_choices scratch s ;;
      if Nat.eqb (List.length (current_pieces s')) 3
      then Ret s'
      else deal_loop fuel' g all_pieces_choices scratch' s'
  end.

Definition _guaranteed_deal_new_pieces (fuel : nat) (rnd : Random)
  (g : Config) (s : State) : run State :=
  let s0 := set_current_pieces s [] in
  let all_pieces_choices := shuffled (catalog_order rnd) all_piece_names in
  s1 <- deal_loop fuel g all_pieces_choices (board s0) s0 ;;
  Ret (set_current_pieces s1 (shuffled (held_order rnd) (current_pieces s1))).

(** ** Scoring constants *)

Set Warnings "-inexact-float".

Definition BASE_SCORE_ACCELERATION : float := 34.2%float.

(** [SCORE_MULTIPLIERS.get(lines_cleared, 30.0)]. *)
Definition SCORE_MULTIPLIERS_get (lines_cleared : Z) : float :=
  match lines_cleared with
  | 1 => 1.0
  | 2 => 2.0
  | 3 => 6.0
  | 4 => 12.0
  | 5 => 20.0
  | 6 => 30.0
  | _ => 30.0
  end%float.

(** The [match self.combo] statement. *)
Definition accelerate (s : State) : State :=
  match combo s with
  | 0 => set_score_incremental_acceleration s BASE_SCORE_ACCELERATION
  | 5 => set_score_incremental_acceleration s
           (score_incremental_acceleration s * 4)%float
  | 6 => set_score_incremental_acceleration s
           (score_incremental_acceleration s * 0.375)%float
  | 10 => set_score_incremental_acceleration s
            (score_incremental_acceleration s * 4.6666)%float
  | 11 => set_score_incremental_acceleration s
            (score_incremental_acceleration s * 0.2857)%float
  | _ => s
  end.

(** The [if lines_cleared > 0: ... else: ...] statement of [make_move],
    one assignment after the other. The integer [0] that
    [score_increment] and the acceleration start from is the float [0.0]:
    the two agree under [+], [*] and [int]. *)
Definition score_transition (s : State) (lines_cleared cleared_mask : Z)
  : run State :=
  if lines_cleared >? 0 then
    let s := set_board s (Z.land (board s) (Z.lnot cleared_mask)) in
    let s := set_not_combo_counter s 3 in
    let s := if not_combo_counter s + lines_cleared <=? 1
             then set_score_increment (set_combo s (-1)) 0%float
             else s in
    let s := set_combo s (combo s + 1) in
    let s := accelerate s in
    let s := set_score_increment s
               (score_increment s + score_incremental_acceleration s)%float in
    bonus <- int_of_float
               (score_increment s * SCORE_MULTIPLIERS_get lines_cleared)%float ;;
    Ret (set_score s (score s + bonus))
  else
    Ret (set_not_combo_counter s (not_combo_counter s - 1)).

(** [l.remove(x)]: drops the first occurrence. *)
Fixpoint remove_first (x : Piece) (l : list Piece) : list Piece :=
  match l with
  | [] => []
  | y :: t => if piece_eqb x y then t else y :: remove_first x t
  end.

(** ** [make_move] *)

Definition make_move (fuel : nat) (rnd : Random) (g : Config) (s : State)
  (piece_name : Piece) (position : Position) : run (Outcome * State) :=
  if game_over s then Ret (Error "Game is over.", s)
  else if negb (existsb (piece_eqb piece_name) (current_pieces s))
  then Ret (Error ("Piece '" ++ piece_str piece_name ++ "' unavailable."), s)
  else if negb (is_valid_move g (board s) piece_name position)
  then Ret (Error "Invalid move.", s)
  else
    let s := set_board s
               (Z.lor (board s) (get_piece_mask g piece_name position)) in
    let s := set_score s (score s + bit_count (name_to_pieces piece_name)) in
    let '(lines_cleared, cleared_mask) := detect_lines g (board s) in
    s <- score_transition s lines_cleared cleared_mask ;;
    let s := set_current_pieces s
               (remove_first piece_name (current_pieces s)) in
    s <- (match current_pieces s with
          | [] => if is_guranteed_valid_moves g
                  then _guaranteed_deal_new_pieces fuel rnd g s
                  else Ret (_deal_new_pieces rnd s)
          | _ :: _ => Ret s
          end) ;;
    let s := if dict_is_empty (get_possible_moves g s)
             then set_game_over s true else s in
    Ret (Success (board s) (Some (score s)) lines_cleared (game_over s), s).

(** ** Construction ([__init__])

    A dimension above 64 raises [ValueError]; so does a negative width,
    through the negative shift count it produces in [_precompute_masks]. *)
Definition init_state : State :=
  mkState 0 0 (-1) 3 0%float 0%float false [].

Definition BlockBlast (board_size : Z * Z) (is_guranteed : bool)
  (rnd : Random) : run (Config * State) :=
  if (fst board_size >? 64) || (snd board_size >? 64) then Raise ValueError
  else if fst board_size <? 0 then Raise ValueError
  else
    Ret (mkConfig (fst board_size) (snd board_size) is_guranteed,
         _deal_new_pieces rnd init_state).

(** ** The solver ([Solver.get_solution]) *)

Abbreviation Move := (Piece * Position)%type.

(** The generator [recurse]: all the sequences it yields, in the order it
    yields them. Each level removes one piece, so [depth] units, one per
    piece, are enough (see [get_solution]). *)
Fixpoint recurse (g : Config) (s : State) (depth : nat) (board0 : Z)
  (pieces : list Piece) : list (list Move) :=
  match pieces with
  | [] => [[]]
  | _ :: _ =>
      match depth with
      | O => []
      | S depth' =>
          flat_map
            (fun ip : nat * Piece =>
               let '(i, p) := ip in
               flat_map
                 (fun pos : Position =>
                    if is_valid_move g board0 p pos then
                      match fst (try_move g s board0 p pos) with
                      | Success next_board _ _ _ =>
                          let next_pieces := pop i pieces in
                          map (fun placable_move => (p, pos) :: placable_move)
                              (recurse g s depth' next_board next_pieces)
                      | Error _ => []
                      end
                    else [])
                 (positions g))
            (enumerate pieces)
      end
  end.

(** [next(recurse(...))], with [None] for the [StopIteration] branch. *)
Definition get_solution (g : Config) (s : State) : option (list Move) :=
  match recurse g s (List.length (current_pieces s)) (board s)
          (current_pieces s) with
  | [] => None
  | solution_sequence :: _ => Some solution_sequence
  end.

(** ** [Solver.solve]

    The solver keeps the moves it has still to hand out in
    [self.solution]: a list, or [None] once a search has failed. *)
Record Solver : Type := mkSolver {
  solution : option (list Move)
}.

(** [Solver.__init__]: [self.solution = []]. *)
Definition Solver_init : Solver := mkSolver (Some []).

(** Exceptions of attribute and index access: [None.pop(0)] is an
    [AttributeError], [[].pop(0)] and [[][0]] an [IndexError]. *)
Inductive access_exn : Type := AttributeError | IndexError.

(** [solve], on the game in state [s]: the answer and the solver
    afterwards. A non-empty [self.solution] is used without looking at the
    game. *)
Definition solve (g : Config) (s : State) (sv : Solver)
  : (access_exn + Move) * Solver :=
  match solution sv with
  | Some (next_move :: rest) => (inr next_move, mkSolver (Some rest))
  | _ =>
      match get_solution g s with
      | None => (inl AttributeError, mkSolver None)
      | Some [] => (inl IndexError, mkSolver (Some []))
      | Some (next_move :: rest) => (inr next_move, mkSolver (Some rest))
      end
  end.

(** ** Reading a dictionary *)

(** [d.get(k)] on a dictionary kept as an association list. *)
Fixpoint dict_get (d : list (Piece * list Position)) (k : Piece)
  : option (list Position) :=
  match d with
  | [] => None
  | (k', v) :: rest => if piece_eqb k k' then Some v else dict_get rest k
  end.

(** ** The demonstration loop

    The loop at the end of [game.py] asks for the possible moves and plays
    the first: [piece = list(moves.keys())[0]], [pos = moves[piece][0]].
    No moves at all ends the loop; an empty list under the first key
    would be an [IndexError]. *)
Definition first_possible_move (g : Config) (s : State)
  : access_exn + option Move :=
  match get_possible_moves g s with
  | [] => inr None
  | (piece, []) :: _ => inl IndexError
  | (piece, pos :: _) :: _ => inr (Some (piece, pos))
  end.

(** * Basic facts *)

Lemma In_range (n x : Z) : In x (range n) <-> 0 <= x < n.
Proof.
  unfold range. rewrite in_map_iff. split.
  - intros [k [<- Hk]]. apply in_seq in Hk. lia.
  - intros H. exists (Z.to_nat x). split; [lia|]. apply in_seq. lia.
Qed.

Lemma In_positions (g : Config) (x y : Z) :
  In (x, y) (positions g) <-> 0 <= x < width g /\ 0 <= y < height g.
Proof.
  unfold positions. rewrite in_flat_map. split.
  - intros [y' [Hy Hin]]. apply in_map_iff in Hin.
    destruct Hin as [x' [Heq Hx]]. inversion Heq; subst.
    apply In_range in Hy. apply In_range in Hx. lia.
  - intros [Hx Hy]. exists y. split; [now apply In_range|].
    apply in_map_iff. exists x. split; [reflexivity|now apply In_range].
Qed.

Lemma piece_size_pos (p : Piece) :
  1 <= fst (name_to_size p) /\ 1 <= snd (name_to_size p).
Proof. destruct p; cbn; lia. Qed.

Lemma piece_eqb_eq (a b : Piece) : piece_eqb a b = true <-> a = b.
Proof. split; [destruct a, b; cbn; congruence | intros <-; destruct a; reflexivity]. Qed.

Lemma is_valid_move_spec (g : Config) (b : Z) (p : Piece) (x y : Z) :
  is_valid_move g b p (x, y) = true <->
  0 <= x /\ 0 <= y /\ x + fst (name_to_size p) <= width g /\
  y + snd (name_to_size p) <= height g /\
  Z.land b (get_piece_mask g p (x, y)) = 0.
Proof.
  unfold is_valid_move. destruct (name_to_size p) as [pw ph]. cbn [fst snd].
  destruct (x <? 0) eqn:E1; cbn [orb].
  { split; [discriminate | lia]. }
  destruct (y <? 0) eqn:E2; cbn [orb].
  { split; [discriminate | lia]. }
  destruct (x + pw >? width g) eqn:E3; cbn [orb].
  { split; [discriminate | lia]. }
  destruct (y + ph >? height g) eqn:E4; cbn [orb].
  { split; [discriminate | lia]. }
  destruct (Z.land b (get_piece_mask g p (x, y)) =? 0) eqn:E5; cbn [negb].
  - apply Z.eqb_eq in E5. split; [intros _; lia | reflexivity].
  - apply Z.eqb_neq in E5. split; [discriminate | intros H; tauto].
Qed.

Lemma valid_in_positions (g : Config) (b : Z) (p : Piece) (pos : Position) :
  is_valid_move g b p pos = true -> In pos (positions g).
Proof.
  destruct pos as [x y]. intros H. apply is_valid_move_spec in H.
  pose proof (piece_size_pos p). apply In_positions. lia.
Qed.

(** * Bits of the masks *)

Lemma ones_shiftl (n : Z) : Z.shiftl 1 n - 1 = Z.ones n.
Proof. rewrite Z.ones_equiv, Z.shiftl_1_l. lia. Qed.

Lemma testbit_row_mask (g : Config) (r i : Z) :
  0 <= width g -> 0 <= r ->
  Z.testbit (row_mask g r) i
  = (r * width g <=? i) && (i <? r * width g + width g).
Proof.
  intros Hw Hr. unfold row_mask. rewrite ones_shiftl.
  destruct (Z.ltb_spec i 0) as [Hi|Hi].
  - rewrite Z.testbit_neg_r by assumption.
    symmetry. apply andb_false_iff. left. apply Z.leb_gt. nia.
  - rewrite Z.shiftl_spec by assumption.
    rewrite Z.testbit_ones by assumption.
    apply Bool.eq_iff_eq_true.
    rewrite !andb_true_iff, !Z.leb_le, !Z.ltb_lt. lia.
Qed.

Lemma testbit_fold_lor {A : Type} (f : A -> Z) (l : list A) (init i : Z) :
  Z.testbit (fold_left (fun m r => Z.lor m (f r)) l init) i
  = Z.testbit init i || existsb (fun r => Z.testbit (f r) i) l.
Proof.
  revert init. induction l as [|a l IH]; intros init; cbn [fold_left existsb].
  - now rewrite orb_false_r.
  - rewrite IH, Z.lor_spec. now rewrite orb_assoc.
Qed.

Lemma testbit_bit (k i : Z) :
  0 <= k -> Z.testbit (Z.shiftl 1 k) i = (i =? k).
Proof.
  intros Hk. rewrite Z.shiftl_1_l, Z.pow2_bits_eqb by assumption.
  apply Z.eqb_sym.
Qed.

Lemma testbit_col_mask (g : Config) (c i : Z) :
  0 <= width g -> 0 <= c ->
  Z.testbit (col_mask g c) i = true <->
  exists r, 0 <= r < height g /\ i = r * width g + c.
Proof.
  intros Hw Hc. unfold col_mask. rewrite testbit_fold_lor, Z.bits_0.
  cbn [orb]. rewrite existsb_exists. split.
  - intros [r [Hr Hb]]. apply In_range in Hr.
    rewrite testbit_bit in Hb by nia. apply Z.eqb_eq in Hb. eauto.
  - intros [r [Hr ->]]. exists r. split; [now apply In_range|].
    rewrite testbit_bit by nia. apply Z.eqb_refl.
Qed.

(** [board & mask == mask] says that every cell of the mask is occupied. *)
Definition covers (b m : Z) : Prop :=
  forall i, Z.testbit m i = true -> Z.testbit b i = true.

Lemma full_covers (b m : Z) : (Z.land b m =? m) = true <-> covers b m.
Proof.
  rewrite Z.eqb_eq. unfold covers. split.
  - intros H i Hm. rewrite <- H in Hm. rewrite Z.land_spec in Hm.
    now apply andb_true_iff in Hm.
  - intros H. apply Z.bits_inj'. intros i _. rewrite Z.land_spec.
    destruct (Z.testbit m i) eqn:Hm.
    + now rewrite (H i Hm).
    + apply andb_false_r.
Qed.

Lemma testbit_piece_mask (g : Config) (p : Piece) (i : Z) :
  0 <= width g ->
  Z.testbit (name_to_piece_masks g p) i = true ->
  exists r c, 0 <= r < snd (name_to_size p) /\ 0 <= c < fst (name_to_size p)
              /\ i = r * width g + c.
Proof.
  intros Hw. unfold name_to_piece_masks.
  pose proof (piece_size_pos p) as Hsz.
  destruct (name_to_size p) as [pw ph]. cbn [fst snd] in *. cbv zeta.
  rewrite (testbit_fold_lor
             (fun r => Z.shiftl (Z.land (Z.shiftr (name_to_pieces p) (r * pw))
                                        (Z.shiftl 1 pw - 1)) (r * width g))).
  rewrite Z.bits_0. cbn [orb]. rewrite existsb_exists.
  intros [r [Hr Hb]]. apply In_range in Hr.
  destruct (Z.ltb_spec i 0) as [Hi|Hi].
  { rewrite Z.testbit_neg_r in Hb by assumption. discriminate. }
  rewrite Z.shiftl_spec, Z.land_spec, ones_shiftl in Hb by assumption.
  apply andb_true_iff in Hb. destruct Hb as [_ Hb].
  rewrite Z.testbit_ones in Hb by lia.
  apply andb_true_iff in Hb. rewrite Z.leb_le, Z.ltb_lt in Hb.
  exists r, (i - r * width g). lia.
Qed.

Lemma piece_mask_first_row (g : Config) (p : Piece) (c : Z) :
  0 <= c < fst (name_to_size p) ->
  Z.testbit (name_to_pieces p) c = true ->
  Z.testbit (name_to_piece_masks g p) c = true.
Proof.
  intros Hc Hb. unfold name_to_piece_masks.
  pose proof (piece_size_pos p) as Hsz.
  destruct (name_to_size p) as [pw ph]. cbn [fst snd] in *. cbv zeta.
  rewrite (testbit_fold_lor
             (fun r => Z.shiftl (Z.land (Z.shiftr (name_to_pieces p) (r * pw))
                                        (Z.shiftl 1 pw - 1)) (r * width g))).
  rewrite Z.bits_0. cbn [orb]. rewrite existsb_exists.
  exists 0. split; [apply In_range; lia|].
  rewrite !Z.mul_0_l, Z.shiftl_0_r, Z.shiftr_0_r, Z.land_spec, ones_shiftl.
  rewrite Hb, Z.testbit_ones by lia. cbn [andb].
  apply andb_true_iff. rewrite Z.leb_le, Z.ltb_lt. lia.
Qed.

Lemma piece_has_cell (p : Piece) :
  exists c, 0 <= c < fst (name_to_size p)
            /\ Z.testbit (name_to_pieces p) c = true.
Proof.
  destruct p;
    first [ exists 0; cbn; split; [lia|reflexivity]
          | exists 1; cbn; split; [lia|reflexivity]
          | exists 2; cbn; split; [lia|reflexivity] ].
Qed.

Lemma testbit_placement (g : Config) (p : Piece) (x y i : Z) :
  0 <= width g -> 0 <= x -> 0 <= y ->
  Z.testbit (get_piece_mask g p (x, y)) i = true ->
  exists r c, 0 <= r < snd (name_to_size p) /\ 0 <= c < fst (name_to_size p)
              /\ i = (y + r) * width g + (x + c).
Proof.
  intros Hw Hx Hy. unfold get_piece_mask. intros Hb.
  destruct (Z.ltb_spec i 0) as [Hi|Hi].
  { rewrite Z.testbit_neg_r in Hb by assumption. discriminate. }
  rewrite Z.shiftl_spec in Hb by assumption.
  apply testbit_piece_mask in Hb; [|assumption].
  destruct Hb as [r [c [Hr [Hc Heq]]]]. exists r, c. lia.
Qed.

(** A board all of whose occupied cells lie on the grid. *)
Definition in_extent (g : Config) (b : Z) : Prop :=
  forall i, Z.testbit b i = true -> 0 <= i < width g * height g.

Lemma placement_in_extent (g : Config) (b : Z) (p : Piece) (pos : Position) :
  is_valid_move g b p pos = true -> in_extent g (get_piece_mask g p pos).
Proof.
  destruct pos as [x y]. intros Hv i Hb. apply is_valid_move_spec in Hv.
  pose proof (piece_size_pos p) as Hsz.
  apply testbit_placement in Hb; [|lia..].
  destruct Hb as [r [c [Hr [Hc ->]]]]. nia.
Qed.

(** A cell of the grid that is free. *)
Definition has_empty (g : Config) (b : Z) : Prop :=
  exists x y, 0 <= x < width g /\ 0 <= y < height g
              /\ Z.testbit b (y * width g + x) = false.

Lemma valid_has_empty (g : Config) (b : Z) (p : Piece) (pos : Position) :
  is_valid_move g b p pos = true -> has_empty g b.
Proof.
  destruct pos as [x y]. intros Hv. apply is_valid_move_spec in Hv.
  destruct Hv as (Hx & Hy & Hxw & Hyh & Hland).
  pose proof (piece_size_pos p) as Hsz.
  destruct (piece_has_cell p) as [c [Hc Hb]].
  exists (x + c), y. repeat split; try lia.
  assert (Hm : Z.testbit (get_piece_mask g p (x, y)) (y * width g + (x + c)) = true).
  { unfold get_piece_mask. rewrite Z.shiftl_spec by nia.
    replace (y * width g + (x + c) - (y * width g + x)) with c by lia.
    now apply piece_mask_first_row. }
  assert (Hz : Z.testbit (Z.land b (get_piece_mask g p (x, y)))
                 (y * width g + (x + c)) = false).
  { rewrite Hland. apply Z.bits_0. }
  rewrite Z.land_spec, Hm, andb_true_r in Hz. exact Hz.
Qed.

Lemma sq1_mask (g : Config) : name_to_piece_masks g Pc.sq1 = 1.
Proof.
  reflexivity.
Qed.

Lemma sq1_valid (g : Config) (b x y : Z) :
  0 <= x < width g -> 0 <= y < height g ->
  Z.testbit b (y * width g + x) = false ->
  is_valid_move g b Pc.sq1 (x, y) = true.
Proof.
  intros Hx Hy Hb. apply is_valid_move_spec. cbn [name_to_size fst snd].
  repeat split; try lia.
  unfold get_piece_mask. rewrite sq1_mask.
  apply Z.bits_inj'. intros i Hi. rewrite Z.land_spec, Z.bits_0.
  rewrite testbit_bit by nia.
  destruct (Z.eqb_spec i (y * width g + x)) as [->|]; [|apply andb_false_r].
  now rewrite Hb.
Qed.

Lemma has_empty_can_place (g : Config) (b : Z) :
  has_empty g b -> _can_place_piece g b Pc.sq1 <> None.
Proof.
  intros (x & y & Hx & Hy & Hb) Hnone. unfold _can_place_piece in Hnone.
  eapply find_none in Hnone; [|apply In_positions; split; eassumption].
  cbn beta in Hnone. rewrite sq1_valid in Hnone by assumption. discriminate.
Qed.

Lemma can_place_valid (g : Config) (b : Z) (p : Piece) (pos : Position) :
  _can_place_piece g b p = Some pos -> is_valid_move g b p pos = true.
Proof. intros H. now apply find_some in H. Qed.

(** * Line detection *)

(** The test [board & mask == mask]. *)
Definition is_full (b m : Z) : bool := Z.land b m =? m.

(** All masks, rows first. *)
Definition line_masks (g : Config) : list Z := row_masks g ++ col_masks g.

Lemma fold_detect_step (b : Z) (l : list Z) (n c : Z) :
  fold_left (detect_step b) l (n, c)
  = (n + Z.of_nat (List.length (filter (is_full b) l)),
     fold_left Z.lor (filter (is_full b) l) c).
Proof.
  revert n c. induction l as [|m l IH]; intros n c; cbn [fold_left filter].
  - cbn. f_equal. lia.
  - unfold detect_step at 2. fold (is_full b m).
    destruct (is_full b m); rewrite IH; cbn [List.length fold_left];
      f_equal; lia.
Qed.

Lemma detect_lines_spec (g : Config) (b : Z) :
  detect_lines g b
  = (Z.of_nat (List.length (filter (is_full b) (row_masks g)))
     + Z.of_nat (List.length (filter (is_full b) (col_masks g))),
     fold_left Z.lor (filter (is_full b) (line_masks g)) 0).
Proof.
  unfold detect_lines, line_masks. rewrite !fold_detect_step.
  rewrite filter_app, fold_left_app. f_equal.
Qed.

Lemma testbit_union (l : list Z) (c i : Z) :
  Z.testbit (fold_left Z.lor l c) i
  = Z.testbit c i || existsb (fun m => Z.testbit m i) l.
Proof. exact (testbit_fold_lor (fun m => m) l c i). Qed.

Lemma testbit_cleared (g : Config) (b i : Z) :
  Z.testbit (snd (detect_lines g b)) i = true <->
  exists m, In m (line_masks g) /\ is_full b m = true /\ Z.testbit m i = true.
Proof.
  rewrite detect_lines_spec. cbn [snd].
  rewrite testbit_union, Z.bits_0. cbn [orb]. rewrite existsb_exists.
  split.
  - intros [m [Hin Hb]]. apply filter_In in Hin. exists m. tauto.
  - intros [m [Hin [Hf Hb]]]. exists m. split; [|assumption].
    apply filter_In. tauto.
Qed.

Lemma lines_nonneg (g : Config) (b : Z) : 0 <= fst (detect_lines g b).
Proof. rewrite detect_lines_spec. cbn [fst]. lia. Qed.

Lemma lines_zero_iff (g : Config) (b : Z) :
  fst (detect_lines g b) = 0 <->
  forall m, In m (line_masks g) -> is_full b m = false.
Proof.
  rewrite detect_lines_spec. cbn [fst]. unfold line_masks. split.
  - intros H m Hin. destruct (is_full b m) eqn:Hf; [|reflexivity].
    exfalso. apply in_app_or in Hin. destruct Hin as [Hin|Hin].
    + assert (Hx : In m (filter (is_full b) (row_masks g)))
        by (apply filter_In; tauto).
      destruct (filter (is_full b) (row_masks g)); [destruct Hx|].
      cbn [List.length] in H. lia.
    + assert (Hx : In m (filter (is_full b) (col_masks g)))
        by (apply filter_In; tauto).
      destruct (filter (is_full b) (col_masks g)); [destruct Hx|].
      cbn [List.length] in H. lia.
  - intros H.
    assert (Hnil : forall l, (forall m, In m l -> is_full b m = false) ->
                             filter (is_full b) l = []).
    { induction l as [|a l IH]; intros Hl; [reflexivity|].
      cbn [filter]. rewrite (Hl a (or_introl eq_refl)).
      apply IH. intros m Hm. apply Hl. now right. }
    rewrite !Hnil; [reflexivity| |]; intros m Hm; apply H, in_or_app; tauto.
Qed.

(** Every line has a cell on a board with at least one row and column. *)
Lemma line_mask_cell (g : Config) (m : Z) :
  1 <= width g -> 1 <= height g -> In m (line_masks g) ->
  exists x y, 0 <= x < width g /\ 0 <= y < height g
              /\ Z.testbit m (y * width g + x) = true.
Proof.
  intros Hw Hh Hin. apply in_app_or in Hin. destruct Hin as [Hin|Hin].
  - apply in_map_iff in Hin. destruct Hin as [r [<- Hr]].
    apply In_range in Hr. exists 0, r. repeat split; try lia.
    rewrite testbit_row_mask by lia.
    apply andb_true_iff. rewrite Z.leb_le, Z.ltb_lt. lia.
  - apply in_map_iff in Hin. destruct Hin as [c [<- Hc]].
    apply In_range in Hc. exists c, 0. repeat split; try lia.
    apply testbit_col_mask; [lia..|]. exists 0. lia.
Qed.

Lemma forallb_false_witness {A : Type} (f : A -> bool) (l : list A) :
  forallb f l = false -> exists a, In a l /\ f a = false.
Proof.
  induction l as [|a l IH]; cbn [forallb]; [discriminate|].
  destruct (f a) eqn:Hfa; cbn [andb].
  - intros H. destruct (IH H) as [a' [Hin Hf]]. exists a'. split; [now right|assumption].
  - intros _. exists a. split; [now left|assumption].
Qed.

(** A row is full exactly when each of its cells is occupied. *)
Lemma row_full_cells (g : Config) (b r : Z) :
  0 <= width g -> 0 <= r ->
  is_full b (row_mask g r)
  = forallb (fun x => Z.testbit b (r * width g + x)) (range (width g)).
Proof.
  intros Hw Hr. apply Bool.eq_iff_eq_true. unfold is_full.
  rewrite full_covers, forallb_forall. unfold covers. split.
  - intros H x Hx. apply In_range in Hx. apply H.
    rewrite testbit_row_mask by assumption.
    apply andb_true_iff. rewrite Z.leb_le, Z.ltb_lt. lia.
  - intros H i Hi. rewrite testbit_row_mask in Hi by assumption.
    apply andb_true_iff in Hi. rewrite Z.leb_le, Z.ltb_lt in Hi.
    replace i with (r * width g + (i - r * width g)) by lia.
    apply H, In_range. lia.
Qed.

(** A column is full exactly when each of its cells is occupied. *)
Lemma col_full_cells (g : Config) (b c : Z) :
  0 <= width g -> 0 <= c ->
  is_full b (col_mask g c)
  = forallb (fun y => Z.testbit b (y * width g + c)) (range (height g)).
Proof.
  intros Hw Hc. apply Bool.eq_iff_eq_true. unfold is_full.
  rewrite full_covers, forallb_forall. unfold covers. split.
  - intros H y Hy. apply In_range in Hy. apply H.
    apply testbit_col_mask; [assumption..|]. exists y. lia.
  - intros H i Hi. apply testbit_col_mask in Hi; [|assumption..].
    destruct Hi as [y [Hy ->]]. apply H, In_range. lia.
Qed.

Lemma clear_has_empty (g : Config) (b : Z) :
  1 <= width g -> 1 <= height g ->
  has_empty g (fst (detect_and_clear_lines g b)).
Proof.
  intros Hw Hh. unfold detect_and_clear_lines.
  pose proof (testbit_cleared g b) as Hcl.
  pose proof (lines_zero_iff g b) as Hz.
  pose proof (lines_nonneg g b) as Hnn.
  destruct (detect_lines g b) as [n c]. cbn [fst snd] in *.
  destruct (Z.gtb_spec n 0) as [Hpos|Hle].
  - (* some line was full: its cells are free now *)
    assert (Hex : exists m, In m (line_masks g) /\ is_full b m = true).
    { clear Hcl.
      assert (Hd : forall l, (forall m, In m l -> is_full b m = false)
                             \/ exists m, In m l /\ is_full b m = true).
      { induction l as [|a l [IH|[m [Hm Hf]]]].
        - left. intros m [].
        - destruct (is_full b a) eqn:Hfa.
          + right. exists a. split; [now left|assumption].
          + left. intros m [<-|Hm]; [assumption|now apply IH].
        - right. exists m. split; [now right|assumption]. }
      destruct (Hd (line_masks g)) as [Hall|Hsome]; [|assumption].
      apply Hz in Hall. lia. }
    destruct Hex as [m [Hin Hf]].
    destruct (line_mask_cell g m Hw Hh Hin) as (x & y & Hx & Hy & Hb).
    exists x, y. repeat split; try lia.
    rewrite Z.land_spec, Z.lnot_spec by nia.
    assert (Hc : Z.testbit c (y * width g + x) = true)
      by (apply Hcl; exists m; tauto).
    rewrite Hc. apply andb_false_r.
  - (* no line was full: the first row has a free cell *)
    assert (Hn0 : n = 0) by lia.
    assert (Hrow : is_full b (row_mask g 0) = false).
    { apply Hz; [assumption|]. apply in_or_app. left.
      apply in_map_iff. exists 0. split; [reflexivity|apply In_range; lia]. }
    rewrite row_full_cells in Hrow by lia.
    apply forallb_false_witness in Hrow. destruct Hrow as [x [Hx Hb]].
    apply In_range in Hx. exists x, 0. repeat split; try lia. exact Hb.
Qed.

(** * Simulated moves *)

(** The board a placement leads to, lines cleared. *)
Definition next_board (g : Config) (b : Z) (p : Piece) (pos : Position) : Z :=
  fst (detect_and_clear_lines g (Z.lor b (get_piece_mask g p pos))).

(** [plays g b moves b']: each move of the sequence is legal on the board
    it meets, starting from [b] and ending on [b']. *)
Inductive plays (g : Config) : Z -> list Move -> Z -> Prop :=
| plays_nil (b : Z) : plays g b [] b
| plays_cons (b : Z) (p : Piece) (pos : Position) (rest : list Move) (b' : Z) :
    is_valid_move g b p pos = true ->
    plays g (next_board g b p pos) rest b' ->
    plays g b ((p, pos) :: rest) b'.

Lemma try_move_valid (g : Config) (s : State) (b : Z) (p : Piece)
  (pos : Position) :
  is_valid_move g b p pos = true ->
  try_move g s b p pos
  = (Success (next_board g b p pos) None
       (snd (detect_and_clear_lines g (Z.lor b (get_piece_mask g p pos))))
       (dict_is_empty (get_possible_moves g s)), s).
Proof.
  intros Hv. unfold try_move, next_board, detect_and_clear_lines.
  rewrite Hv. cbn [negb].
  destruct (detect_lines g (Z.lor b (get_piece_mask g p pos))) as [n c].
  cbn [fst snd]. now destruct (dict_is_empty (get_possible_moves g s)).
Qed.

Lemma try_move_invalid (g : Config) (s : State) (b : Z) (p : Piece)
  (pos : Position) :
  is_valid_move g b p pos = false ->
  try_move g s b p pos = (Error "Invalid move.", s).
Proof. intros Hv. unfold try_move. now rewrite Hv. Qed.

Lemma plays_snoc (g : Config) (b0 b : Z) (moves : list Move) (p : Piece)
  (pos : Position) :
  plays g b0 moves b -> is_valid_move g b p pos = true ->
  plays g b0 (moves ++ [(p, pos)]) (next_board g b p pos).
Proof.
  induction 1 as [b|b q qpos rest b' Hq _ IH]; intros Hv; cbn [app].
  - apply plays_cons; [assumption|constructor].
  - apply plays_cons; [assumption|now apply IH].
Qed.

Lemma next_board_has_empty (g : Config) (b : Z) (p : Piece) (pos : Position) :
  is_valid_move g b p pos = true -> has_empty g (next_board g b p pos).
Proof.
  intros Hv. destruct pos as [x y].
  pose proof (proj1 (is_valid_move_spec g b p x y) Hv) as H.
  pose proof (piece_size_pos p). apply clear_has_empty; lia.
Qed.

(** * The guaranteed deal *)

Lemma deal_scan_spec (g : Config) (b0 : Z) (names : list Piece) :
  forall (scratch : Z) (s : State) (moves : list Move),
    has_empty g scratch ->
    (List.length (current_pieces s) < 3)%nat ->
    plays g b0 moves scratch ->
    map fst moves = current_pieces s ->
    exists scratch' s' moves',
      deal_scan g names scratch s = Ret (scratch', s')
      /\ has_empty g scratch'
      /\ plays g b0 moves' scratch'
      /\ map fst moves' = current_pieces s'
      /\ (List.length (current_pieces s) <= List.length (current_pieces s') <= 3)%nat
      /\ (In Pc.sq1 names ->
          (List.length (current_pieces s) < List.length (current_pieces s'))%nat)
      /\ s' = set_current_pieces s (current_pieces s').
Proof.
  induction names as [|name rest IH]; intros scratch s moves He Hlen Hp Hm;
    cbn [deal_scan].
  - exists scratch, s, moves. repeat split; try assumption; try lia.
    + intros [].
    + now destruct s.
  - destruct (_can_place_piece g scratch name) as [pos|] eqn:Hcp.
    + pose proof (can_place_valid _ _ _ _ Hcp) as Hv.
      rewrite (try_move_valid g s scratch name pos Hv). cbn [fst outcome_board bind].
      set (s1 := set_current_pieces s (current_pieces s ++ [name])).
      assert (Hlen1 : List.length (current_pieces s1)
                      = S (List.length (current_pieces s))).
      { unfold s1. cbn. rewrite length_app. cbn. lia. }
      assert (Hm1 : map fst (moves ++ [(name, pos)]) = current_pieces s1).
      { unfold s1. cbn. rewrite map_app, Hm. reflexivity. }
      pose proof (plays_snoc _ _ _ _ _ _ Hp Hv) as Hp1.
      pose proof (next_board_has_empty _ _ _ _ Hv) as He1.
      destruct (Nat.eqb_spec (List.length (current_pieces s1)) 3) as [H3|H3].
      * exists (next_board g scratch name pos), s1, (moves ++ [(name, pos)]).
        repeat split; try assumption; try lia.
      * destruct (IH (next_board g scratch name pos) s1 (moves ++ [(name, pos)]))
          as (scratch' & s' & moves' & Hrun & He' & Hp' & Hm' & Hl' & _ & Hfr);
          try assumption; try lia.
        exists scratch', s', moves'.
        repeat split; try assumption; try lia.
    + destruct (IH scratch s moves He Hlen Hp Hm)
        as (scratch' & s' & moves' & Hrun & He' & Hp' & Hm' & Hl' & Hsq & Hfr).
      exists scratch', s', moves'.
      repeat split; try assumption; try lia.
      intros [Heq|Hin]; [|now apply Hsq].
      subst name. exfalso. now apply (has_empty_can_place g scratch He).
Qed.

Lemma deal_loop_spec (g : Config) (b0 : Z) (names : list Piece) :
  In Pc.sq1 names ->
  forall (fuel : nat) (scratch : Z) (s : State) (moves : list Move),
    (3 <= fuel + List.length (current_pieces s))%nat ->
    has_empty g scratch ->
    (List.length (current_pieces s) < 3)%nat ->
    plays g b0 moves scratch ->
    map fst moves = current_pieces s ->
    exists s' moves' b',
      deal_loop fuel g names scratch s = Ret s'
      /\ plays g b0 moves' b'
      /\ map fst moves' = current_pieces s'
      /\ List.length (current_pieces s') = 3%nat
      /\ s' = set_current_pieces s (current_pieces s').
Proof.
  intros Hsq. induction fuel as [|fuel IH]; intros scratch s moves Hf He Hlen Hp Hm.
  - cbn in Hf. lia.
  - cbn [deal_loop].
    destruct (deal_scan_spec g b0 names scratch s moves He Hlen Hp Hm)
      as (scratch' & s' & moves' & Hrun & He' & Hp' & Hm' & Hl' & Hprog & Hfr).
    specialize (Hprog Hsq). rewrite Hrun. cbn [bind].
    destruct (Nat.eqb_spec (List.length (current_pieces s')) 3) as [H3|H3].
    + exists s', moves', scratch'. repeat split; assumption.
    + destruct (IH scratch' s' moves') as (s'' & moves'' & b'' & Hrun' & Hp'' & Hm'' & Hl'' & Hfr'');
        try assumption; try lia.
      exists s'', moves'', b''. repeat split; try assumption.
      rewrite Hfr'', Hfr. reflexivity.
Qed.

Lemma sq1_in_shuffled (sh : Shuffle) : In Pc.sq1 (shuffled sh all_piece_names).
Proof.
  apply (Permutation_in _ (shuffled_perm sh all_piece_names)).
  cbn. now left.
Qed.

Lemma guaranteed_deal_spec (g : Config) (s : State) (rnd : Random) (fuel : nat) :
  (3 <= fuel)%nat -> has_empty g (board s) ->
  exists s' moves b',
    _guaranteed_deal_new_pieces fuel rnd g s = Ret s'
    /\ List.length (current_pieces s') = 3%nat
    /\ Permutation (map fst moves) (current_pieces s')
    /\ plays g (board s) moves b'
    /\ s' = set_current_pieces s (current_pieces s').
Proof.
  intros Hf He. unfold _guaranteed_deal_new_pieces.
  destruct (deal_loop_spec g (board s) _ (sq1_in_shuffled (catalog_order rnd))
              fuel (board (set_current_pieces s [])) (set_current_pieces s []) [])
    as (s1 & moves & b' & Hrun & Hp & Hm & Hl & Hfr).
  - cbn. lia.
  - exact He.
  - cbn. lia.
  - constructor.
  - reflexivity.
  - rewrite Hrun. cbn [bind].
    exists (set_current_pieces s1 (shuffled (held_order rnd) (current_pieces s1))),
      moves, b'.
    repeat split.
    + cbn. rewrite <- (Permutation_length (shuffled_perm (held_order rnd) _)).
      exact Hl.
    + cbn. rewrite Hm. apply shuffled_perm.
    + exact Hp.
    + rewrite Hfr. reflexivity.
Qed.

(** * Frames: what dealing leaves alone *)

Lemma deal_scan_frame (g : Config) (names : list Piece) :
  forall scratch s scratch' s',
    deal_scan g names scratch s = Ret (scratch', s') ->
    s' = set_current_pieces s (current_pieces s').
Proof.
  induction names as [|name rest IH]; intros scratch s scratch' s' H;
    cbn [deal_scan] in H.
  - inversion H; subst. now destruct s'.
  - destruct (_can_place_piece g scratch name) as [pos|].
    + destruct (outcome_board (fst (try_move g s scratch name pos)))
        as [b1| |]; cbn [bind] in H; try discriminate.
      destruct (Nat.eqb _ 3).
      * inversion H; subst. now destruct s.
      * apply IH in H. rewrite H. reflexivity.
    + now apply IH in H.
Qed.

Lemma deal_loop_frame (g : Config) (names : list Piece) (fuel : nat) :
  forall scratch s s',
    deal_loop fuel g names scratch s = Ret s' ->
    s' = set_current_pieces s (current_pieces s').
Proof.
  induction fuel as [|fuel IH]; intros scratch s s' H; cbn [deal_loop] in H;
    [discriminate|].
  destruct (deal_scan g names scratch s) as [[b1 s1]| |] eqn:Hscan;
    cbn [bind] in H; try discriminate.
  apply deal_scan_frame in Hscan.
  destruct (Nat.eqb _ 3).
  - inversion H; subst. exact Hscan.
  - apply IH in H. rewrite H, Hscan. reflexivity.
Qed.

Lemma guaranteed_deal_frame (fuel : nat) (rnd : Random) (g : Config)
  (s s' : State) :
  _guaranteed_deal_new_pieces fuel rnd g s = Ret s' ->
  s' = set_current_pieces s (current_pieces s').
Proof.
  unfold _guaranteed_deal_new_pieces. intros H.
  destruct (deal_loop fuel g _ _ _) as [s1| |] eqn:Hloop; cbn [bind] in H;
    try discriminate.
  apply deal_loop_frame in Hloop. inversion H; subst.
  rewrite Hloop. reflexivity.
Qed.

(** * The scoring transition *)

(** The transition with the combo reset left out. *)
Definition score_transition_no_reset (s : State) (lines_cleared cleared_mask : Z)
  : run State :=
  if lines_cleared >? 0 then
    let s := set_board s (Z.land (board s) (Z.lnot cleared_mask)) in
    let s := set_not_combo_counter s 3 in
    let s := set_combo s (combo s + 1) in
    let s := accelerate s in
    let s := set_score_increment s
               (score_increment s + score_incremental_acceleration s)%float in
    bonus <- int_of_float
               (score_increment s * SCORE_MULTIPLIERS_get lines_cleared)%float ;;
    Ret (set_score s (score s + bonus))
  else
    Ret (set_not_combo_counter s (not_combo_counter s - 1)).

Lemma reset_test_false (s : State) (n : Z) :
  0 < n -> (not_combo_counter (set_not_combo_counter s 3) + n <=? 1) = false.
Proof. intros Hn. cbn [not_combo_counter set_not_combo_counter]. apply Z.leb_gt. lia. Qed.

Lemma score_transition_reset_dead (s : State) (n c : Z) :
  score_transition s n c = score_transition_no_reset s n c.
Proof.
  unfold score_transition, score_transition_no_reset.
  destruct (Z.gtb_spec n 0) as [Hn|Hn]; [|reflexivity].
  cbv zeta. rewrite reset_test_false by lia. reflexivity.
Qed.

Lemma accelerate_frame (s : State) :
  accelerate s
  = set_score_incremental_acceleration s
      (score_incremental_acceleration (accelerate s)).
Proof.
  unfold accelerate.
  destruct (combo s) as [|q|q]; try (now destruct s);
    repeat (destruct q as [q|q|]; try (now destruct s)).
Qed.

Lemma score_transition_inv (s s2 : State) (n c : Z) :
  score_transition s n c = Ret s2 ->
  board s2 = (if n >? 0 then Z.land (board s) (Z.lnot c) else board s)
  /\ combo s2 = (if n >? 0 then combo s + 1 else combo s)
  /\ not_combo_counter s2 = (if n >? 0 then 3 else not_combo_counter s - 1)
  /\ game_over s2 = game_over s
  /\ current_pieces s2 = current_pieces s.
Proof.
  rewrite score_transition_reset_dead. unfold score_transition_no_reset.
  destruct (n >? 0).
  - cbv zeta. destruct (int_of_float _) as [bonus| |]; cbn [bind];
      try discriminate.
    intros H. inversion H; subst; clear H. cbn.
    rewrite accelerate_frame. cbn. repeat split; reflexivity.
  - intros H. inversion H; subst; clear H. cbn. repeat split; reflexivity.
Qed.

(** * [make_move] *)

Lemma held_In (p : Piece) (l : list Piece) :
  existsb (piece_eqb p) l = true <-> In p l.
Proof.
  rewrite existsb_exists. split.
  - intros [q [Hin Heq]]. apply piece_eqb_eq in Heq. now subst.
  - intros Hin. exists p. split; [assumption|now apply piece_eqb_eq].
Qed.

(** The three conditions under which [make_move] refuses. *)
Definition rejected (g : Config) (s : State) (p : Piece) (pos : Position)
  : Prop :=
  game_over s = true \/ ~ In p (current_pieces s)
  \/ is_valid_move g (board s) p pos = false.

Lemma rejected_dec (g : Config) (s : State) (p : Piece) (pos : Position) :
  rejected g s p pos
  \/ (game_over s = false /\ In p (current_pieces s)
      /\ is_valid_move g (board s) p pos = true).
Proof.
  unfold rejected. destruct (game_over s); [now left; left|].
  destruct (existsb (piece_eqb p) (current_pieces s)) eqn:Hh.
  - apply held_In in Hh.
    destruct (is_valid_move g (board s) p pos); [now right|now left; right; right].
  - left. right. left. intros Hin. apply held_In in Hin. congruence.
Qed.

Lemma make_move_rejected (fuel : nat) (rnd : Random) (g : Config) (s : State)
  (p : Piece) (pos : Position) :
  rejected g s p pos ->
  exists msg, make_move fuel rnd g s p pos = Ret (Error msg, s).
Proof.
  unfold make_move. intros [H|[H|H]].
  - rewrite H. eauto.
  - destruct (game_over s); [eauto|].
    destruct (existsb (piece_eqb p) (current_pieces s)) eqn:Hh; cbn [negb];
      [|eauto].
    apply held_In in Hh. contradiction.
  - destruct (game_over s); [eauto|].
    destruct (existsb (piece_eqb p) (current_pieces s)); cbn [negb]; [|eauto].
    rewrite H. cbn [negb]. eauto.
Qed.

(** The placement and flat score of an accepted move. *)
Definition placed (g : Config) (s : State) (p : Piece) (pos : Position) : State :=
  let s1 := set_board s (Z.lor (board s) (get_piece_mask g p pos)) in
  set_score s1 (score s1 + bit_count (name_to_pieces p)).

(** What a call that is not refused computes. *)
Lemma make_move_accepted (fuel : nat) (rnd : Random) (g : Config) (s : State)
  (p : Piece) (pos : Position) :
  game_over s = false -> In p (current_pieces s) ->
  is_valid_move g (board s) p pos = true ->
  make_move fuel rnd g s p pos
  = (let s1 := placed g s p pos in
     let n := fst (detect_lines g (board s1)) in
     let c := snd (detect_lines g (board s1)) in
     s2 <- score_transition s1 n c ;;
     let s3 := set_current_pieces s2 (remove_first p (current_pieces s2)) in
     s4 <- (match current_pieces s3 with
            | [] => if is_guranteed_valid_moves g
                    then _guaranteed_deal_new_pieces fuel rnd g s3
                    else Ret (_deal_new_pieces rnd s3)
            | _ :: _ => Ret s3
            end) ;;
     let s5 := if dict_is_empty (get_possible_moves g s4)
               then set_game_over s4 true else s4 in
     Ret (Success (board s5) (Some (score s5)) n (game_over s5), s5)).
Proof.
  intros Hg Hh Hv. unfold make_move. rewrite Hg.
  apply held_In in Hh. rewrite Hh, Hv. cbn [negb]. cbv zeta.
  destruct (detect_lines g _) as [n c]. reflexivity.
Qed.

Lemma make_move_inv (fuel : nat) (rnd : Random) (g : Config) (s : State)
  (p : Piece) (pos : Position) (o : Outcome) (s' : State) :
  make_move fuel rnd g s p pos = Ret (o, s') ->
  (rejected g s p pos /\ s' = s /\ exists msg, o = Error msg)
  \/ (game_over s = false /\ In p (current_pieces s)
      /\ is_valid_move g (board s) p pos = true
      /\ let b1 := Z.lor (board s) (get_piece_mask g p pos) in
         let n := snd (detect_and_clear_lines g b1) in
         board s' = fst (detect_and_clear_lines g b1)
         /\ o = Success (board s') (Some (score s')) n (game_over s')
         /\ combo s' = (if n >? 0 then combo s + 1 else combo s)
         /\ not_combo_counter s'
            = (if n >? 0 then 3 else not_combo_counter s - 1)).
Proof.
  intros H. destruct (rejected_dec g s p pos) as [Hr|(Hg & Hh & Hv)].
  - left. destruct (make_move_rejected fuel rnd g s p pos Hr) as [msg Hm].
    rewrite Hm in H. inversion H; subst. eauto.
  - right. repeat (split; [assumption|]).
    rewrite (make_move_accepted fuel rnd g s p pos Hg Hh Hv) in H.
    unfold placed in H. cbv zeta in H. cbn [board set_board set_score] in H.
    unfold detect_and_clear_lines.
    destruct (detect_lines g (Z.lor (board s) (get_piece_mask g p pos)))
      as [n c]. cbn [fst snd] in *.
    destruct (score_transition _ n c) as [s2| |] eqn:Hst; cbn [bind] in H;
      try discriminate.
    apply score_transition_inv in Hst. cbn in Hst.
    destruct Hst as (Hb2 & Hc2 & Hn2 & Hg2 & Hp2).
    match type of H with
    | bind ?m _ = _ => destruct m as [s4| |] eqn:Hdeal
    end; cbn [bind] in H; try discriminate.
    assert (Hfr : s4 = set_current_pieces s2 (current_pieces s4)).
    { cbn [current_pieces set_current_pieces] in Hdeal.
      destruct (remove_first p (current_pieces s2)).
      - destruct (is_guranteed_valid_moves g).
        + apply guaranteed_deal_frame in Hdeal. rewrite Hdeal. reflexivity.
        + inversion Hdeal; subst. reflexivity.
      - inversion Hdeal; subst. reflexivity. }
    inversion H; subst o s'; clear H.
    assert (Hsame : forall t : State,
               board (if dict_is_empty (get_possible_moves g s4)
                      then set_game_over t true else t) = board t
               /\ combo (if dict_is_empty (get_possible_moves g s4)
                         then set_game_over t true else t) = combo t
               /\ not_combo_counter
                    (if dict_is_empty (get_possible_moves g s4)
                     then set_game_over t true else t) = not_combo_counter t).
    { intros t. now destruct (dict_is_empty _). }
    destruct (Hsame s4) as (E1 & E2 & E3). rewrite E1, E2, E3.
    rewrite Hfr. cbn [board combo not_combo_counter set_current_pieces].
    rewrite Hb2, Hc2, Hn2.
    repeat split; reflexivity.
Qed.

(** * Clearing twice *)

Lemma cleared_board_no_full_line (g : Config) (b m : Z) :
  1 <= width g -> 1 <= height g -> In m (line_masks g) ->
  is_full (fst (detect_and_clear_lines g b)) m = false.
Proof.
  intros Hw Hh Hin.
  destruct (is_full (fst (detect_and_clear_lines g b)) m) eqn:Hf;
    [exfalso|reflexivity].
  unfold is_full in Hf. apply full_covers in Hf.
  destruct (line_mask_cell g m Hw Hh Hin) as (x & y & Hx & Hy & Hm).
  pose proof (Hf _ Hm) as Hb'.
  unfold detect_and_clear_lines in Hf, Hb'.
  pose proof (testbit_cleared g b) as Hcl.
  pose proof (lines_zero_iff g b) as Hz.
  pose proof (lines_nonneg g b) as Hnn.
  destruct (detect_lines g b) as [n c]. cbn [fst snd] in *.
  destruct (Z.gtb_spec n 0) as [Hpos|Hle].
  - assert (Hfull : is_full b m = true).
    { unfold is_full. apply full_covers. intros i Hi.
      specialize (Hf i Hi). rewrite Z.land_spec in Hf.
      now apply andb_true_iff in Hf. }
    assert (Hc : Z.testbit c (y * width g + x) = true)
      by (apply Hcl; exists m; tauto).
    rewrite Z.land_spec, Z.lnot_spec, Hc in Hb' by nia.
    rewrite andb_false_r in Hb'. discriminate.
  - assert (Hfull : is_full b m = true) by (unfold is_full; now apply full_covers).
    assert (Hn0 : n = 0) by lia.
    rewrite (proj1 Hz Hn0 m Hin) in Hfull. discriminate.
Qed.

Lemma no_full_line_fixed (g : Config) (b : Z) :
  (forall m, In m (line_masks g) -> is_full b m = false) ->
  detect_and_clear_lines g b = (b, 0).
Proof.
  intros H. apply lines_zero_iff in H. unfold detect_and_clear_lines.
  destruct (detect_lines g b) as [n c]. cbn [fst] in H. subst n. reflexivity.
Qed.

Lemma detect_and_clear_twice (g : Config) (b : Z) :
  1 <= width g -> 1 <= height g ->
  detect_and_clear_lines g (fst (detect_and_clear_lines g b))
  = (fst (detect_and_clear_lines g b), 0).
Proof.
  intros Hw Hh. apply no_full_line_fixed. intros m Hm.
  now apply cleared_board_no_full_line.
Qed.

(** * Detection is simultaneous *)

Lemma detect_and_clear_spec (g : Config) (b : Z) :
  detect_and_clear_lines g b
  = (Z.land b (Z.lnot (fold_left Z.lor (filter (is_full b) (line_masks g)) 0)),
     Z.of_nat (List.length (filter (is_full b) (row_masks g)))
     + Z.of_nat (List.length (filter (is_full b) (col_masks g)))).
Proof.
  unfold detect_and_clear_lines. rewrite detect_lines_spec.
  destruct (Z.gtb_spec
              (Z.of_nat (List.length (filter (is_full b) (row_masks g)))
               + Z.of_nat (List.length (filter (is_full b) (col_masks g)))) 0)
    as [Hpos|Hle]; [reflexivity|].
  f_equal. unfold line_masks. rewrite filter_app.
  destruct (filter (is_full b) (row_masks g)); [|cbn [List.length] in Hle; lia].
  destruct (filter (is_full b) (col_masks g)); [|cbn [List.length] in Hle; lia].
  cbn. symmetry. apply Z.land_m1_r.
Qed.

Lemma row_of_cell (w k x y : Z) :
  0 <= x < w -> k * w <= y * w + x < k * w + w -> k = y.
Proof.
  intros Hx H. destruct (Z.lt_trichotomy k y) as [Hlt|[Heq|Hgt]];
    [exfalso|assumption|exfalso].
  - assert ((k + 1) * w <= y * w) by nia. lia.
  - assert ((y + 1) * w <= k * w) by nia. lia.
Qed.

Lemma col_of_cell (w r k x y : Z) :
  0 <= x < w -> 0 <= k < w -> y * w + x = r * w + k -> k = x.
Proof.
  intros Hx Hk H. assert (r = y); [|subst; lia].
  apply (row_of_cell w r x y Hx). lia.
Qed.

(** A cell survives the pass exactly when it was occupied and neither its
    row nor its column was full. *)
Lemma cleared_cell (g : Config) (b x y : Z) :
  0 <= x < width g -> 0 <= y < height g ->
  Z.testbit (fst (detect_and_clear_lines g b)) (y * width g + x)
  = Z.testbit b (y * width g + x)
    && negb (is_full b (row_mask g y)) && negb (is_full b (col_mask g x)).
Proof.
  intros Hx Hy. rewrite detect_and_clear_spec. cbn [fst].
  rewrite Z.land_spec, Z.lnot_spec by nia. rewrite <- andb_assoc. f_equal.
  rewrite <- negb_orb. f_equal.
  apply Bool.eq_iff_eq_true. rewrite orb_true_iff.
  rewrite testbit_union, Z.bits_0. cbn [orb]. rewrite existsb_exists. split.
  - intros [m [Hin Hb]]. apply filter_In in Hin. destruct Hin as [Hin Hf].
    apply in_app_or in Hin. destruct Hin as [Hin|Hin];
      apply in_map_iff in Hin; destruct Hin as [k [<- Hk]];
      apply In_range in Hk.
    + left. rewrite testbit_row_mask in Hb by lia.
      apply andb_true_iff in Hb. rewrite Z.leb_le, Z.ltb_lt in Hb.
      assert (k = y) by (apply (row_of_cell (width g) k x y); lia). now subst k.
    + right. apply testbit_col_mask in Hb; [|lia..].
      destruct Hb as [r [Hr Heq]].
      assert (k = x) by (apply (col_of_cell (width g) r k x y); lia). now subst k.
  - intros [Hf|Hf].
    + exists (row_mask g y). split.
      * apply filter_In. split; [|assumption]. apply in_or_app. left.
        apply in_map_iff. exists y. split; [reflexivity|now apply In_range].
      * rewrite testbit_row_mask by lia.
        apply andb_true_iff. rewrite Z.leb_le, Z.ltb_lt. lia.
    + exists (col_mask g x). split.
      * apply filter_In. split; [|assumption]. apply in_or_app. right.
        apply in_map_iff. exists x. split; [reflexivity|now apply In_range].
      * apply testbit_col_mask; [lia..|]. exists y. lia.
Qed.

(** * The board stays on the grid *)

Lemma next_board_in_extent (g : Config) (b : Z) (p : Piece) (pos : Position) :
  in_extent g b -> is_valid_move g b p pos = true ->
  in_extent g (next_board g b p pos).
Proof.
  intros Hb Hv i Hi. unfold next_board in Hi.
  rewrite detect_and_clear_spec in Hi. cbn [fst] in Hi.
  rewrite Z.land_spec in Hi. apply andb_true_iff in Hi. destruct Hi as [Hi _].
  rewrite Z.lor_spec in Hi. apply orb_true_iff in Hi. destruct Hi as [Hi|Hi].
  - now apply Hb.
  - now apply (placement_in_extent g b p pos Hv).
Qed.

(** * Terminal detection *)

Lemma dict_set_nonempty (d : list (Piece * list Position)) (k : Piece)
  (v : list Position) : dict_set d k v <> [].
Proof.
  destruct d as [|[k' v'] rest]; cbn [dict_set]; [discriminate|].
  destruct (piece_eqb k k'); discriminate.
Qed.

Lemma possible_moves_fold (g : Config) (b : Z) (l : list Piece) :
  forall acc,
    fold_left
      (fun possible_moves name =>
         match filter (fun pos => is_valid_move g b name pos) (positions g) with
         | [] => possible_moves
         | _ :: _ =>
             dict_set possible_moves name
               (filter (fun pos => is_valid_move g b name pos) (positions g))
         end) l acc = []
    <-> acc = []
        /\ forall p, In p l ->
             filter (fun pos => is_valid_move g b p pos) (positions g) = [].
Proof.
  induction l as [|q l IH]; intros acc; cbn [fold_left].
  - split; [intros ->; split; [reflexivity|intros p []]|now intros [-> _]].
  - rewrite IH. split.
    + intros [Hacc Hl].
      destruct (filter (fun pos => is_valid_move g b q pos) (positions g))
        as [|v0 vs] eqn:Hq.
      * split; [assumption|]. intros p [<-|Hp]; [assumption|now apply Hl].
      * exfalso. revert Hacc. apply dict_set_nonempty.
    + intros [-> Hl]. rewrite (Hl q (or_introl eq_refl)).
      split; [reflexivity|]. intros p Hp. apply Hl. now right.
Qed.

(** The session is stuck exactly when no held piece fits anywhere. *)
Lemma possible_moves_empty (g : Config) (s : State) :
  dict_is_empty (get_possible_moves g s) = true <->
  forall p pos, In p (current_pieces s) ->
                is_valid_move g (board s) p pos = false.
Proof.
  assert (Hd : forall A (d : list A), dict_is_empty d = true <-> d = []).
  { intros A [|a d]; cbn; split; congruence. }
  rewrite Hd. unfold get_possible_moves.
  rewrite (possible_moves_fold g (board s) (current_pieces s) []). split.
  - intros [_ H] p pos Hp.
    destruct (is_valid_move g (board s) p pos) eqn:Hv; [|reflexivity].
    exfalso. assert (Hin : In pos (filter (fun pos => is_valid_move g (board s) p pos)
                                     (positions g))).
    { apply filter_In. split; [|assumption].
      eapply valid_in_positions; eassumption. }
    rewrite (H p Hp) in Hin. destruct Hin.
  - intros H. split; [reflexivity|]. intros p Hp.
    destruct (filter (fun pos => is_valid_move g (board s) p pos) (positions g))
      as [|v0 vs] eqn:Hf; [reflexivity|].
    assert (Hin : In v0 (filter (fun pos => is_valid_move g (board s) p pos)
                           (positions g))) by (rewrite Hf; now left).
    apply filter_In in Hin. destruct Hin as [_ Hv].
    rewrite (H p v0 Hp) in Hv. discriminate.
Qed.

(** * [make_move] runs to completion *)

Lemma int_of_float_cases (f : float) :
  (exists z, int_of_float f = Ret z)
  \/ int_of_float f = Raise OverflowError
  \/ int_of_float f = Raise ValueError.
Proof.
  unfold int_of_float. destruct (Prim2SF f); eauto.
Qed.

Lemma score_transition_cases (s : State) (n c : Z) :
  (exists s2, score_transition s n c = Ret s2)
  \/ score_transition s n c = Raise OverflowError
  \/ score_transition s n c = Raise ValueError.
Proof.
  unfold score_transition. destruct (n >? 0); [|eauto]. cbv zeta.
  match goal with
  | |- context [int_of_float ?f] => destruct (int_of_float_cases f) as [[z Hz]|[Hz|Hz]]
  end; rewrite Hz; cbn [bind]; eauto.
Qed.

(** The state after an accepted move, given the state the scoring
    transition produced: the hand and the terminal flag are set last. *)
Lemma make_move_accepted_inv (fuel : nat) (rnd : Random) (g : Config)
  (s : State) (p : Piece) (pos : Position) (o : Outcome) (s' : State) :
  game_over s = false -> In p (current_pieces s) ->
  is_valid_move g (board s) p pos = true ->
  make_move fuel rnd g s p pos = Ret (o, s') ->
  exists s2,
    score_transition (placed g s p pos)
      (fst (detect_lines g (board (placed g s p pos))))
      (snd (detect_lines g (board (placed g s p pos)))) = Ret s2
    /\ s' = set_game_over (set_current_pieces s2 (current_pieces s'))
              (game_over s')
    /\ o = Success (board s2) (Some (score s2))
             (fst (detect_lines g (board (placed g s p pos)))) (game_over s')
    /\ game_over s'
       = dict_is_empty (get_possible_moves g
                          (set_current_pieces s2 (current_pieces s')))
    /\ (remove_first p (current_pieces s) <> [] ->
        current_pieces s' = remove_first p (current_pieces s)).
Proof.
  intros Hg Hh Hv H.
  rewrite (make_move_accepted fuel rnd g s p pos Hg Hh Hv) in H.
  cbv zeta in H.
  destruct (score_transition (placed g s p pos) _ _) as [s2| |] eqn:Hst;
    cbn [bind] in H; try discriminate.
  exists s2. split; [reflexivity|].
  pose proof (score_transition_inv _ _ _ _ Hst) as (_ & _ & _ & Hg2 & Hp2).
  cbn in Hg2, Hp2.
  match type of H with
  | bind ?m _ = _ => destruct m as [s4| |] eqn:Hdeal
  end; cbn [bind] in H; try discriminate.
  assert (Hfr : exists hand,
             s4 = set_current_pieces s2 hand
             /\ (remove_first p (current_pieces s) <> [] ->
                 hand = remove_first p (current_pieces s))).
  { cbn [current_pieces set_current_pieces] in Hdeal. rewrite Hp2 in Hdeal.
    destruct (remove_first p (current_pieces s)) as [|q qs].
    - exists (current_pieces s4). split; [|congruence].
      destruct (is_guranteed_valid_moves g).
      + apply guaranteed_deal_frame in Hdeal. rewrite Hdeal. reflexivity.
      + inversion Hdeal; subst. reflexivity.
    - inversion Hdeal; subst. exists (q :: qs). split; reflexivity. }
  destruct Hfr as (hand & -> & Hhand).
  inversion H; subst o s'; clear H.
  destruct (dict_is_empty (get_possible_moves g (set_current_pieces s2 hand)))
    eqn:Hstuck.
  - cbn [board score game_over current_pieces set_game_over set_current_pieces].
    rewrite Hstuck. repeat split; try assumption; reflexivity.
  - cbn [board score game_over current_pieces set_game_over set_current_pieces].
    rewrite Hstuck, Hg2, Hg. repeat split; try assumption; try reflexivity.
    rewrite Hg in Hg2. destruct s2; unfold set_game_over, set_current_pieces; cbn in *.
    now subst.
Qed.

Lemma transition_board (g : Config) (s : State) (p : Piece) (pos : Position)
  (s2 : State) :
  score_transition (placed g s p pos)
    (fst (detect_lines g (board (placed g s p pos))))
    (snd (detect_lines g (board (placed g s p pos)))) = Ret s2 ->
  board s2 = next_board g (board s) p pos.
Proof.
  intros H. apply score_transition_inv in H. destruct H as [H _].
  rewrite H. unfold next_board, detect_and_clear_lines. cbn [board placed set_score set_board].
  destruct (detect_lines g _) as [n c]. reflexivity.
Qed.

(** With three units of fuel an accepted move returns as soon as its
    scoring transition does. *)
Lemma make_move_accepted_returns (fuel : nat) (rnd : Random) (g : Config)
  (s : State) (p : Piece) (pos : Position) (s2 : State) :
  (3 <= fuel)%nat ->
  game_over s = false -> In p (current_pieces s) ->
  is_valid_move g (board s) p pos = true ->
  score_transition (placed g s p pos)
    (fst (detect_lines g (board (placed g s p pos))))
    (snd (detect_lines g (board (placed g s p pos)))) = Ret s2 ->
  exists o s', make_move fuel rnd g s p pos = Ret (o, s').
Proof.
  intros Hf Hg Hh Hv Hst.
  rewrite (make_move_accepted fuel rnd g s p pos Hg Hh Hv).
  cbv zeta. rewrite Hst. cbn [bind].
  pose proof (transition_board g s p pos s2 Hst) as Hb.
  cbn [current_pieces set_current_pieces].
  destruct (remove_first p (current_pieces s2)) as [|q qs].
  - destruct (is_guranteed_valid_moves g).
    + destruct (guaranteed_deal_spec g (set_current_pieces s2 []) rnd fuel Hf)
        as (s4 & moves & b' & Hrun & _).
      { cbn [board set_current_pieces]. rewrite Hb.
        now apply next_board_has_empty. }
      rewrite Hrun. cbn [bind]. eauto.
    + cbn [bind]. eauto.
  - cbn [bind]. eauto.
Qed.

Lemma make_move_no_timeout (fuel : nat) (rnd : Random) (g : Config)
  (s : State) (p : Piece) (pos : Position) :
  (3 <= fuel)%nat ->
  (exists o s', make_move fuel rnd g s p pos = Ret (o, s'))
  \/ make_move fuel rnd g s p pos = Raise OverflowError
  \/ make_move fuel rnd g s p pos = Raise ValueError.
Proof.
  intros Hf. destruct (rejected_dec g s p pos) as [Hr|(Hg & Hh & Hv)].
  - left. destruct (make_move_rejected fuel rnd g s p pos Hr) as [msg H].
    eauto.
  - destruct (score_transition_cases (placed g s p pos)
                (fst (detect_lines g (board (placed g s p pos))))
                (snd (detect_lines g (board (placed g s p pos)))))
      as [[s2 Hst]|[Hst|Hst]].
    + left. eapply make_move_accepted_returns; eassumption.
    + right. left. rewrite (make_move_accepted fuel rnd g s p pos Hg Hh Hv).
      cbv zeta. now rewrite Hst.
    + right. right. rewrite (make_move_accepted fuel rnd g s p pos Hg Hh Hv).
      cbv zeta. now rewrite Hst.
Qed.

(** * Sessions *)

(** The states a session can be in: the one the constructor builds, and
    those [make_move] leads to. *)
Inductive reachable (g : Config) : State -> Prop :=
| reach_new (board_size : Z * Z) (rnd : Random) (s0 : State) :
    BlockBlast board_size (is_guranteed_valid_moves g) rnd = Ret (g, s0) ->
    reachable g s0
| reach_move (fuel : nat) (rnd : Random) (s : State) (p : Piece)
    (pos : Position) (o : Outcome) (s' : State) :
    reachable g s ->
    make_move fuel rnd g s p pos = Ret (o, s') ->
    reachable g s'.

(** Runs of calls to [make_move], accepted or refused. *)
Inductive steps (g : Config) : State -> State -> Prop :=
| steps_refl (s : State) : steps g s s
| steps_move (fuel : nat) (rnd : Random) (s s1 s' : State) (p : Piece)
    (pos : Position) (o : Outcome) :
    make_move fuel rnd g s p pos = Ret (o, s1) ->
    steps g s1 s' ->
    steps g s s'.

Lemma make_move_in_extent (fuel : nat) (rnd : Random) (g : Config)
  (s : State) (p : Piece) (pos : Position) (o : Outcome) (s' : State) :
  in_extent g (board s) ->
  make_move fuel rnd g s p pos = Ret (o, s') ->
  in_extent g (board s').
Proof.
  intros Hb H. apply make_move_inv in H.
  destruct H as [(_ & -> & _)|(Hg & Hh & Hv & Hrest)]; [assumption|].
  cbv zeta in Hrest. destruct Hrest as (Hb' & _). rewrite Hb'.
  now apply next_board_in_extent.
Qed.

Lemma new_session_state (board_size : Z * Z) (guar : bool) (rnd : Random)
  (g : Config) (s0 : State) :
  BlockBlast board_size guar rnd = Ret (g, s0) ->
  g = mkConfig (fst board_size) (snd board_size) guar
  /\ 0 <= width g <= 64 /\ height g <= 64
  /\ s0 = _deal_new_pieces rnd init_state.
Proof.
  unfold BlockBlast.
  destruct (Z.gtb_spec (fst board_size) 64); cbn [orb]; [discriminate|].
  destruct (Z.gtb_spec (snd board_size) 64); cbn [orb]; [discriminate|].
  destruct (Z.ltb_spec (fst board_size) 0); [discriminate|].
  intros Hret. inversion Hret; subst. cbn. repeat split; lia.
Qed.

Lemma reachable_in_extent (g : Config) (s : State) :
  reachable g s -> in_extent g (board s).
Proof.
  induction 1 as [bs rnd s0 Hnew|fuel rnd s p pos o s' Hr IH Hm].
  - apply new_session_state in Hnew. destruct Hnew as (_ & _ & _ & ->).
    intros i Hi. cbn in Hi. rewrite Z.bits_0 in Hi. discriminate.
  - eapply make_move_in_extent; eassumption.
Qed.

Lemma make_move_combo (fuel : nat) (rnd : Random) (g : Config)
  (s : State) (p : Piece) (pos : Position) (o : Outcome) (s' : State) :
  make_move fuel rnd g s p pos = Ret (o, s') ->
  match o with
  | Success _ _ n _ => combo s' = (if n >? 0 then combo s + 1 else combo s)
  | Error _ => combo s' = combo s
  end.
Proof.
  intros H. apply make_move_inv in H.
  destruct H as [(_ & -> & [msg ->])|(Hg & Hh & Hv & Hrest)]; [reflexivity|].
  cbv zeta in Hrest. destruct Hrest as (_ & -> & Hc & _). exact Hc.
Qed.

Lemma steps_combo (g : Config) (s s' : State) :
  steps g s s' -> combo s <= combo s'.
Proof.
  induction 1 as [s|fuel rnd s s1 s' p pos o Hm _ IH]; [lia|].
  apply make_move_combo in Hm. destruct o as [msg|b' sc n over].
  - lia.
  - destruct (n >? 0); lia.
Qed.

(** * [try_move] is a simulation *)

Lemma try_move_state (g : Config) (s : State) (b : Z) (p : Piece)
  (pos : Position) : snd (try_move g s b p pos) = s.
Proof.
  destruct (is_valid_move g b p pos) eqn:Hv.
  - now rewrite try_move_valid.
  - now rewrite try_move_invalid.
Qed.

(** An outcome without its terminal flag. *)
Definition forget_over (o : Outcome) : Outcome :=
  match o with
  | Success b sc n _ => Success b sc n false
  | Error msg => Error msg
  end.

Lemma try_move_pure_part (g : Config) (s1 s2 : State) (b : Z) (p : Piece)
  (pos : Position) :
  forget_over (fst (try_move g s1 b p pos))
  = forget_over (fst (try_move g s2 b p pos)).
Proof.
  destruct (is_valid_move g b p pos) eqn:Hv.
  - now rewrite !try_move_valid.
  - now rewrite !try_move_invalid.
Qed.

(** * Concrete shuffles *)

Fixpoint insert_by (rank : Piece -> nat) (x : Piece) (l : list Piece)
  : list Piece :=
  match l with
  | [] => [x]
  | y :: t => if (rank x <=? rank y)%nat then x :: l
              else y :: insert_by rank x t
  end.

Definition sort_by (rank : Piece -> nat) (l : list Piece) : list Piece :=
  fold_right (insert_by rank) [] l.

(** The place of a name in a list; the length of the list if absent. *)
Fixpoint rank_in (order : list Piece) (p : Piece) : nat :=
  match order with
  | [] => O
  | q :: t => if piece_eqb p q then O else S (rank_in t p)
  end.

Lemma insert_by_perm (rank : Piece -> nat) (x : Piece) (l : list Piece) :
  Permutation (x :: l) (insert_by rank x l).
Proof.
  induction l as [|y t IH]; cbn [insert_by]; [reflexivity|].
  destruct (rank x <=? rank y)%nat; [reflexivity|].
  rewrite perm_swap. now apply perm_skip.
Qed.

Lemma sort_by_perm (rank : Piece -> nat) (l : list Piece) :
  Permutation l (sort_by rank l).
Proof.
  induction l as [|x t IH]; cbn; [constructor|].
  rewrite <- insert_by_perm. now apply perm_skip.
Qed.

(** The shuffle that moves the names of [order] to the front, in that
    order, and keeps the others as they were. *)
Definition shuffle_to (order : list Piece) : Shuffle :=
  mkShuffle (sort_by (rank_in order)) (sort_by_perm (rank_in order)).

Definition keep : Shuffle := shuffle_to [].

(** * The solver *)

(** One candidate of the search. *)
Definition Choice : Type := (nat * (Z * Z))%type.

(** [solves g b pieces cs ms]: the choices [cs] (index into the pieces
    still to place, position) place every piece of [pieces], each move
    legal on the board it meets; [ms] is the sequence as the solver
    reports it. *)
Inductive solves (g : Config) : Z -> list Piece -> list Choice -> list Move -> Prop :=
| solves_nil (b : Z) : solves g b [] [] []
| solves_cons (b : Z) (pieces : list Piece) (i : nat) (p : Piece)
    (pos : Position) (cs : list Choice) (ms : list Move) :
    nth_error pieces i = Some p ->
    is_valid_move g b p pos = true ->
    solves g (next_board g b p pos) (pop i pieces) cs ms ->
    solves g b pieces ((i, pos) :: cs) ((p, pos) :: ms).

(** Row-major order on positions: [y] first, then [x]. *)
Definition pos_lt (a b : Position) : Prop :=
  snd a < snd b \/ (snd a = snd b /\ fst a < fst b).

(** Exploration order on candidates: held-list index first, then
    row-major position. *)
Definition choice_lt (a b : Choice) : Prop :=
  (fst a < fst b)%nat \/ (fst a = fst b /\ pos_lt (snd a) (snd b)).

(** Lexicographic order on sequences of candidates. *)
Inductive lex_le : list Choice -> list Choice -> Prop :=
| lex_nil (l : list Choice) : lex_le [] l
| lex_lt (a b : Choice) (l1 l2 : list Choice) :
    choice_lt a b -> lex_le (a :: l1) (b :: l2)
| lex_eq (a : Choice) (l1 l2 : list Choice) :
    lex_le l1 l2 -> lex_le (a :: l1) (a :: l2).

(** One candidate of [recurse]: the sequences found below it. *)
Definition branch (g : Config) (s : State) (depth : nat) (b : Z)
  (pieces : list Piece) (i : nat) (p : Piece) (pos : Position)
  : list (list Move) :=
  if is_valid_move g b p pos then
    match fst (try_move g s b p pos) with
    | Success next_board _ _ _ =>
        map (fun placable_move => (p, pos) :: placable_move)
            (recurse g s depth next_board (pop i pieces))
    | Error _ => []
    end
  else [].

Lemma recurse_S (g : Config) (s : State) (n : nat) (b : Z) (pieces : list Piece) :
  pieces <> [] ->
  recurse g s (S n) b pieces
  = flat_map (fun ip => flat_map (branch g s n b pieces (fst ip) (snd ip))
                                 (positions g))
             (enumerate pieces).
Proof.
  destruct pieces as [|q qs]; [congruence|]. intros _.
  cbn [recurse]. apply flat_map_ext. intros [i p]. reflexivity.
Qed.

Lemma branch_valid (g : Config) (s : State) (n : nat) (b : Z)
  (pieces : list Piece) (i : nat) (p : Piece) (pos : Position) :
  is_valid_move g b p pos = true ->
  branch g s n b pieces i p pos
  = map (fun ms => (p, pos) :: ms)
        (recurse g s n (next_board g b p pos) (pop i pieces)).
Proof.
  intros Hv. unfold branch. rewrite Hv, (try_move_valid g s b p pos Hv).
  reflexivity.
Qed.

Lemma branch_invalid (g : Config) (s : State) (n : nat) (b : Z)
  (pieces : list Piece) (i : nat) (p : Piece) (pos : Position) :
  is_valid_move g b p pos = false -> branch g s n b pieces i p pos = [].
Proof. intros Hv. unfold branch. now rewrite Hv. Qed.

(** ** Lists *)

Lemma flat_map_cons_inv {A B : Type} (f : A -> list B) (l : list A) (x : B)
  (rest : list B) :
  flat_map f l = x :: rest ->
  exists l1 a l2 rest',
    l = l1 ++ a :: l2 /\ (forall a', In a' l1 -> f a' = [])
    /\ f a = x :: rest'.
Proof.
  induction l as [|a t IH]; cbn [flat_map]; [discriminate|].
  destruct (f a) as [|y ys] eqn:Hfa; cbn [app].
  - intros H. destruct (IH H) as (l1 & a0 & l2 & rest' & -> & Hnil & Hf).
    exists (a :: l1), a0, l2, rest'. repeat split; try assumption.
    intros a' [<-|Hin]; [assumption|now apply Hnil].
  - intros H. inversion H; subst. exists [], a, t, ys.
    repeat split; try assumption. intros a' [].
Qed.

Lemma flat_map_nonempty {A B : Type} (f : A -> list B) (l : list A) (a : A) :
  In a l -> f a <> [] -> flat_map f l <> [].
Proof.
  intros Hin Hf Hnil. apply Hf.
  induction l as [|a0 t IH]; [destruct Hin|].
  cbn [flat_map] in Hnil. apply app_eq_nil in Hnil. destruct Hnil as [H1 H2].
  destruct Hin as [<-|Hin]; [assumption|now apply IH].
Qed.

Lemma sorted_split {A : Type} (R : A -> A -> Prop) (l1 l2 : list A) (a b : A) :
  StronglySorted R (l1 ++ a :: l2) -> In b l2 -> R a b.
Proof.
  induction l1 as [|c l1 IH]; cbn [app]; intros Hs Hin.
  - apply StronglySorted_inv in Hs. destruct Hs as [_ Hall].
    rewrite Forall_forall in Hall. now apply Hall.
  - apply StronglySorted_inv in Hs. now apply IH.
Qed.

Lemma sorted_app {A : Type} (R : A -> A -> Prop) (l1 l2 : list A) :
  StronglySorted R l1 -> StronglySorted R l2 ->
  (forall a b, In a l1 -> In b l2 -> R a b) ->
  StronglySorted R (l1 ++ l2).
Proof.
  induction l1 as [|c l1 IH]; cbn [app]; intros H1 H2 H12; [assumption|].
  apply StronglySorted_inv in H1. destruct H1 as [H1 Hc].
  constructor.
  - apply IH; try assumption. intros a b Ha Hb. apply H12; [now right|assumption].
  - apply Forall_app. split; [assumption|].
    apply Forall_forall. intros b Hb. apply H12; [now left|assumption].
Qed.

Lemma sorted_map {A B : Type} (R : B -> B -> Prop) (f : A -> B) (l : list A) :
  StronglySorted (fun a b => R (f a) (f b)) l -> StronglySorted R (map f l).
Proof.
  induction 1 as [|a l Hs IH Hall]; cbn [map]; constructor; [assumption|].
  rewrite Forall_forall in *. intros b Hb. apply in_map_iff in Hb.
  destruct Hb as [a' [<- Ha']]. now apply Hall.
Qed.

Lemma sorted_seq (a n : nat) : StronglySorted lt (seq a n).
Proof.
  revert a. induction n as [|n IH]; intros a; cbn [seq]; constructor.
  - apply IH.
  - apply Forall_forall. intros b Hb. apply in_seq in Hb. lia.
Qed.

Lemma sorted_range (n : Z) : StronglySorted Z.lt (range n).
Proof.
  unfold range. apply sorted_map.
  eapply StronglySorted_ind with (R := lt) (l := seq 0 (Z.to_nat n)).
  - constructor.
  - intros a l Hs IH Hall. constructor; [assumption|].
    eapply Forall_impl; [|exact Hall]. cbn beta. intros b Hb. lia.
  - apply sorted_seq.
Qed.

Lemma sorted_row (y : Z) (l : list Z) :
  StronglySorted Z.lt l ->
  StronglySorted (fun a b : Z => pos_lt (a, y) (b, y)) l.
Proof.
  induction 1 as [|x xs Hxs IHx Hx]; constructor; [assumption|].
  eapply Forall_impl; [|exact Hx]. cbn beta. intros x' Hx'.
  right. cbn [fst snd]. lia.
Qed.

Lemma sorted_positions (g : Config) : StronglySorted pos_lt (positions g).
Proof.
  unfold positions.
  pose proof (sorted_range (height g)) as Hs.
  induction Hs as [|y l Hs IH Hall]; cbn [flat_map]; [constructor|].
  apply sorted_app.
  - apply sorted_map, sorted_row, sorted_range.
  - exact IH.
  - intros a b Ha Hb. apply in_map_iff in Ha. destruct Ha as [x [<- _]].
    apply in_flat_map in Hb. destruct Hb as [y' [Hy' Hb]].
    apply in_map_iff in Hb. destruct Hb as [x' [<- _]].
    rewrite Forall_forall in Hall. left. cbn [snd]. now apply Hall.
Qed.

Lemma in_enumerate_from {A : Type} (l : list A) :
  forall (k i : nat) (a : A),
    In (i, a) (enumerate_from k l)
    <-> (k <= i)%nat /\ nth_error l (i - k) = Some a.
Proof.
  induction l as [|a0 t IH]; intros k i a; cbn [enumerate_from].
  - split; [intros []|]. intros [_ H]. now destruct (i - k)%nat.
  - cbn [In]. rewrite IH. split.
    + intros [Heq|[Hle Hn]].
      * inversion Heq; subst. rewrite Nat.sub_diag. split; [lia|reflexivity].
      * split; [lia|]. replace (i - k)%nat with (S (i - S k)) by lia. exact Hn.
    + intros [Hle Hn]. destruct (Nat.eq_dec i k) as [->|Hne].
      * rewrite Nat.sub_diag in Hn. cbn in Hn. inversion Hn. now left.
      * right. split; [lia|].
        replace (i - k)%nat with (S (i - S k)) in Hn by lia. exact Hn.
Qed.

Lemma sorted_enumerate_from {A : Type} (l : list A) (k : nat) :
  StronglySorted (fun a b : nat * A => (fst a < fst b)%nat) (enumerate_from k l).
Proof.
  revert k. induction l as [|a t IH]; intros k; cbn [enumerate_from];
    constructor; [apply IH|].
  apply Forall_forall. intros [i b] Hin. apply in_enumerate_from in Hin.
  cbn [fst]. lia.
Qed.

Lemma length_pop {A : Type} (l : list A) :
  forall i a, nth_error l i = Some a -> S (List.length (pop i l)) = List.length l.
Proof.
  induction l as [|a0 t IH]; intros i a H.
  - now destruct i.
  - destruct i as [|j]; cbn [pop List.length]; [reflexivity|].
    cbn [nth_error] in H. now rewrite (IH j a H).
Qed.

Lemma recurse_nil (g : Config) (s : State) (n : nat) (b : Z) :
  recurse g s n b [] = [[]].
Proof. destruct n; reflexivity. Qed.

Lemma solves_nonempty (g : Config) (b : Z) (pieces : list Piece)
  (cs : list Choice) (ms : list Move) :
  solves g b pieces cs ms -> pieces <> [] ->
  exists i p pos cs1 ms1,
    cs = (i, pos) :: cs1 /\ ms = (p, pos) :: ms1
    /\ nth_error pieces i = Some p /\ is_valid_move g b p pos = true
    /\ solves g (next_board g b p pos) (pop i pieces) cs1 ms1.
Proof.
  intros H Hne. destruct H as [b|b pieces i p pos cs ms Hn Hv Hs];
    [congruence|].
  exists i, p, pos, cs, ms. repeat split; assumption.
Qed.

(** Completeness: a placement of all the pieces makes the search yield. *)
Lemma recurse_complete (g : Config) (s : State) (b : Z) (pieces : list Piece)
  (cs : list Choice) (ms : list Move) :
  solves g b pieces cs ms ->
  forall n, (List.length pieces <= n)%nat -> recurse g s n b pieces <> [].
Proof.
  induction 1 as [b|b pieces i p pos cs ms Hn Hv Hs IH]; intros n Hlen.
  - rewrite recurse_nil. discriminate.
  - pose proof (length_pop pieces i p Hn) as Hpop.
    destruct n as [|n]; [lia|].
    rewrite recurse_S by (intros ->; destruct i; discriminate).
    apply (flat_map_nonempty _ _ (i, p)).
    + apply in_enumerate_from. rewrite Nat.sub_0_r. split; [lia|assumption].
    + cbn [fst snd]. apply (flat_map_nonempty _ _ pos).
      * eapply valid_in_positions; eassumption.
      * rewrite branch_valid by assumption.
        specialize (IH n ltac:(lia)).
        destruct (recurse g s n (next_board g b p pos) (pop i pieces));
          [congruence|discriminate].
Qed.

(** The first sequence yielded is a placement, and the least one in the
    exploration order. *)
Lemma recurse_first (g : Config) (s : State) (n : nat) :
  forall (b : Z) (pieces : list Piece) (ms0 : list Move)
         (rest : list (list Move)),
    (List.length pieces <= n)%nat ->
    recurse g s n b pieces = ms0 :: rest ->
    exists cs0,
      solves g b pieces cs0 ms0
      /\ forall cs' ms', solves g b pieces cs' ms' -> lex_le cs0 cs'.
Proof.
  induction n as [|n IH]; intros b pieces ms0 rest Hlen Hrec.
  - destruct pieces as [|q qs]; [|cbn in Hlen; lia].
    cbn in Hrec. inversion Hrec; subst. exists []. split; [constructor|].
    intros cs' ms' _. constructor.
  - destruct pieces as [|q qs].
    { cbn in Hrec. inversion Hrec; subst. exists []. split; [constructor|].
      intros cs' ms' _. constructor. }
    assert (Hne : q :: qs <> []) by discriminate.
    rewrite recurse_S in Hrec by assumption.
    apply flat_map_cons_inv in Hrec.
    destruct Hrec as (E1 & [i p] & E2 & rest1 & HE & HE1 & Hin).
    cbn [fst snd] in Hin. apply flat_map_cons_inv in Hin.
    destruct Hin as (P1 & pos & P2 & rest2 & HP & HP1 & Hbr).
    assert (Hip : In (i, p) (enumerate (q :: qs)))
      by (rewrite HE; apply in_or_app; right; now left).
    apply in_enumerate_from in Hip. rewrite Nat.sub_0_r in Hip.
    destruct Hip as [_ Hnth].
    assert (Hv : is_valid_move g b p pos = true).
    { destruct (is_valid_move g b p pos) eqn:E; [reflexivity|].
      rewrite branch_invalid in Hbr by assumption. discriminate. }
    rewrite branch_valid in Hbr by assumption.
    pose proof (length_pop _ _ _ Hnth) as Hpop.
    destruct (recurse g s n (next_board g b p pos) (pop i (q :: qs)))
      as [|ms1 rest3] eqn:Hsub; [discriminate|].
    cbn [map] in Hbr. inversion Hbr; subst ms0 rest2; clear Hbr.
    assert (Hl1 : (List.length (pop i (q :: qs)) <= n)%nat) by lia.
    destruct (IH _ _ _ _ Hl1 Hsub) as (cs1 & Hs1 & Hmin1).
    exists ((i, pos) :: cs1). split; [now constructor|].
    intros cs' ms' Hs'.
    destruct (solves_nonempty _ _ _ _ _ Hs' Hne)
      as (i' & p' & pos' & cs1' & ms1' & -> & -> & Hnth' & Hv' & Hs1').
    pose proof (length_pop _ _ _ Hnth') as Hpop'.
    assert (Hbr' : branch g s n b (q :: qs) i' p' pos' <> []).
    { rewrite branch_valid by assumption.
      pose proof (recurse_complete g s _ _ _ _ Hs1' n ltac:(lia)) as Hc.
      destruct (recurse g s n (next_board g b p' pos') (pop i' (q :: qs)));
        [congruence|discriminate]. }
    assert (Hpos' : In pos' (positions g))
      by (eapply valid_in_positions; eassumption).
    assert (Hip' : In (i', p') (enumerate (q :: qs))).
    { apply in_enumerate_from. rewrite Nat.sub_0_r. split; [lia|assumption]. }
    rewrite HE in Hip'. apply in_app_or in Hip'.
    destruct Hip' as [Hin1|[Heq|Hin2]].
    + (* an earlier piece: it yielded nothing *)
      exfalso. specialize (HE1 _ Hin1). cbn [fst snd] in HE1.
      revert HE1. now apply (flat_map_nonempty _ _ pos').
    + inversion Heq; subst i' p'; clear Heq.
      rewrite HP in Hpos'. apply in_app_or in Hpos'.
      destruct Hpos' as [Hq1|[Hq|Hq2]].
      * exfalso. apply Hbr'. now apply HP1.
      * subst pos'. apply lex_eq. eapply Hmin1. eassumption.
      * apply lex_lt. right. split; [reflexivity|]. cbn [snd].
        pose proof (sorted_positions g) as Hsp. rewrite HP in Hsp.
        exact (sorted_split _ _ _ _ _ Hsp Hq2).
    + apply lex_lt. left. cbn [fst].
      pose proof (sorted_enumerate_from (q :: qs) 0) as Hse.
      fold (enumerate (q :: qs)) in Hse. rewrite HE in Hse.
      exact (sorted_split _ _ _ _ _ Hse Hin2).
Qed.

(** The moves of a placement are legal in sequence. *)
Lemma solves_plays (g : Config) (b : Z) (pieces : list Piece)
  (cs : list Choice) (ms : list Move) :
  solves g b pieces cs ms -> exists b', plays g b ms b'.
Proof.
  induction 1 as [b|b pieces i p pos cs ms Hn Hv Hs [b' IH]].
  - exists b. constructor.
  - exists b'. now constructor.
Qed.

Lemma pop_perm {A : Type} (l : list A) :
  forall i a, nth_error l i = Some a -> Permutation l (a :: pop i l).
Proof.
  induction l as [|a0 t IH]; intros i a H; [now destruct i|].
  destruct i as [|j]; cbn [pop].
  - cbn in H. inversion H. reflexivity.
  - cbn [nth_error] in H. rewrite perm_swap. apply perm_skip. now apply IH.
Qed.

(** They use each held piece exactly once. *)
Lemma solves_perm (g : Config) (b : Z) (pieces : list Piece)
  (cs : list Choice) (ms : list Move) :
  solves g b pieces cs ms -> Permutation pieces (map fst ms).
Proof.
  induction 1 as [b|b pieces i p pos cs ms Hn Hv Hs IH]; cbn [map fst].
  - constructor.
  - rewrite (pop_perm _ _ _ Hn). now apply perm_skip.
Qed.

Theorem get_solution_search (g : Config) (s : State) :
  (forall ms, get_solution g s = Some ms ->
     exists cs, solves g (board s) (current_pieces s) cs ms
       /\ forall cs' ms', solves g (board s) (current_pieces s) cs' ms' ->
                          lex_le cs cs')
  /\ (get_solution g s = None <->
      forall cs ms, ~ solves g (board s) (current_pieces s) cs ms).
Proof.
  unfold get_solution.
  destruct (recurse g s (List.length (current_pieces s)) (board s)
              (current_pieces s)) as [|ms0 rest] eqn:Hrec.
  - split; [discriminate|]. split; [|reflexivity].
    intros _ cs ms Hs.
    exact (recurse_complete g s _ _ _ _ Hs _ (Nat.le_refl _) Hrec).
  - destruct (recurse_first g s _ _ _ _ _ (Nat.le_refl _) Hrec) as (cs0 & Hs0 & Hmin).
    split.
    + intros ms H. inversion H; subst. exists cs0. split; assumption.
    + split; [discriminate|]. intros H. exfalso. exact (H _ _ Hs0).
Qed.

(** * Small facts used below *)

Lemma row_index_cases (r : Z) :
  0 <= r < 8 ->
  r = 0 \/ r = 1 \/ r = 2 \/ r = 3 \/ r = 4 \/ r = 5 \/ r = 6 \/ r = 7.
Proof. lia. Qed.

Lemma not_stuck (g : Config) (s : State) (p : Piece) (pos : Position) :
  In p (current_pieces s) -> is_valid_move g (board s) p pos = true ->
  dict_is_empty (get_possible_moves g s) = false.
Proof.
  intros Hin Hv. destruct (dict_is_empty (get_possible_moves g s)) eqn:E;
    [|reflexivity].
  rewrite (proj1 (possible_moves_empty g s) E p pos Hin) in Hv. discriminate.
Qed.

Ltac simpl_state :=
  cbn [board score combo not_combo_counter score_increment
       score_incremental_acceleration game_over current_pieces
       set_board set_score set_combo set_not_combo_counter
       set_score_increment set_score_incremental_acceleration
       set_game_over set_current_pieces] in *.

(** * Fixtures *)

(** Calls to [make_move] one after the other, with the outcomes. *)
Fixpoint play (fuel : nat) (rnd : Random) (g : Config) (s : State)
  (moves : list Move) : run (list Outcome * State) :=
  match moves with
  | [] => Ret ([], s)
  | (p, pos) :: rest =>
      '(o, s1) <- make_move fuel rnd g s p pos ;;
      '(os, s') <- play fuel rnd g s1 rest ;;
      Ret (o :: os, s')
  end.

(** The default board. *)
Definition g8 : Config := mkConfig 8 8 true.

Definition keep_all : Random := mkRandom keep keep keep.

(** The names [ps] can be placed one after the other, in this order. *)
Definition placeable_in_order (g : Config) (b : Z) (ps : list Piece) : Prop :=
  exists moves b', map fst moves = ps /\ plays g b moves b'.

Lemma no_valid_position (g : Config) (b : Z) (p : Piece) :
  forallb (fun q => negb (is_valid_move g b p q)) (positions g) = true ->
  forall q, is_valid_move g b p q = false.
Proof.
  intros H q. destruct (is_valid_move g b p q) eqn:Hv; [|reflexivity].
  rewrite forallb_forall in H.
  specialize (H q (valid_in_positions g b p q Hv)). rewrite Hv in H.
  discriminate.
Qed.

Lemma valid_position_listed (g : Config) (b : Z) (p : Piece) (q : Position) :
  is_valid_move g b p q = true ->
  In q (filter (fun q => is_valid_move g b p q) (positions g)).
Proof.
  intros Hv. apply filter_In. split; [|assumption].
  eapply valid_in_positions; eassumption.
Qed.

(** ** The deal whose order cannot be played *)

(** Row 0 has its three leftmost cells free; every other row is full but
    for one or two isolated cells. No line is full. *)
Definition tight_board : Z := 9213097916199008248.

Definition tight_session : State :=
  mkState tight_board 0 (-1) 3 0%float 0%float false [].

Definition tight_random : Random :=
  mkRandom keep (shuffle_to [Pc.line3h; Pc.line5h; Pc.line2h])
           (shuffle_to [Pc.line2h; Pc.line3h; Pc.line5h]).

(** ** The session in which the counter has run down *)

Definition rundown_random : Random :=
  mkRandom (shuffle_to [Pc.line5h; Pc.line3h; Pc.sq1])
           (shuffle_to [Pc.line5h; Pc.line3h; Pc.sq2]) keep.

Definition rundown_moves : list Move :=
  [(Pc.line5h, (0, 0)); (Pc.line3h, (5, 0)); (Pc.sq1, (0, 0));
   (Pc.sq2, (6, 6)); (Pc.line5h, (0, 3))].

(** ** Two fresh sessions on a 2 by 2 board *)

Definition stuck_random : Random :=
  mkRandom (shuffle_to [Pc.sq3; Pc.line3h; Pc.line3v]) keep keep.

(** ** Three bars in hand *)

Definition bars_session : State :=
  mkState 0 0 (-1) 3 0%float 0%float false
          [Pc.line4h; Pc.line4h; Pc.line4h].

(** The state the five moves lead to. *)
Definition rundown_state : State :=
  mkState 13889101251330703361 52 0 0 BASE_SCORE_ACCELERATION
          BASE_SCORE_ACCELERATION false [Pc.line3h].

(** * The claims *)

(** C1 (the code departs from it). The claim has the combo reset test read
    the counter as it was before the assignment [not_combo_counter = 3].
    In the code the test follows the assignment. Here a session built by
    the constructor plays five moves and reaches counter 0 with combo 0;
    the sixth move clears one line, so the counter before the assignment
    plus the lines cleared is 1; combo nevertheless becomes 1 and the
    increment becomes twice the base, where the claim gives combo 0 and
    the base. *)
Theorem combo_reset_reads_counter_after_reset :
  ('(g, s0) <- BlockBlast (8, 8) true rundown_random ;;
   '(os, s5) <- play 3 rundown_random g s0 rundown_moves ;;
   Ret (g, s5)) = Ret (g8, rundown_state)
  /\ (not_combo_counter rundown_state + 1 <=? 1) = true
  /\ combo rundown_state = 0
  /\ make_move 3 rundown_random g8 rundown_state Pc.line3h (5, 3)
     = Ret (Success 13889101250810609665 (Some 123) 1 false,
            mkState 13889101250810609665 123 1 3
              (BASE_SCORE_ACCELERATION + BASE_SCORE_ACCELERATION)%float
              BASE_SCORE_ACCELERATION false
              [Pc.line5h; Pc.line3h; Pc.sq2]).
Proof.
  split; [vm_compute; reflexivity|].
  split; [reflexivity|]. split; [reflexivity|].
  vm_compute; reflexivity.
Qed.

(** C2, as amended. On every board on which some catalog piece has a legal
    placement, the guaranteed deal returns within three scans of the
    catalog, with exactly three names in the hand; the hand is a
    rearrangement of a sequence of names that can be placed one after the
    other on the board, lines cleared after each. Nothing else in the
    session changes. *)
Theorem guaranteed_deal_some_order (g : Config) (s : State) (rnd : Random)
  (fuel : nat) :
  (3 <= fuel)%nat ->
  (exists p pos, is_valid_move g (board s) p pos = true) ->
  exists s' moves b',
    _guaranteed_deal_new_pieces fuel rnd g s = Ret s'
    /\ List.length (current_pieces s') = 3%nat
    /\ Permutation (map fst moves) (current_pieces s')
    /\ plays g (board s) moves b'
    /\ s' = set_current_pieces s (current_pieces s').
Proof.
  intros Hf (p & pos & Hv). apply guaranteed_deal_spec; [assumption|].
  eapply valid_has_empty; eassumption.
Qed.

Lemma guaranteed_deal_some_order_witness :
  exists s' moves b',
    _guaranteed_deal_new_pieces 3 tight_random g8 tight_session = Ret s'
    /\ List.length (current_pieces s') = 3%nat
    /\ Permutation (map fst moves) (current_pieces s')
    /\ plays g8 (board tight_session) moves b'
    /\ s' = set_current_pieces tight_session (current_pieces s').
Proof.
  apply (guaranteed_deal_some_order g8 tight_session tight_random 3).
  - lia.
  - exists Pc.line2h, (0, 0). vm_compute. reflexivity.
Defined.

(** C2, as stated, fails. On [tight_board] the bar of two fits (only in
    row 0), the deal returns the hand [line2h; line3h; line5h], and
    wherever the bar of two is placed neither of the other two names has a
    legal position afterwards: the returned order cannot be played. *)
Lemma guaranteed_deal_order_counterexample :
  (exists p pos, is_valid_move g8 tight_board p pos = true)
  /\ _guaranteed_deal_new_pieces 3 tight_random g8 tight_session
     = Ret (set_current_pieces tight_session
              [Pc.line2h; Pc.line3h; Pc.line5h])
  /\ (forall pos, is_valid_move g8 tight_board Pc.line2h pos = true ->
      forall q,
        is_valid_move g8 (next_board g8 tight_board Pc.line2h pos)
          Pc.line3h q = false
        /\ is_valid_move g8 (next_board g8 tight_board Pc.line2h pos)
             Pc.line5h q = false)
  /\ ~ placeable_in_order g8 tight_board [Pc.line2h; Pc.line3h; Pc.line5h].
Proof.
  assert (Hstuck : forall pos,
             is_valid_move g8 tight_board Pc.line2h pos = true ->
             forall q,
               is_valid_move g8 (next_board g8 tight_board Pc.line2h pos)
                 Pc.line3h q = false
               /\ is_valid_move g8 (next_board g8 tight_board Pc.line2h pos)
                    Pc.line5h q = false).
  { intros pos Hv q. apply valid_position_listed in Hv.
    vm_compute in Hv. destruct Hv as [<-|[<-|[]]];
      split; apply no_valid_position; vm_compute; reflexivity. }
  split; [exists Pc.line2h, (0, 0); vm_compute; reflexivity|].
  split; [vm_compute; reflexivity|].
  split; [exact Hstuck|].
  intros (moves & b' & Hmap & Hplays).
  destruct moves as [|[p pos] [|[p2 pos2] rest]]; try discriminate.
  cbn [map fst] in Hmap. injection Hmap as Hp Hp2 _. subst p p2.
  inversion Hplays as [|b p pos0 rest0 b0 Hv Hrest]; subst.
  inversion Hrest as [|b p pos0 rest0 b0 Hv2 _]; subst.
  destruct (Hstuck pos Hv pos2) as [Hno _]. congruence.
Qed.

(** C3 (the code departs from it). [try_move] never writes to the session,
    and the status, board and line count it returns depend on its
    arguments only; its [game_over] field does not: it is computed from the
    live board and hand. Two sessions fresh from the constructor on a 2 by
    2 board, differing in the hand dealt, answer the same call
    [try_move(0, 'sq1', (0, 0))] with [game_over] true and false. *)
Theorem try_move_game_over_reads_session :
  (forall g s b p pos, snd (try_move g s b p pos) = s)
  /\ (forall g s1 s2 b p pos,
        forget_over (fst (try_move g s1 b p pos))
        = forget_over (fst (try_move g s2 b p pos)))
  /\ exists g sA sB,
       BlockBlast (2, 2) true stuck_random = Ret (g, sA)
       /\ BlockBlast (2, 2) true keep_all = Ret (g, sB)
       /\ sA = set_current_pieces sB (current_pieces sA)
       /\ fst (try_move g sA 0 Pc.sq1 (0, 0)) = Success 1 None 0 true
       /\ fst (try_move g sB 0 Pc.sq1 (0, 0)) = Success 1 None 0 false.
Proof.
  split; [exact try_move_state|]. split; [exact try_move_pure_part|].
  exists (mkConfig 2 2 true),
    (mkState 0 0 (-1) 3 0%float 0%float false [Pc.sq3; Pc.line3h; Pc.line3v]),
    (mkState 0 0 (-1) 3 0%float 0%float false [Pc.sq1; Pc.sq2; Pc.sq3]).
  repeat split; vm_compute; reflexivity.
Qed.

(** C5. A line is counted and cleared exactly when [board & mask == mask]
    holds on the board as it stands after placement; every row and column
    mask is tested against that same board, the union of the full ones is
    removed at once, and the count is the number of full rows plus the
    number of full columns. A cell survives exactly when it was occupied
    and neither its row nor its column was full. [make_move] reports this
    count and stores this board. *)
Theorem line_detection_simultaneous (g : Config) :
  (forall b,
     detect_and_clear_lines g b
     = (Z.land b
          (Z.lnot (fold_left Z.lor
                     (filter (fun m => Z.land b m =? m)
                             (row_masks g ++ col_masks g)) 0)),
        Z.of_nat (List.length (filter (fun m => Z.land b m =? m)
                                      (row_masks g)))
        + Z.of_nat (List.length (filter (fun m => Z.land b m =? m)
                                        (col_masks g)))))
  /\ (forall b x y,
        0 <= x < width g -> 0 <= y < height g ->
        Z.testbit (fst (detect_and_clear_lines g b)) (y * width g + x)
        = Z.testbit b (y * width g + x)
          && negb (Z.land b (row_mask g y) =? row_mask g y)
          && negb (Z.land b (col_mask g x) =? col_mask g x))
  /\ (forall fuel rnd s p pos b' sc n over s',
        make_move fuel rnd g s p pos = Ret (Success b' sc n over, s') ->
        (b', n) = detect_and_clear_lines g
                    (Z.lor (board s) (get_piece_mask g p pos))
        /\ board s' = b').
Proof.
  split; [exact (detect_and_clear_spec g)|].
  split; [exact (cleared_cell g)|].
  intros fuel rnd s p pos b' sc n over s' H.
  apply make_move_inv in H.
  destruct H as [(_ & _ & [msg Hmsg])|(_ & _ & _ & Hrest)]; [discriminate|].
  cbv zeta in Hrest. destruct Hrest as (Hb & Ho & _).
  inversion Ho; subst. split; [|reflexivity].
  rewrite Hb. now destruct (detect_and_clear_lines g _).
Qed.

(** A full row crossing a full column counts as two lines, and both go. *)
Lemma line_detection_simultaneous_witness :
  detect_and_clear_lines g8 (Z.lor 255 72340172838076673) = (0, 2).
Proof.
  rewrite (proj1 (line_detection_simultaneous g8)). vm_compute. reflexivity.
Defined.

(** C6. [make_move] returns an error result exactly when the session is
    over, or the piece is not in the hand, or the placement is not valid on
    the live board; and a call that returns an error result leaves the
    session as it was. *)
Theorem make_move_rejects_exactly (fuel : nat) (rnd : Random) (g : Config)
  (s : State) (p : Piece) (pos : Position) :
  ((game_over s = true \/ ~ In p (current_pieces s)
    \/ is_valid_move g (board s) p pos = false)
   <-> exists msg s', make_move fuel rnd g s p pos = Ret (Error msg, s'))
  /\ (forall msg s',
        make_move fuel rnd g s p pos = Ret (Error msg, s') -> s' = s).
Proof.
  split; [split|].
  - intros Hr. destruct (make_move_rejected fuel rnd g s p pos Hr) as [msg H].
    eauto.
  - intros (msg & s' & H). apply make_move_inv in H.
    destruct H as [(Hr & _)|(_ & _ & _ & Hrest)]; [exact Hr|].
    cbv zeta in Hrest. destruct Hrest as (_ & Ho & _). discriminate.
  - intros msg s' H. apply make_move_inv in H.
    destruct H as [(_ & Hs & _)|(_ & _ & _ & Hrest)]; [exact Hs|].
    cbv zeta in Hrest. destruct Hrest as (_ & Ho & _). discriminate.
Qed.

(** C7. In every state of a session, from the one the constructor builds
    through any number of calls to [make_move], each set bit of the board
    has an index in [0, width*height). *)
Theorem board_stays_in_extent (g : Config) (s : State) :
  reachable g s ->
  forall i, Z.testbit (board s) i = true -> 0 <= i < width g * height g.
Proof. exact (reachable_in_extent g s). Qed.

Lemma board_stays_in_extent_witness : 0 <= 3 < width g8 * height g8.
Proof.
  apply (board_stays_in_extent g8
           (mkState 15 4 (-1) 2 0%float 0%float false [Pc.sq1; Pc.sq2])).
  - apply (reach_move g8 3 keep_all
             (mkState 0 0 (-1) 3 0%float 0%float false
                [Pc.line4h; Pc.sq1; Pc.sq2])
             Pc.line4h (0, 0) (Success 15 (Some 4) 0 false)).
    + apply (reach_new g8 (8, 8)
               (mkRandom (shuffle_to [Pc.line4h; Pc.sq1; Pc.sq2]) keep keep)).
      vm_compute. reflexivity.
    + vm_compute. reflexivity.
  - vm_compute. reflexivity.
Defined.

(** C8. On a board with at least one row and one column, a second pass of
    line detection and clearing finds no full line and leaves the board as
    the first pass made it. *)
Theorem detect_and_clear_idempotent (g : Config) (b : Z) :
  1 <= width g -> 1 <= height g ->
  detect_and_clear_lines g (fst (detect_and_clear_lines g b))
  = (fst (detect_and_clear_lines g b), 0).
Proof. exact (detect_and_clear_twice g b). Qed.

Lemma detect_and_clear_idempotent_witness :
  detect_and_clear_lines g8 (fst (detect_and_clear_lines g8 (Z.lor 255 1024)))
  = (fst (detect_and_clear_lines g8 (Z.lor 255 1024)), 0).
Proof.
  apply (detect_and_clear_idempotent g8 (Z.lor 255 1024)); cbn; lia.
Defined.

(** C9. When [get_solution] returns a sequence, the sequence places every
    held piece, each move legal on the board left by the moves before it
    (lines cleared as [try_move] does), and it is the first such sequence
    in the order of exploration: held-list index first, then row-major
    position, move by move. It returns nothing exactly when no choice of
    order and positions places all the held pieces. *)
Theorem get_solution_first_or_none (g : Config) (s : State) :
  (forall ms, get_solution g s = Some ms ->
     exists cs, solves g (board s) (current_pieces s) cs ms
       /\ forall cs' ms', solves g (board s) (current_pieces s) cs' ms' ->
                          lex_le cs cs')
  /\ (get_solution g s = None <->
      forall cs ms, ~ solves g (board s) (current_pieces s) cs ms).
Proof. exact (get_solution_search g s). Qed.

(** C10. The reset test is false whenever a line was cleared, the scoring
    transition equals the transition with the reset left out, combo grows
    by one on every accepted move that clears a line and is unchanged on
    any other call, and so along any run of calls combo never decreases
    and, once 0 or more, never is -1 again. *)
Theorem combo_never_resets (g : Config) :
  (forall s n, 0 < n ->
     (not_combo_counter (set_not_combo_counter s 3) + n <=? 1) = false)
  /\ (forall s n c, score_transition s n c = score_transition_no_reset s n c)
  /\ (forall fuel rnd s p pos o s',
        make_move fuel rnd g s p pos = Ret (o, s') ->
        match o with
        | Success _ _ n _ =>
            combo s' = (if n >? 0 then combo s + 1 else combo s)
        | Error _ => combo s' = combo s
        end)
  /\ (forall s s', steps g s s' ->
        combo s <= combo s' /\ (0 <= combo s -> combo s' <> -1)).
Proof.
  split; [exact reset_test_false|].
  split; [exact score_transition_reset_dead|].
  split; [intros; eapply make_move_combo; eassumption|].
  intros s s' H. apply steps_combo in H. split; lia.
Qed.

Lemma combo_never_resets_witness :
  combo rundown_state
  <= combo (mkState 13889101250810609665 123 1 3
              (BASE_SCORE_ACCELERATION + BASE_SCORE_ACCELERATION)%float
              BASE_SCORE_ACCELERATION false [Pc.line5h; Pc.line3h; Pc.sq2]).
Proof.
  apply (proj2 (proj2 (proj2 (combo_never_resets g8)))).
  eapply (steps_move g8 3 rundown_random rundown_state _ _ Pc.line3h (5, 3)).
  - vm_compute. reflexivity.
  - apply steps_refl.
Defined.

(** * Further properties of the engine and the solver *)

(** ** The catalog and the constructor *)

Lemma catalog_nodup : NoDup all_piece_names.
Proof.
  unfold all_piece_names.
  repeat (constructor; [cbn; intuition discriminate|]). constructor.
Qed.

Lemma catalog_complete (p : Piece) : In p all_piece_names.
Proof. destruct p; cbn; tauto. Qed.

Lemma in_firstn {A : Type} (a : A) (l : list A) :
  forall n, In a (firstn n l) -> In a l.
Proof.
  induction l as [|b l IH]; intros [|n]; cbn; try tauto.
  intros [H|H]; [now left|right; eauto].
Qed.

Lemma firstn_nodup {A : Type} (l : list A) :
  NoDup l -> forall n, NoDup (firstn n l).
Proof.
  induction 1 as [|a l Hna Hnd IH]; intros [|n]; cbn; try constructor.
  - intros Hin. apply Hna. eapply in_firstn. exact Hin.
  - apply IH.
Qed.

Lemma sample_three (sh : Shuffle) :
  List.length (firstn 3 (shuffled sh all_piece_names)) = 3%nat
  /\ NoDup (firstn 3 (shuffled sh all_piece_names))
  /\ incl (firstn 3 (shuffled sh all_piece_names)) all_piece_names.
Proof.
  pose proof (shuffled_perm sh all_piece_names) as Hp.
  split; [|split].
  - rewrite length_firstn, <- (Permutation_length Hp). reflexivity.
  - apply firstn_nodup. eapply Permutation_NoDup; [exact Hp|].
    exact catalog_nodup.
  - intros p _. apply catalog_complete.
Qed.

(** X1. The constructor raises [ValueError] exactly when the width is
    negative or a dimension exceeds 64, and nothing else goes wrong; on
    any other size it answers with the geometry as given and a session
    with an empty board, score 0, combo -1, counter 3, not over, holding
    three pairwise distinct names of the catalog. *)
Theorem constructor_builds_fresh_session (board_size : Z * Z) (guar : bool)
  (rnd : Random) :
  (BlockBlast board_size guar rnd = Raise ValueError
   <-> ~ (0 <= fst board_size <= 64 /\ snd board_size <= 64))
  /\ (0 <= fst board_size <= 64 /\ snd board_size <= 64 ->
      exists hand,
        BlockBlast board_size guar rnd
        = Ret (mkConfig (fst board_size) (snd board_size) guar,
               mkState 0 0 (-1) 3 0%float 0%float false hand)
        /\ List.length hand = 3%nat /\ NoDup hand
        /\ incl hand all_piece_names).
Proof.
  unfold BlockBlast.
  destruct (Z.gtb_spec (fst board_size) 64) as [H1|H1]; cbn [orb].
  { split; [split; [lia|reflexivity]|lia]. }
  destruct (Z.gtb_spec (snd board_size) 64) as [H2|H2].
  { split; [split; [lia|reflexivity]|lia]. }
  destruct (Z.ltb_spec (fst board_size) 0) as [H3|H3].
  { split; [split; [lia|reflexivity]|lia]. }
  split; [split; [discriminate|lia]|].
  intros _. exists (firstn 3 (shuffled (sample_order rnd) all_piece_names)).
  split; [reflexivity|]. apply sample_three.
Qed.

Lemma constructor_builds_fresh_session_witness :
  exists hand,
    BlockBlast (8, 8) true keep_all
    = Ret (mkConfig 8 8 true, mkState 0 0 (-1) 3 0%float 0%float false hand)
    /\ List.length hand = 3%nat /\ NoDup hand
    /\ incl hand all_piece_names.
Proof.
  apply (proj2 (constructor_builds_fresh_session (8, 8) true keep_all)).
  cbn. lia.
Defined.

(** X2. Every shape of the catalog is a non-empty set of at most nine
    cells that fits the box declared for it, a box between 1 and 5 cells
    wide and high with width plus height at most 6, and touches each
    row and each column of that box. *)
Theorem piece_catalog_well_formed (p : Piece) :
  In p all_piece_names
  /\ 1 <= fst (name_to_size p) <= 5 /\ 1 <= snd (name_to_size p) <= 5
  /\ fst (name_to_size p) + snd (name_to_size p) <= 6
  /\ 0 < name_to_pieces p < 2 ^ (fst (name_to_size p) * snd (name_to_size p))
  /\ 1 <= bit_count (name_to_pieces p) <= 9
  /\ (forall r, 0 <= r < snd (name_to_size p) ->
        exists c, 0 <= c < fst (name_to_size p)
                  /\ Z.testbit (name_to_pieces p)
                       (r * fst (name_to_size p) + c) = true)
  /\ (forall c, 0 <= c < fst (name_to_size p) ->
        exists r, 0 <= r < snd (name_to_size p)
                  /\ Z.testbit (name_to_pieces p)
                       (r * fst (name_to_size p) + c) = true).
Proof.
  split; [apply catalog_complete|].
  assert (Hcase : forall k, 0 <= k < 5 ->
             k = 0 \/ k = 1 \/ k = 2 \/ k = 3 \/ k = 4) by (intros; lia).
  destruct p; cbn [name_to_size name_to_pieces fst snd];
    (repeat (split; [cbn; lia|]));
    (split; intros k Hk;
     assert (Hk5 : 0 <= k < 5) by lia;
     destruct (Hcase k Hk5) as [Hv|[Hv|[Hv|[Hv|Hv]]]]; subst k; try lia;
     first [ exists 0; split; [lia|reflexivity]
           | exists 1; split; [lia|reflexivity]
           | exists 2; split; [lia|reflexivity]
           | exists 3; split; [lia|reflexivity]
           | exists 4; split; [lia|reflexivity] ]).
Qed.

(** ** Masks, cell by cell *)

Lemma testbit_scaled_mask (g : Config) (p : Piece) (r c : Z) :
  fst (name_to_size p) <= width g -> 0 <= r -> 0 <= c < width g ->
  Z.testbit (name_to_piece_masks g p) (r * width g + c)
  = (r <? snd (name_to_size p)) && (c <? fst (name_to_size p))
    && Z.testbit (name_to_pieces p) (r * fst (name_to_size p) + c).
Proof.
  intros Hw Hr Hc. unfold name_to_piece_masks.
  pose proof (piece_size_pos p) as [Hw1 Hh1].
  destruct (name_to_size p) as [w h]. cbn [fst snd] in *.
  rewrite (testbit_fold_lor
             (fun r0 => Z.shiftl (Z.land (Z.shiftr (name_to_pieces p) (r0 * w))
                                         (Z.shiftl 1 w - 1)) (r0 * width g))).
  rewrite Z.bits_0. cbn [orb]. apply Bool.eq_iff_eq_true.
  rewrite existsb_exists, !andb_true_iff, !Z.ltb_lt. split.
  - intros (r0 & Hin & Hb). apply In_range in Hin.
    rewrite Z.shiftl_spec in Hb by nia.
    rewrite Z.land_spec, ones_shiftl, andb_true_iff in Hb.
    destruct Hb as [Hb1 Hb2].
    destruct (Z.ltb_spec (r * width g + c - r0 * width g) 0) as [Hneg|Hnn].
    { rewrite Z.testbit_neg_r in Hb2 by assumption. discriminate. }
    rewrite Z.testbit_ones in Hb2 by lia.
    rewrite andb_true_iff, Z.leb_le, Z.ltb_lt in Hb2.
    assert (r0 = r) by nia. subst r0.
    replace (r * width g + c - r * width g) with c in * by lia.
    rewrite Z.shiftr_spec in Hb1 by lia.
    replace (r * w + c) with (c + r * w) by lia. repeat split; try lia.
    assumption.
  - intros [[Hrh Hcw] Hb]. exists r. split; [apply In_range; lia|].
    rewrite Z.shiftl_spec by nia.
    replace (r * width g + c - r * width g) with c by lia.
    rewrite Z.land_spec, ones_shiftl, Z.shiftr_spec by lia.
    rewrite Z.testbit_ones by lia.
    replace (c + r * w) with (r * w + c) by lia. rewrite Hb. cbn [andb].
    apply andb_true_iff. rewrite Z.leb_le, Z.ltb_lt. lia.
Qed.

(** X3. [_precompute_masks] lays a shape out on the board's stride without
    changing it: when the shape is no wider than the board, cell
    [(c, r)] of the scaled mask, read at bit [r * width + c], is set
    exactly when [(c, r)] lies in the shape's box and is a cell of the
    compact shape, read at bit [r * piece_w + c]. *)
Theorem piece_mask_cells (g : Config) (p : Piece) (r c : Z) :
  fst (name_to_size p) <= width g -> 0 <= r -> 0 <= c < width g ->
  Z.testbit (name_to_piece_masks g p) (r * width g + c)
  = (r <? snd (name_to_size p)) && (c <? fst (name_to_size p))
    && Z.testbit (name_to_pieces p) (r * fst (name_to_size p) + c).
Proof. apply testbit_scaled_mask. Qed.

Lemma piece_mask_cells_witness :
  Z.testbit (name_to_piece_masks g8 Pc.l1) (2 * width g8 + 0)
  = (2 <? snd (name_to_size Pc.l1)) && (0 <? fst (name_to_size Pc.l1))
    && Z.testbit (name_to_pieces Pc.l1) (2 * fst (name_to_size Pc.l1) + 0).
Proof. apply (piece_mask_cells g8 Pc.l1 2 0); cbn; lia. Defined.

(** X4. The line masks of [_precompute_masks], cell by cell: there is one
    row mask per row and one column mask per column; on the board, cell
    [(x, y)] belongs to the mask of row [r] exactly when [y = r] and to
    the mask of column [c] exactly when [x = c]; and no line mask has a
    bit outside the board. (The constructor never builds a board of
    negative width.) *)
Theorem line_masks_cells (g : Config) :
  0 <= width g ->
  List.length (row_masks g) = Z.to_nat (height g)
  /\ List.length (col_masks g) = Z.to_nat (width g)
  /\ (forall x y r, 0 <= x < width g -> 0 <= y < height g -> 0 <= r ->
        Z.testbit (row_mask g r) (y * width g + x) = (y =? r))
  /\ (forall x y c, 0 <= x < width g -> 0 <= y < height g ->
        0 <= c < width g ->
        Z.testbit (col_mask g c) (y * width g + x) = (x =? c))
  /\ (forall m, In m (row_masks g ++ col_masks g) -> in_extent g m).
Proof.
  intros Hw0.
  split; [unfold row_masks, range; now rewrite !length_map, length_seq|].
  split; [unfold col_masks, range; now rewrite !length_map, length_seq|].
  split; [|split].
  - intros x y r Hx Hy Hr. rewrite testbit_row_mask by lia.
    apply Bool.eq_iff_eq_true.
    rewrite andb_true_iff, Z.leb_le, Z.ltb_lt, Z.eqb_eq. split.
    + intros H. symmetry. apply (row_of_cell (width g) r x y); lia.
    + intros ->. lia.
  - intros x y c Hx Hy Hc. apply Bool.eq_iff_eq_true.
    rewrite testbit_col_mask by lia. rewrite Z.eqb_eq. split.
    + intros (r & Hr & Heq). symmetry.
      apply (col_of_cell (width g) r c x y); lia.
    + intros ->. exists y. split; [lia|reflexivity].
  - intros m Hin i Hi. apply in_app_or in Hin.
    destruct Hin as [Hin|Hin]; apply in_map_iff in Hin;
      destruct Hin as (k & <- & Hk); apply In_range in Hk.
    + destruct (Z.ltb_spec i 0) as [Hneg|Hnn];
        [rewrite Z.testbit_neg_r in Hi by assumption; discriminate|].
      rewrite testbit_row_mask in Hi by lia.
      rewrite andb_true_iff, Z.leb_le, Z.ltb_lt in Hi. nia.
    + apply testbit_col_mask in Hi; [|lia|lia].
      destruct Hi as (r & Hr & ->). nia.
Qed.

Lemma line_masks_cells_witness :
  Z.testbit (col_mask g8 3) (5 * width g8 + 3) = (3 =? 3).
Proof.
  assert (Hw0 : 0 <= width g8) by (cbn; lia).
  apply (proj1 (proj2 (proj2 (proj2 (line_masks_cells g8 Hw0)))) 3 5 3);
    cbn; lia.
Defined.

Lemma land_zero_bits (a b : Z) :
  Z.land a b = 0 <->
  forall i, 0 <= i -> Z.testbit b i = true -> Z.testbit a i = false.
Proof.
  split.
  - intros H i Hi Hb. assert (Hl : Z.testbit (Z.land a b) i = false)
      by (rewrite H; apply Z.bits_0).
    rewrite Z.land_spec, Hb, andb_true_r in Hl. exact Hl.
  - intros H. apply Z.bits_inj'. intros i Hi.
    rewrite Z.land_spec, Z.bits_0.
    destruct (Z.testbit b i) eqn:Hb; [|apply andb_false_r].
    rewrite (H i Hi Hb). reflexivity.
Qed.

(** X5. [is_valid_move] decides exactly what it should, cell by cell: a
    placement is valid when and only when the shape's box lies on the
    board and every cell of the shape falls on a free cell of the
    board. *)
Theorem is_valid_move_cells (g : Config) (b : Z) (p : Piece) (x y : Z) :
  is_valid_move g b p (x, y) = true <->
  0 <= x /\ 0 <= y /\ x + fst (name_to_size p) <= width g
  /\ y + snd (name_to_size p) <= height g
  /\ forall r c,
       0 <= r < snd (name_to_size p) -> 0 <= c < fst (name_to_size p) ->
       Z.testbit (name_to_pieces p) (r * fst (name_to_size p) + c) = true ->
       Z.testbit b ((y + r) * width g + (x + c)) = false.
Proof.
  rewrite is_valid_move_spec.
  pose proof (piece_size_pos p) as [Hw1 Hh1].
  split; intros (Hx & Hy & Hxw & Hyh & H); repeat (split; [assumption|]).
  - intros r c Hr Hc Hcell. rewrite land_zero_bits in H.
    apply H; [nia|]. unfold get_piece_mask.
    rewrite Z.shiftl_spec by nia.
    replace ((y + r) * width g + (x + c) - (y * width g + x))
      with (r * width g + c) by lia.
    rewrite testbit_scaled_mask by lia. rewrite Hcell.
    rewrite !andb_true_iff, !Z.ltb_lt. lia.
  - apply land_zero_bits. intros i Hi Hm.
    destruct (testbit_placement g p x y i ltac:(lia) Hx Hy Hm)
      as (r & c & Hr & Hc & ->).
    unfold get_piece_mask in Hm. rewrite Z.shiftl_spec in Hm by nia.
    replace ((y + r) * width g + (x + c) - (y * width g + x))
      with (r * width g + c) in Hm by lia.
    rewrite testbit_scaled_mask in Hm by lia.
    rewrite !andb_true_iff in Hm. destruct Hm as [_ Hcell].
    apply H; assumption.
Qed.

(** ** Searching the board *)

Lemma find_first {A : Type} (f : A -> bool) (l : list A) (a : A) :
  find f l = Some a ->
  f a = true
  /\ exists l1 l2, l = l1 ++ a :: l2 /\ forall a', In a' l1 -> f a' = false.
Proof.
  induction l as [|b l IH]; cbn; [discriminate|].
  destruct (f b) eqn:Hb.
  - intros H. inversion H; subst. split; [assumption|].
    exists [], l. split; [reflexivity|]. intros a' [].
  - intros H. destruct (IH H) as (Ha & l1 & l2 & -> & Hl1).
    split; [assumption|]. exists (b :: l1), l2. split; [reflexivity|].
    intros a' [<-|Hin]; [assumption|now apply Hl1].
Qed.

(** X6. [_can_place_piece] answers with the first valid position in
    row-major order (lowest row, then lowest column), and with [False]
    exactly when the piece has no valid position at all. *)
Theorem can_place_first_position (g : Config) (b : Z) (p : Piece) :
  match _can_place_piece g b p with
  | Some (x, y) =>
      is_valid_move g b p (x, y) = true
      /\ forall x' y', is_valid_move g b p (x', y') = true ->
                       y < y' \/ (y = y' /\ x <= x')
  | None => forall pos, is_valid_move g b p pos = false
  end.
Proof.
  unfold _can_place_piece.
  destruct (find _ (positions g)) as [[x y]|] eqn:Hf.
  - apply find_first in Hf. destruct Hf as (Hv & l1 & l2 & Hl & Hl1).
    split; [assumption|]. intros x' y' Hv'.
    pose proof (valid_in_positions g b p (x', y') Hv') as Hin.
    rewrite Hl in Hin. apply in_app_or in Hin.
    destruct Hin as [Hin|[Heq|Hin]].
    + rewrite (Hl1 _ Hin) in Hv'. discriminate.
    + inversion Heq; subst. lia.
    + pose proof (sorted_positions g) as Hs. rewrite Hl in Hs.
      pose proof (sorted_split pos_lt l1 l2 (x, y) (x', y') Hs Hin) as Hlt.
      unfold pos_lt in Hlt. cbn [fst snd] in Hlt. lia.
  - intros pos. destruct (is_valid_move g b p pos) eqn:Hv; [|reflexivity].
    pose proof (find_none _ _ Hf pos (valid_in_positions g b p pos Hv)) as Hn.
    cbn in Hn. congruence.
Qed.

Lemma sorted_filter {A : Type} (R : A -> A -> Prop) (f : A -> bool)
  (l : list A) :
  StronglySorted R l -> StronglySorted R (filter f l).
Proof.
  induction 1 as [|a l Hs IH Hall]; cbn; [constructor|].
  destruct (f a); [|assumption]. constructor; [assumption|].
  rewrite Forall_forall in *. intros x Hx. apply filter_In in Hx.
  apply Hall. tauto.
Qed.

Lemma piece_eqb_refl (p : Piece) : piece_eqb p p = true.
Proof. now apply piece_eqb_eq. Qed.

Lemma piece_eqb_false (a b : Piece) : a <> b -> piece_eqb a b = false.
Proof.
  intros H. destruct (piece_eqb a b) eqn:E; [|reflexivity].
  apply piece_eqb_eq in E. contradiction.
Qed.

Lemma dict_get_set (d : list (Piece * list Position)) (k p : Piece)
  (v : list Position) :
  dict_get (dict_set d k v) p
  = if piece_eqb p k then Some v else dict_get d p.
Proof.
  induction d as [|[k' v'] d IH]; cbn.
  - reflexivity.
  - destruct (piece_eqb k k') eqn:Hk; cbn.
    + apply piece_eqb_eq in Hk. subst k'.
      destruct (piece_eqb p k); reflexivity.
    + rewrite IH. destruct (piece_eqb p k') eqn:Hp.
      * apply piece_eqb_eq in Hp. subst k'.
        rewrite piece_eqb_false; [reflexivity|].
        intros ->. rewrite piece_eqb_refl in Hk. discriminate.
      * reflexivity.
Qed.

(** X7. [get_possible_moves] maps a name to a list exactly when the name
    is held and has a valid position on the live board; the list then
    holds every valid position of that name, each once, in row-major
    order. Names with no valid position are left out, so the dictionary is
    empty exactly when no held piece can be placed. *)
Theorem possible_moves_lists_all (g : Config) (s : State) (p : Piece) :
  dict_get (get_possible_moves g s) p
  = (if existsb (piece_eqb p) (current_pieces s)
     then match filter (fun pos => is_valid_move g (board s) p pos)
                       (positions g) with
          | [] => None
          | moves => Some moves
          end
     else None)
  /\ (forall moves, dict_get (get_possible_moves g s) p = Some moves ->
        moves <> [] /\ StronglySorted pos_lt moves
        /\ forall pos, In pos moves
                       <-> is_valid_move g (board s) p pos = true)
  /\ (dict_is_empty (get_possible_moves g s) = true <->
      forall q pos, In q (current_pieces s) ->
                    is_valid_move g (board s) q pos = false).
Proof.
  assert (Hget : dict_get (get_possible_moves g s) p
                 = (if existsb (piece_eqb p) (current_pieces s)
                    then match filter (fun pos => is_valid_move g (board s) p pos)
                                      (positions g) with
                         | [] => None
                         | moves => Some moves
                         end
                    else None)).
  { unfold get_possible_moves.
    assert (Hgen : forall l acc,
               dict_get
                 (fold_left
                    (fun possible_moves name =>
                       let moves :=
                         filter (fun pos => is_valid_move g (board s) name pos)
                                (positions g) in
                       match moves with
                       | [] => possible_moves
                       | _ :: _ => dict_set possible_moves name moves
                       end) l acc) p
               = match (if existsb (piece_eqb p) l
                        then match filter
                                     (fun pos => is_valid_move g (board s) p pos)
                                     (positions g) with
                             | [] => None
                             | moves => Some moves
                             end
                        else None) with
                 | Some moves => Some moves
                 | None => dict_get acc p
                 end).
    { induction l as [|q l IH]; intros acc; cbn [fold_left existsb].
      - reflexivity.
      - rewrite IH. cbv zeta.
        destruct (piece_eqb p q) eqn:Hpq; cbn [orb].
        + apply piece_eqb_eq in Hpq. subst q.
          destruct (filter _ (positions g)) as [|m ms] eqn:Hfl.
          * destruct (existsb (piece_eqb p) l); reflexivity.
          * rewrite dict_get_set, piece_eqb_refl.
            destruct (existsb (piece_eqb p) l); reflexivity.
        + destruct (existsb (piece_eqb p) l);
            [destruct (filter (fun pos => is_valid_move g (board s) p pos)
                              (positions g)); [|reflexivity]|];
            (destruct (filter (fun pos => is_valid_move g (board s) q pos)
                              (positions g));
             [reflexivity|rewrite dict_get_set, Hpq; reflexivity]). }
    rewrite Hgen. cbn [dict_get].
    destruct (existsb (piece_eqb p) (current_pieces s)); [|reflexivity].
    destruct (filter _ (positions g)); reflexivity. }
  split; [exact Hget|]. split; [|apply possible_moves_empty].
  intros moves Hm. rewrite Hget in Hm.
  destruct (existsb (piece_eqb p) (current_pieces s)); [|discriminate].
  destruct (filter (fun pos => is_valid_move g (board s) p pos) (positions g))
    as [|m ms] eqn:Hfl; [discriminate|].
  inversion Hm; subst moves; clear Hm. split; [discriminate|].
  rewrite <- Hfl. split.
  - apply sorted_filter. apply sorted_positions.
  - intros pos. rewrite filter_In. split; [tauto|].
    intros Hv. split; [eapply valid_in_positions; eassumption|assumption].
Qed.

(** ** After an accepted move *)

Lemma deal_loop_sound (g : Config) (b0 : Z) (names : list Piece) :
  forall (fuel : nat) (scratch : Z) (s : State) (moves : list Move)
         (s' : State),
    has_empty g scratch ->
    (List.length (current_pieces s) < 3)%nat ->
    plays g b0 moves scratch ->
    map fst moves = current_pieces s ->
    deal_loop fuel g names scratch s = Ret s' ->
    exists moves' b',
      plays g b0 moves' b'
      /\ map fst moves' = current_pieces s'
      /\ List.length (current_pieces s') = 3%nat.
Proof.
  induction fuel as [|fuel IH]; intros scratch s moves s' He Hl Hp Hm Hrun;
    cbn [deal_loop] in Hrun; [discriminate|].
  destruct (deal_scan_spec g b0 names scratch s moves He Hl Hp Hm)
    as (scratch1 & s1 & moves1 & Hscan & He1 & Hp1 & Hm1 & Hl1 & _ & _).
  rewrite Hscan in Hrun. cbn [bind] in Hrun.
  destruct (Nat.eqb (List.length (current_pieces s1)) 3) eqn:H3.
  - inversion Hrun; subst s'. apply Nat.eqb_eq in H3. eauto.
  - apply Nat.eqb_neq in H3.
    assert (Hl3 : (List.length (current_pieces s1) < 3)%nat) by lia.
    apply (IH scratch1 s1 moves1 s' He1 Hl3 Hp1 Hm1 Hrun).
Qed.

(** Whenever the guaranteed deal returns, whatever the number of scans it
    was allowed, the hand it leaves is a rearrangement of three names that
    can be placed one after the other. *)
Lemma guaranteed_deal_sound (g : Config) (s s' : State) (rnd : Random)
  (fuel : nat) :
  has_empty g (board s) ->
  _guaranteed_deal_new_pieces fuel rnd g s = Ret s' ->
  exists moves b',
    List.length (current_pieces s') = 3%nat
    /\ Permutation (map fst moves) (current_pieces s')
    /\ plays g (board s) moves b'
    /\ board s' = board s.
Proof.
  intros He Hrun. unfold _guaranteed_deal_new_pieces in Hrun. cbv zeta in Hrun.
  destruct (deal_loop fuel g _ _ _) as [s1| |] eqn:Hloop;
    cbn [bind] in Hrun; try discriminate.
  inversion Hrun; subst s'; clear Hrun.
  pose proof (deal_loop_frame _ _ _ _ _ _ Hloop) as Hfr.
  assert (Hl0 : (List.length (current_pieces (set_current_pieces s [])) < 3)%nat)
    by (cbn; lia).
  destruct (deal_loop_sound g (board s) _ fuel _ _ [] s1 He Hl0
              (plays_nil g (board s)) eq_refl Hloop)
    as (moves & b' & Hp & Hm & Hl).
  exists moves, b'. cbn [current_pieces set_current_pieces board].
  split; [rewrite <- (Permutation_length (shuffled_perm _ _)); exact Hl|].
  split; [rewrite Hm; apply shuffled_perm|]. split; [exact Hp|].
  rewrite Hfr. reflexivity.
Qed.

(** The hand after an accepted move: the old hand without the first
    occurrence of the piece played, or, when that leaves nothing, a new
    hand of three. *)
Lemma make_move_hand (fuel : nat) (rnd : Random) (g : Config)
  (s : State) (p : Piece) (pos : Position) (o : Outcome) (s' : State) :
  game_over s = false -> In p (current_pieces s) ->
  is_valid_move g (board s) p pos = true ->
  make_move fuel rnd g s p pos = Ret (o, s') ->
  board s' = next_board g (board s) p pos
  /\ game_over s' = dict_is_empty (get_possible_moves g s')
  /\ match remove_first p (current_pieces s) with
     | _ :: _ => current_pieces s' = remove_first p (current_pieces s)
     | [] =>
         List.length (current_pieces s') = 3%nat
         /\ if is_guranteed_valid_moves g
            then exists moves b',
                Permutation (map fst moves) (current_pieces s')
                /\ plays g (board s') moves b'
            else current_pieces s'
                 = firstn 3 (shuffled (sample_order rnd) all_piece_names)
     end.
Proof.
  intros Hg Hh Hv H.
  rewrite (make_move_accepted fuel rnd g s p pos Hg Hh Hv) in H.
  cbv zeta in H.
  destruct (score_transition (placed g s p pos) _ _) as [s2| |] eqn:Hst;
    cbn [bind] in H; try discriminate.
  pose proof (transition_board g s p pos s2 Hst) as Hb2.
  pose proof (score_transition_inv _ _ _ _ Hst) as (_ & _ & _ & Hg2 & Hp2).
  cbn in Hg2, Hp2.
  cbn [current_pieces set_current_pieces] in H. rewrite Hp2 in H.
  assert (Hfin : forall s4 : State,
             Ret (Success
                    (board (if dict_is_empty (get_possible_moves g s4)
                            then set_game_over s4 true else s4))
                    (Some (score (if dict_is_empty (get_possible_moves g s4)
                                  then set_game_over s4 true else s4)))
                    (fst (detect_lines g (board (placed g s p pos))))
                    (game_over (if dict_is_empty (get_possible_moves g s4)
                                then set_game_over s4 true else s4)),
                  if dict_is_empty (get_possible_moves g s4)
                  then set_game_over s4 true else s4) = Ret (o, s') ->
             game_over s4 = false ->
             board s' = board s4 /\ current_pieces s' = current_pieces s4
             /\ game_over s' = dict_is_empty (get_possible_moves g s')).
  { intros s4 Heq Hg4. inversion Heq; subst o s'; clear Heq.
    destruct (dict_is_empty (get_possible_moves g s4)) eqn:Hd.
    - repeat split. cbn [game_over set_game_over]. symmetry. exact Hd.
    - repeat split. rewrite Hd. exact Hg4. }
  destruct (remove_first p (current_pieces s)) as [|q qs] eqn:Hrem.
  - destruct (is_guranteed_valid_moves g) eqn:Hguar.
    + destruct (_guaranteed_deal_new_pieces fuel rnd g _) as [s4| |] eqn:Hdeal;
        cbn [bind] in H; try discriminate.
      pose proof (guaranteed_deal_frame _ _ _ _ _ Hdeal) as Hfr.
      assert (He3 : has_empty g (board (set_current_pieces s2 []))).
      { cbn [board set_current_pieces]. rewrite Hb2.
        now apply next_board_has_empty. }
      destruct (guaranteed_deal_sound g _ s4 rnd fuel He3 Hdeal)
        as (moves & b' & Hl & Hperm & Hplays & Hb4).
      cbn [board set_current_pieces] in Hplays, Hb4.
      destruct (Hfin s4 H) as (Hb & Hc & Ho).
      { rewrite Hfr. cbn. congruence. }
      rewrite Hb, Hb4, Hc. repeat split; try assumption.
      exists moves, b'. split; assumption.
    + cbn [bind] in H.
      destruct (Hfin _ H) as (Hb & Hc & Ho); [cbn; congruence|].
      rewrite Hb, Hc. cbn [board current_pieces _deal_new_pieces
                             set_current_pieces].
      repeat split; try assumption. apply sample_three.
  - cbn [bind] in H.
    destruct (Hfin _ H) as (Hb & Hc & Ho); [cbn; congruence|].
    rewrite Hb, Hc. cbn [board current_pieces set_current_pieces].
    repeat split; assumption.
Qed.

(** X8. [make_move] always comes back: when the guaranteed deal is allowed
    three scans of the catalog it never needs a fourth, so the call
    returns a result, unless [int()] raises on a score increment that is
    no longer a finite number. It never raises [KeyError]. *)
Theorem make_move_always_answers (fuel : nat) (rnd : Random) (g : Config)
  (s : State) (p : Piece) (pos : Position) :
  (3 <= fuel)%nat ->
  (exists o s', make_move fuel rnd g s p pos = Ret (o, s'))
  \/ make_move fuel rnd g s p pos = Raise OverflowError
  \/ make_move fuel rnd g s p pos = Raise ValueError.
Proof. apply make_move_no_timeout. Qed.

Lemma make_move_always_answers_witness :
  (exists o s', make_move 3 keep_all g8 bars_session Pc.line4h (0, 0)
                = Ret (o, s'))
  \/ make_move 3 keep_all g8 bars_session Pc.line4h (0, 0)
     = Raise OverflowError
  \/ make_move 3 keep_all g8 bars_session Pc.line4h (0, 0)
     = Raise ValueError.
Proof.
  apply (make_move_always_answers 3 keep_all g8 bars_session Pc.line4h (0, 0)).
  lia.
Defined.

(** X9. The terminal flag is exact after every accepted move: the outcome
    repeats the session's board, score and flag, and the flag is set
    exactly when no piece of the hand, as it stands after the move and any
    new deal, has a valid position on the new board. *)
Theorem make_move_flags_game_over_exactly (fuel : nat) (rnd : Random)
  (g : Config) (s : State) (p : Piece) (pos : Position) (b : Z)
  (sc : option Z) (n : Z) (over : bool) (s' : State) :
  make_move fuel rnd g s p pos = Ret (Success b sc n over, s') ->
  b = board s' /\ sc = Some (score s') /\ over = game_over s'
  /\ (game_over s' = true <->
      forall q pos', In q (current_pieces s') ->
                     is_valid_move g (board s') q pos' = false).
Proof.
  intros H. pose proof H as H0. apply make_move_inv in H.
  destruct H as [(_ & _ & [msg Hmsg])|(Hg & Hh & Hv & Hrest)];
    [discriminate|].
  cbv zeta in Hrest. destruct Hrest as (_ & Ho & _).
  inversion Ho; subst. repeat split; try reflexivity.
  - intros Hover. apply possible_moves_empty.
    rewrite <- (proj1 (proj2 (make_move_hand _ _ _ _ _ _ _ _ Hg Hh Hv H0))).
    exact Hover.
  - intros Hnone.
    rewrite (proj1 (proj2 (make_move_hand _ _ _ _ _ _ _ _ Hg Hh Hv H0))).
    apply possible_moves_empty. exact Hnone.
Qed.

Lemma make_move_flags_game_over_exactly_witness :
  15 = board (mkState 15 4 (-1) 2 0%float 0%float false
                [Pc.line4h; Pc.line4h])
  /\ Some 4 = Some (score (mkState 15 4 (-1) 2 0%float 0%float false
                             [Pc.line4h; Pc.line4h]))
  /\ false = game_over (mkState 15 4 (-1) 2 0%float 0%float false
                          [Pc.line4h; Pc.line4h])
  /\ (game_over (mkState 15 4 (-1) 2 0%float 0%float false
                   [Pc.line4h; Pc.line4h]) = true <->
      forall q pos', In q (current_pieces
                             (mkState 15 4 (-1) 2 0%float 0%float false
                                [Pc.line4h; Pc.line4h])) ->
                     is_valid_move g8
                       (board (mkState 15 4 (-1) 2 0%float 0%float false
                                 [Pc.line4h; Pc.line4h])) q pos' = false).
Proof.
  apply (make_move_flags_game_over_exactly 3 keep_all g8 bars_session
           Pc.line4h (0, 0) 15 (Some 4) 0 false
           (mkState 15 4 (-1) 2 0%float 0%float false
              [Pc.line4h; Pc.line4h])).
  vm_compute. reflexivity.
Defined.

Set Warnings "-inexact-float".

(** ** The hand *)

Lemma remove_first_length (p : Piece) (l : list Piece) :
  In p l -> S (List.length (remove_first p l)) = List.length l.
Proof.
  induction l as [|q l IH]; cbn; [tauto|].
  destruct (piece_eqb p q) eqn:Hpq; [reflexivity|].
  intros [Heq|Hin].
  - subst q. rewrite piece_eqb_refl in Hpq. discriminate.
  - cbn. now rewrite IH.
Qed.

Lemma reachable_config (g : Config) (s : State) :
  reachable g s -> 0 <= width g <= 64 /\ height g <= 64.
Proof.
  induction 1 as [bs rnd s0 Hnew|fuel rnd s p pos o s' Hr IH Hm];
    [|assumption].
  apply new_session_state in Hnew. tauto.
Qed.

(** X10. A session always holds one, two or three pieces: the constructor
    deals three, an accepted move takes one away, and the hand is dealt
    anew the moment it would be empty. *)
Theorem hand_size_invariant (g : Config) (s : State) :
  reachable g s ->
  (1 <= List.length (current_pieces s) <= 3)%nat.
Proof.
  induction 1 as [bs rnd s0 Hnew|fuel rnd s p pos o s' Hr IH Hm].
  - apply new_session_state in Hnew. destruct Hnew as (_ & _ & _ & ->).
    cbn [current_pieces _deal_new_pieces set_current_pieces].
    rewrite (proj1 (sample_three (sample_order rnd))). lia.
  - pose proof Hm as Hm0. apply make_move_inv in Hm.
    destruct Hm as [(_ & -> & _)|(Hg & Hh & Hv & _)]; [assumption|].
    destruct (make_move_hand _ _ _ _ _ _ _ _ Hg Hh Hv Hm0) as (_ & _ & Hhand).
    pose proof (remove_first_length p _ Hh) as Hlen.
    destruct (remove_first p (current_pieces s)) as [|q qs].
    + destruct Hhand as [-> _]. lia.
    + rewrite Hhand. cbn [List.length] in *. lia.
Qed.

Lemma hand_size_invariant_witness :
  (1 <= List.length (current_pieces
                       (mkState 15 4 (-1) 2 0%float 0%float false
                          [Pc.sq1; Pc.sq2])) <= 3)%nat.
Proof.
  apply (hand_size_invariant g8).
  apply (reach_move g8 3 keep_all
           (mkState 0 0 (-1) 3 0%float 0%float false
              [Pc.line4h; Pc.sq1; Pc.sq2])
           Pc.line4h (0, 0) (Success 15 (Some 4) 0 false)).
  - apply (reach_new g8 (8, 8)
             (mkRandom (shuffle_to [Pc.line4h; Pc.sq1; Pc.sq2]) keep keep)).
    vm_compute. reflexivity.
  - vm_compute. reflexivity.
Defined.

(** X11. With guaranteed deals, playing the last piece of the hand never
    ends the game: the move returns with three pieces in hand, at least
    one of which has a valid position on the new board, and the terminal
    flag unset. *)
Theorem guaranteed_refill_is_playable (fuel : nat) (rnd : Random)
  (g : Config) (s : State) (p : Piece) (pos : Position) (b : Z)
  (sc : option Z) (n : Z) (over : bool) (s' : State) :
  is_guranteed_valid_moves g = true ->
  current_pieces s = [p] ->
  make_move fuel rnd g s p pos = Ret (Success b sc n over, s') ->
  over = false /\ game_over s' = false
  /\ List.length (current_pieces s') = 3%nat
  /\ exists q pos', In q (current_pieces s')
                    /\ is_valid_move g (board s') q pos' = true.
Proof.
  intros Hguar Hhand H. pose proof H as H0. apply make_move_inv in H.
  destruct H as [(_ & _ & [msg Hmsg])|(Hg & Hh & Hv & Hrest)];
    [discriminate|].
  cbv zeta in Hrest. destruct Hrest as (_ & Ho & _).
  inversion Ho; subst b sc n over; clear Ho.
  destruct (make_move_hand _ _ _ _ _ _ _ _ Hg Hh Hv H0) as (_ & Hover & Hnew).
  rewrite Hhand in Hnew. cbn [remove_first] in Hnew.
  rewrite piece_eqb_refl, Hguar in Hnew.
  destruct Hnew as (Hlen & moves & b' & Hperm & Hplays).
  assert (Hex : exists q pos', In q (current_pieces s')
                               /\ is_valid_move g (board s') q pos' = true).
  { destruct moves as [|[q pos'] rest].
    - apply Permutation_length in Hperm. cbn in Hperm. lia.
    - inversion Hplays; subst. exists q, pos'. split; [|assumption].
      eapply Permutation_in; [exact Hperm|]. now left. }
  destruct Hex as (q & pos' & Hq & Hvq).
  pose proof (not_stuck g s' q pos' Hq Hvq) as Hns.
  rewrite Hns in Hover. repeat split; try assumption. eauto.
Qed.

Lemma guaranteed_refill_is_playable_witness :
  false = false
  /\ game_over (mkState 1 1 (-1) 2 0%float 0%float false
                  [Pc.sq1; Pc.sq2; Pc.sq3]) = false
  /\ List.length (current_pieces
                    (mkState 1 1 (-1) 2 0%float 0%float false
                       [Pc.sq1; Pc.sq2; Pc.sq3])) = 3%nat
  /\ exists q pos',
       In q (current_pieces (mkState 1 1 (-1) 2 0%float 0%float false
                               [Pc.sq1; Pc.sq2; Pc.sq3]))
       /\ is_valid_move g8
            (board (mkState 1 1 (-1) 2 0%float 0%float false
                      [Pc.sq1; Pc.sq2; Pc.sq3])) q pos' = true.
Proof.
  apply (guaranteed_refill_is_playable 3 keep_all g8
           (mkState 0 0 (-1) 3 0%float 0%float false [Pc.sq1])
           Pc.sq1 (0, 0) 1 (Some 1) 0 false
           (mkState 1 1 (-1) 2 0%float 0%float false
              [Pc.sq1; Pc.sq2; Pc.sq3])).
  - reflexivity.
  - reflexivity.
  - vm_compute. reflexivity.
Defined.

(** ** [try_move] against [make_move] *)

(** X12. [try_move] on the live board predicts [make_move]: whenever
    [make_move] accepts a move, [try_move] called beforehand with the
    session's board and the same piece and position reports the same new
    board and the same number of cleared lines; and [try_move] answers
    with an error exactly when the placement is not valid on the board it
    is given. *)
Theorem try_move_predicts_make_move (fuel : nat) (rnd : Random) (g : Config)
  (s : State) (p : Piece) (pos : Position) (b : Z) (sc : option Z) (n : Z)
  (over : bool) (s' : State) :
  make_move fuel rnd g s p pos = Ret (Success b sc n over, s') ->
  (exists over0,
      try_move g s (board s) p pos = (Success b None n over0, s))
  /\ forall b0 q pos0,
       (exists msg, fst (try_move g s b0 q pos0) = Error msg)
       <-> is_valid_move g b0 q pos0 = false.
Proof.
  intros H. split.
  - apply make_move_inv in H.
    destruct H as [(_ & _ & [msg Hmsg])|(Hg & Hh & Hv & Hrest)];
      [discriminate|].
    cbv zeta in Hrest. destruct Hrest as (Hb & Ho & _).
    inversion Ho; subst b sc n over; clear Ho.
    rewrite (try_move_valid g s (board s) p pos Hv).
    unfold next_board. rewrite Hb. eauto.
  - intros b0 q pos0. destruct (is_valid_move g b0 q pos0) eqn:Hv0.
    + rewrite try_move_valid by assumption. cbn [fst].
      split; [intros [msg Hm]; discriminate|discriminate].
    + rewrite try_move_invalid by assumption. cbn [fst].
      split; [reflexivity|eauto].
Qed.

Lemma try_move_predicts_make_move_witness :
  (exists over0,
      try_move g8 bars_session (board bars_session) Pc.line4h (0, 0)
      = (Success 15 None 0 over0, bars_session))
  /\ forall b0 q pos0,
       (exists msg, fst (try_move g8 bars_session b0 q pos0) = Error msg)
       <-> is_valid_move g8 b0 q pos0 = false.
Proof.
  apply (try_move_predicts_make_move 3 keep_all g8 bars_session Pc.line4h
           (0, 0) 15 (Some 4) 0 false
           (mkState 15 4 (-1) 2 0%float 0%float false
              [Pc.line4h; Pc.line4h])).
  vm_compute. reflexivity.
Defined.

(** ** Scoring *)

Lemma piece_catalog_bits (p : Piece) :
  1 <= bit_count (name_to_pieces p) <= 9.
Proof. destruct p; cbn; lia. Qed.

Lemma piece_box_small (p : Piece) :
  fst (name_to_size p) + snd (name_to_size p) <= 6.
Proof. destruct p; cbn; lia. Qed.

(** X13. An accepted move that clears no line scores exactly the number
    of cells of the piece, between 1 and 9: the board gains the piece's
    mask and nothing else, the counter goes down by one, and combo, the
    score increment and its acceleration are left alone. *)
Theorem flat_score_without_clear (fuel : nat) (rnd : Random) (g : Config)
  (s : State) (p : Piece) (pos : Position) (b : Z) (sc : option Z)
  (over : bool) (s' : State) :
  make_move fuel rnd g s p pos = Ret (Success b sc 0 over, s') ->
  score s' = score s + bit_count (name_to_pieces p)
  /\ 1 <= bit_count (name_to_pieces p) <= 9
  /\ board s' = Z.lor (board s) (get_piece_mask g p pos)
  /\ combo s' = combo s
  /\ not_combo_counter s' = not_combo_counter s - 1
  /\ score_increment s' = score_increment s
  /\ score_incremental_acceleration s' = score_incremental_acceleration s.
Proof.
  intros H. pose proof H as H0. apply make_move_inv in H.
  destruct H as [(_ & _ & [msg Hmsg])|(Hg & Hh & Hv & _)]; [discriminate|].
  destruct (make_move_accepted_inv _ _ _ _ _ _ _ _ Hg Hh Hv H0)
    as (s2 & Hst & Hs' & Ho & _).
  inversion Ho as [[Hb Hsc Hn Hov]].
  change (fst (detect_lines g (board (placed g s p pos)))) with
    (fst (detect_lines g (Z.lor (board s) (get_piece_mask g p pos)))) in Hst.
  rewrite <- Hn in Hst.
  unfold score_transition in Hst. cbn [Z.gtb Z.compare] in Hst.
  inversion Hst; subst s2; clear Hst.
  rewrite Hs'. unfold placed. cbn.
  pose proof (piece_catalog_bits p) as Hbits.
  repeat split; try reflexivity; lia.
Qed.

Lemma flat_score_without_clear_witness :
  score (mkState 15 4 (-1) 2 0%float 0%float false [Pc.line4h; Pc.line4h])
  = score bars_session + bit_count (name_to_pieces Pc.line4h)
  /\ 1 <= bit_count (name_to_pieces Pc.line4h) <= 9
  /\ board (mkState 15 4 (-1) 2 0%float 0%float false
              [Pc.line4h; Pc.line4h])
     = Z.lor (board bars_session) (get_piece_mask g8 Pc.line4h (0, 0))
  /\ combo (mkState 15 4 (-1) 2 0%float 0%float false
              [Pc.line4h; Pc.line4h]) = combo bars_session
  /\ not_combo_counter (mkState 15 4 (-1) 2 0%float 0%float false
                          [Pc.line4h; Pc.line4h])
     = not_combo_counter bars_session - 1
  /\ score_increment (mkState 15 4 (-1) 2 0%float 0%float false
                        [Pc.line4h; Pc.line4h])
     = score_increment bars_session
  /\ score_incremental_acceleration
       (mkState 15 4 (-1) 2 0%float 0%float false [Pc.line4h; Pc.line4h])
     = score_incremental_acceleration bars_session.
Proof.
  apply (flat_score_without_clear 3 keep_all g8 bars_session Pc.line4h
           (0, 0) 15 (Some 4) false).
  vm_compute. reflexivity.
Defined.

(** The [match self.combo] statement as a function of the combo just
    reached and the acceleration so far. *)
Definition next_acceleration (c : Z) (a : float) : float :=
  match c with
  | 0 => BASE_SCORE_ACCELERATION
  | 5 => (a * 4)%float
  | 6 => (a * 0.375)%float
  | 10 => (a * 4.6666)%float
  | 11 => (a * 0.2857)%float
  | _ => a
  end.

(** The acceleration a session has at each combo. *)
Definition acceleration_at (c : Z) : float :=
  if c <? 0 then 0%float
  else if c <? 5 then BASE_SCORE_ACCELERATION
  else if c <? 6 then (BASE_SCORE_ACCELERATION * 4)%float
  else if c <? 10 then (BASE_SCORE_ACCELERATION * 4 * 0.375)%float
  else if c <? 11
       then (BASE_SCORE_ACCELERATION * 4 * 0.375 * 4.6666)%float
  else (BASE_SCORE_ACCELERATION * 4 * 0.375 * 4.6666 * 0.2857)%float.

Lemma accelerate_next (s : State) :
  accelerate s
  = set_score_incremental_acceleration s
      (next_acceleration (combo s) (score_incremental_acceleration s)).
Proof.
  unfold accelerate, next_acceleration.
  assert (Hid : s = set_score_incremental_acceleration s
                      (score_incremental_acceleration s)) by now destruct s.
  destruct (combo s) as [|q|q]; try reflexivity; try exact Hid.
  do 4 (try (destruct q as [q|q|]; try reflexivity; try exact Hid)).
Qed.

Lemma next_acceleration_schedule (c : Z) :
  -1 <= c ->
  next_acceleration (c + 1) (acceleration_at c) = acceleration_at (c + 1).
Proof.
  intros Hc.
  assert (Hcase : c = -1 \/ c = 0 \/ c = 1 \/ c = 2 \/ c = 3 \/ c = 4
                  \/ c = 5 \/ c = 6 \/ c = 7 \/ c = 8 \/ c = 9 \/ c = 10
                  \/ 11 <= c) by lia.
  repeat (destruct Hcase as [Hv|Hcase]; [subst c; reflexivity|]).
  unfold acceleration_at.
  repeat match goal with
         | |- context [?a <? ?b] => destruct (Z.ltb_spec a b); try lia
         end.
  unfold next_acceleration.
  destruct (c + 1) as [|q|q] eqn:Hq; try lia.
  do 4 (try (destruct q as [q|q|]; try reflexivity; try lia)).
Qed.

Lemma score_transition_acceleration (s s2 : State) (n c : Z) :
  score_transition s n c = Ret s2 ->
  score_incremental_acceleration s2
  = (if n >? 0
     then next_acceleration (combo s + 1) (score_incremental_acceleration s)
     else score_incremental_acceleration s).
Proof.
  rewrite score_transition_reset_dead. unfold score_transition_no_reset.
  destruct (n >? 0); [|intros H; inversion H; reflexivity].
  cbv zeta. rewrite accelerate_next.
  destruct (int_of_float _) as [z| |]; cbn [bind]; try discriminate.
  intros H. inversion H. reflexivity.
Qed.

(** X14. The acceleration of the score increment is a function of combo
    alone: in every state of a session combo is at least -1 and the
    acceleration is 0 before the first clear, 34.2 for combo 0 to 4,
    34.2 * 4 at combo 5, that times 0.375 for combo 6 to 9, that times
    4.6666 at combo 10, and that times 0.2857 from combo 11 on. Each
    factor of the [match] statement is therefore applied once in the
    life of a session. *)
Theorem acceleration_schedule (g : Config) (s : State) :
  reachable g s ->
  -1 <= combo s
  /\ score_incremental_acceleration s = acceleration_at (combo s).
Proof.
  induction 1 as [bs rnd s0 Hnew|fuel rnd s p pos o s' Hr IH Hm].
  - apply new_session_state in Hnew. destruct Hnew as (_ & _ & _ & ->).
    cbn. split; [lia|reflexivity].
  - destruct IH as [IHc IHa]. pose proof Hm as Hm0. apply make_move_inv in Hm.
    destruct Hm as [(_ & -> & _)|(Hg & Hh & Hv & _)]; [tauto|].
    destruct (make_move_accepted_inv _ _ _ _ _ _ _ _ Hg Hh Hv Hm0)
      as (s2 & Hst & Hs' & _).
    pose proof (score_transition_acceleration _ _ _ _ Hst) as Hacc.
    pose proof (score_transition_inv _ _ _ _ Hst) as (_ & Hc2 & _).
    unfold placed in Hacc, Hc2.
    cbn [combo score_incremental_acceleration set_score set_board]
      in Hacc, Hc2.
    assert (Hc' : combo s' = combo s2) by (rewrite Hs'; reflexivity).
    assert (Ha' : score_incremental_acceleration s'
                  = score_incremental_acceleration s2)
      by (rewrite Hs'; reflexivity).
    rewrite Hc', Ha', Hacc, Hc2.
    destruct (_ >? 0).
    + split; [lia|]. rewrite IHa. now apply next_acceleration_schedule.
    + tauto.
Qed.

Lemma acceleration_schedule_witness :
  -1 <= combo (mkState 31 5 (-1) 2 0%float 0%float false
                 [Pc.line3h; Pc.sq1])
  /\ score_incremental_acceleration
       (mkState 31 5 (-1) 2 0%float 0%float false [Pc.line3h; Pc.sq1])
     = acceleration_at
         (combo (mkState 31 5 (-1) 2 0%float 0%float false
                   [Pc.line3h; Pc.sq1])).
Proof.
  apply (acceleration_schedule g8).
  apply (reach_move g8 3 rundown_random
           (mkState 0 0 (-1) 3 0%float 0%float false
              [Pc.line5h; Pc.line3h; Pc.sq1]) Pc.line5h (0, 0)
           (Success 31 (Some 5) 0 false)
           (mkState 31 5 (-1) 2 0%float 0%float false [Pc.line3h; Pc.sq1]));
    [|vm_compute; reflexivity].
  apply (reach_new g8 (8, 8) rundown_random). vm_compute. reflexivity.
Defined.

(** ** How many lines one move can clear *)

(** No row and no column of the board is full. *)
Definition no_full_line (g : Config) (b : Z) : Prop :=
  forall m, In m (line_masks g) -> is_full b m = false.

Lemma empty_no_full_line (g : Config) :
  1 <= width g -> 1 <= height g -> no_full_line g 0.
Proof.
  intros Hw Hh m Hin.
  destruct (line_mask_cell g m Hw Hh Hin) as (x & y & _ & _ & Hbit).
  unfold is_full. rewrite Z.land_0_l. apply Z.eqb_neq. intros <-.
  rewrite Z.bits_0 in Hbit. discriminate.
Qed.

Lemma reachable_no_full_line (g : Config) (s : State) :
  reachable g s -> 1 <= width g -> 1 <= height g ->
  no_full_line g (board s).
Proof.
  induction 1 as [bs rnd s0 Hnew|fuel rnd s p pos o s' Hr IH Hm];
    intros Hw Hh.
  - apply new_session_state in Hnew. destruct Hnew as (_ & _ & _ & ->).
    cbn. now apply empty_no_full_line.
  - apply make_move_inv in Hm.
    destruct Hm as [(_ & -> & _)|(_ & _ & _ & Hrest)]; [now apply IH|].
    cbv zeta in Hrest. destruct Hrest as (Hb & _). rewrite Hb.
    intros m Hin. now apply cleared_board_no_full_line.
Qed.

Lemma sorted_nodup (l : list Z) : StronglySorted Z.lt l -> NoDup l.
Proof.
  induction 1 as [|a l Hs IH Hall]; constructor; [|assumption].
  intros Hin. rewrite Forall_forall in Hall. specialize (Hall a Hin). lia.
Qed.

Lemma filter_range_bound (f : Z -> bool) (n a k : Z) :
  0 <= k ->
  (forall r, 0 <= r < n -> f r = true -> a <= r < a + k) ->
  Z.of_nat (List.length (filter f (range n))) <= k.
Proof.
  intros Hk Hf.
  assert (Hincl : incl (filter f (range n))
                       (map (fun i => a + Z.of_nat i) (seq 0 (Z.to_nat k)))).
  { intros r Hr. apply filter_In in Hr. destruct Hr as [Hr Hfr].
    apply In_range in Hr. specialize (Hf r Hr Hfr).
    apply in_map_iff. exists (Z.to_nat (r - a)). split; [lia|].
    apply in_seq. lia. }
  pose proof (NoDup_incl_length
                (NoDup_filter f (sorted_nodup _ (sorted_range n))) Hincl) as Hl.
  rewrite length_map, length_seq in Hl. lia.
Qed.

Lemma filter_map_length {A B : Type} (f : B -> bool) (h : A -> B)
  (l : list A) :
  List.length (filter f (map h l))
  = List.length (filter (fun a => f (h a)) l).
Proof.
  induction l as [|a l IH]; cbn; [reflexivity|].
  destruct (f (h a)); cbn; now rewrite IH.
Qed.

(** On a board without a full line, a row that is full after a placement
    is one of the rows of the piece's box, and a column likewise. *)
Lemma full_lines_touch_piece (g : Config) (b : Z) (p : Piece) (x y : Z) :
  no_full_line g b -> is_valid_move g b p (x, y) = true ->
  (forall r, 0 <= r < height g ->
     is_full (Z.lor b (get_piece_mask g p (x, y))) (row_mask g r) = true ->
     y <= r < y + snd (name_to_size p))
  /\ (forall c, 0 <= c < width g ->
        is_full (Z.lor b (get_piece_mask g p (x, y))) (col_mask g c) = true ->
        x <= c < x + fst (name_to_size p)).
Proof.
  intros Hnf Hv. pose proof Hv as Hv0. apply is_valid_move_spec in Hv.
  destruct Hv as (Hx & Hy & Hxw & Hyh & _).
  pose proof (piece_size_pos p) as [Hw1 Hh1].
  split.
  - intros r Hr Hfull.
    assert (Hin : In (row_mask g r) (line_masks g)).
    { apply in_or_app. left. apply in_map. apply In_range. lia. }
    pose proof (Hnf _ Hin) as Hnot.
    rewrite row_full_cells in Hnot, Hfull by lia.
    apply forallb_false_witness in Hnot. destruct Hnot as (x0 & Hx0 & Hb0).
    apply In_range in Hx0.
    rewrite forallb_forall in Hfull.
    assert (Hx0' : In x0 (range (width g))) by (apply In_range; lia).
    specialize (Hfull x0 Hx0').
    rewrite Z.lor_spec, Hb0 in Hfull. cbn [orb] in Hfull.
    assert (Hw0 : 0 <= width g) by lia.
    destruct (testbit_placement g p x y _ Hw0 Hx Hy Hfull)
      as (r' & c' & Hr' & Hc' & Heq).
    assert (r = y + r'); [|lia].
    symmetry. apply (row_of_cell (width g) (y + r') x0 r); lia.
  - intros c Hc Hfull.
    assert (Hin : In (col_mask g c) (line_masks g)).
    { apply in_or_app. right. apply in_map. apply In_range. lia. }
    pose proof (Hnf _ Hin) as Hnot.
    rewrite col_full_cells in Hnot, Hfull by lia.
    apply forallb_false_witness in Hnot. destruct Hnot as (y0 & Hy0 & Hb0).
    apply In_range in Hy0.
    rewrite forallb_forall in Hfull.
    assert (Hy0' : In y0 (range (height g))) by (apply In_range; lia).
    specialize (Hfull y0 Hy0').
    rewrite Z.lor_spec, Hb0 in Hfull. cbn [orb] in Hfull.
    assert (Hw0 : 0 <= width g) by lia.
    destruct (testbit_placement g p x y _ Hw0 Hx Hy Hfull)
      as (r' & c' & Hr' & Hc' & Heq).
    assert (x + c' = c); [|lia].
    apply (col_of_cell (width g) (y + r') (x + c') c y0); lia.
Qed.

(** X15. One move clears at most six lines. In every state of a session,
    an accepted move completes at most as many rows as the piece is high
    and as many columns as it is wide, so the count it reports lies
    between 0 and width plus height of the piece, which the catalog
    keeps at 6 or less: the fallback multiplier of
    [SCORE_MULTIPLIERS.get(lines_cleared, 30.0)] is never needed. *)
Theorem lines_cleared_at_most_six (fuel : nat) (rnd : Random) (g : Config)
  (s : State) (p : Piece) (pos : Position) (b : Z) (sc : option Z) (n : Z)
  (over : bool) (s' : State) :
  reachable g s ->
  make_move fuel rnd g s p pos = Ret (Success b sc n over, s') ->
  0 <= n <= fst (name_to_size p) + snd (name_to_size p) /\ n <= 6.
Proof.
  intros Hreach H. apply make_move_inv in H.
  destruct H as [(_ & _ & [msg Hmsg])|(Hg & Hh & Hv & Hrest)];
    [discriminate|].
  cbv zeta in Hrest. destruct Hrest as (_ & Ho & _).
  inversion Ho as [[Hb Hsc Hn Hov]]. clear Ho Hb Hsc Hov.
  destruct pos as [x y]. pose proof Hv as Hv0.
  apply is_valid_move_spec in Hv0.
  destruct Hv0 as (Hx & Hy & Hxw & Hyh & _).
  pose proof (piece_size_pos p) as [Hw1 Hh1].
  pose proof (reachable_no_full_line g s Hreach ltac:(lia) ltac:(lia)) as Hnf.
  destruct (full_lines_touch_piece g (board s) p x y Hnf Hv) as [Hrows Hcols].
  rewrite detect_and_clear_spec. cbn [snd].
  unfold row_masks, col_masks. rewrite !filter_map_length.
  pose proof (filter_range_bound
                (fun r => is_full (Z.lor (board s) (get_piece_mask g p (x, y)))
                                  (row_mask g r))
                (height g) y (snd (name_to_size p)) ltac:(lia) Hrows) as Hr.
  pose proof (filter_range_bound
                (fun c => is_full (Z.lor (board s) (get_piece_mask g p (x, y)))
                                  (col_mask g c))
                (width g) x (fst (name_to_size p)) ltac:(lia) Hcols) as Hc.
  pose proof (piece_box_small p). lia.
Qed.

Lemma lines_cleared_at_most_six_witness :
  0 <= 0 <= fst (name_to_size Pc.line4h) + snd (name_to_size Pc.line4h)
  /\ 0 <= 6.
Proof.
  apply (lines_cleared_at_most_six 3 keep_all g8
           (mkState 0 0 (-1) 3 0%float 0%float false
              [Pc.line4h; Pc.sq1; Pc.sq2])
           Pc.line4h (0, 0) 15 (Some 4) 0 false
           (mkState 15 4 (-1) 2 0%float 0%float false [Pc.sq1; Pc.sq2])).
  - apply (reach_new g8 (8, 8)
             (mkRandom (shuffle_to [Pc.line4h; Pc.sq1; Pc.sq2]) keep keep)).
    vm_compute. reflexivity.
  - vm_compute. reflexivity.
Defined.

(** ** The board as a number *)

Lemma in_extent_bounds (g : Config) (b : Z) :
  0 <= width g * height g -> in_extent g b ->
  0 <= b < 2 ^ (width g * height g).
Proof.
  intros Hwh He.
  assert (Hnn : 0 <= b).
  { destruct (Z.lt_ge_cases b 0) as [Hneg|]; [|assumption].
    assert (Hlog : Z.log2 (Z.abs b)
                   < Z.max (Z.log2 (Z.abs b) + 1) (width g * height g))
      by lia.
    pose proof (proj1 (Z.bits_iff_neg b _ Hlog) Hneg) as Hbit.
    apply He in Hbit. lia. }
  split; [assumption|].
  destruct (Z.eq_dec b 0) as [->|Hnz]; [apply Z.pow_pos_nonneg; lia|].
  apply Z.log2_lt_pow2; [lia|].
  assert (Hpos : 0 < b) by lia.
  pose proof (He _ (Z.bit_log2 b Hpos)). lia.
Qed.

(** X16. The board of a session is a natural number that fits in
    [width * height] bits: it is never negative and, on a board with
    rows, always below [2 ^ (width * height)]; with the limit of the
    constructor, below [2 ^ 4096]. *)
Theorem board_value_bounded (g : Config) (s : State) :
  reachable g s -> 0 <= height g ->
  0 <= board s < 2 ^ (width g * height g)
  /\ board s < 2 ^ 4096.
Proof.
  intros Hr Hh. pose proof (reachable_config g s Hr) as (Hw & Hh64).
  pose proof (in_extent_bounds g (board s) ltac:(nia)
                (reachable_in_extent g s Hr)) as Hb.
  split; [assumption|].
  apply Z.lt_le_trans with (2 ^ (width g * height g)); [lia|].
  apply Z.pow_le_mono_r; nia.
Qed.

Lemma board_value_bounded_witness :
  0 <= board (mkState 0 0 (-1) 3 0%float 0%float false
                [Pc.line4h; Pc.sq1; Pc.sq2])
    < 2 ^ (width g8 * height g8)
  /\ board (mkState 0 0 (-1) 3 0%float 0%float false
              [Pc.line4h; Pc.sq1; Pc.sq2]) < 2 ^ 4096.
Proof.
  apply (board_value_bounded g8).
  - apply (reach_new g8 (8, 8)
             (mkRandom (shuffle_to [Pc.line4h; Pc.sq1; Pc.sq2]) keep keep)).
    vm_compute. reflexivity.
  - cbn. lia.
Defined.

(** * The solver and the engine together *)

Lemma remove_first_perm (p : Piece) (l : list Piece) :
  In p l -> Permutation l (p :: remove_first p l).
Proof.
  induction l as [|q l IH]; cbn; [tauto|].
  destruct (piece_eqb p q) eqn:Hpq.
  - apply piece_eqb_eq in Hpq. subst q. reflexivity.
  - intros [Heq|Hin].
    + subst q. rewrite piece_eqb_refl in Hpq. discriminate.
    + rewrite perm_swap. constructor. now apply IH.
Qed.

(** [result['status'] == 'success']. *)
Definition is_success (o : Outcome) : bool :=
  match o with
  | Success _ _ _ _ => true
  | Error _ => false
  end.

(** A sequence of moves that is legal on the board of the session and uses
    the pieces of its hand is accepted move by move by [make_move]. *)
Lemma play_plays (fuel : nat) (rnd : Random) (g : Config) :
  (3 <= fuel)%nat ->
  forall (ms : list Move) (s : State) (b' : Z),
    plays g (board s) ms b' ->
    Permutation (map fst ms) (current_pieces s) ->
    game_over s = false ->
    (exists os s',
        play fuel rnd g s ms = Ret (os, s')
        /\ forallb is_success os = true
        /\ List.length os = List.length ms
        /\ board s' = b')
    \/ play fuel rnd g s ms = Raise OverflowError
    \/ play fuel rnd g s ms = Raise ValueError.
Proof.
  intros Hf. induction ms as [|[p pos] rest IH]; intros s b' Hplays Hperm Hg.
  - left. exists [], s. inversion Hplays; subst. cbn. tauto.
  - inversion Hplays as [|b0 p0 pos0 rest0 b0' Hv Hrest]; subst.
    assert (Hin : In p (current_pieces s)).
    { eapply Permutation_in; [exact Hperm|]. now left. }
    cbn [play].
    destruct (make_move_no_timeout fuel rnd g s p pos Hf)
      as [(o & s1 & Hm)|[Hm|Hm]];
      [|right; left; rewrite Hm; reflexivity
       |right; right; rewrite Hm; reflexivity].
    rewrite Hm. cbn [bind].
    destruct (make_move_hand _ _ _ _ _ _ _ _ Hg Hin Hv Hm)
      as (Hb1 & Hover1 & Hhand1).
    assert (Ho : is_success o = true).
    { apply make_move_inv in Hm.
      destruct Hm as [([Hr|[Hr|Hr]] & _)|(_ & _ & _ & Hrest')];
        [congruence|contradiction|congruence|].
      cbv zeta in Hrest'. destruct Hrest' as (_ & -> & _). reflexivity. }
    assert (Hperm' : Permutation (map fst rest)
                                 (remove_first p (current_pieces s))).
    { apply Permutation_cons_inv with (a := p).
      cbn [map fst] in Hperm. rewrite Hperm.
      now apply remove_first_perm. }
    destruct rest as [|[q qpos] rest'].
    + left. exists [o], s1. cbn [play bind forallb List.length].
      rewrite Ho. inversion Hrest; subst. repeat split. assumption.
    + assert (Hne : remove_first p (current_pieces s) <> []).
      { intros He. rewrite He in Hperm'.
        apply Permutation_length in Hperm'. discriminate. }
      destruct (remove_first p (current_pieces s)) as [|r rs] eqn:Hrem;
        [contradiction|].
      rewrite <- Hb1 in Hrest. rewrite <- Hhand1 in Hperm'.
      assert (Hg1 : game_over s1 = false).
      { rewrite Hover1. inversion Hrest; subst.
        eapply (not_stuck g s1 q qpos); [|eassumption].
        eapply Permutation_in; [exact Hperm'|]. now left. }
      destruct (IH s1 b' Hrest Hperm' Hg1)
        as [(os & s' & Hp & Hall & Hlen & Hb)|[Hp|Hp]].
      * left. exists (o :: os), s'. rewrite Hp. cbn [bind forallb List.length].
        rewrite Ho, Hall, Hlen. repeat split. assumption.
      * right. left. rewrite Hp. reflexivity.
      * right. right. rewrite Hp. reflexivity.
Qed.

(** X17. What the solver finds, the engine accepts. When [get_solution]
    returns a sequence for a session that is not over, playing that
    sequence move by move with [make_move] meets no rejection: every call
    succeeds, the sequence uses each held piece once, and no call waits on
    the guaranteed deal. Only [int()] on a score increment that is no
    longer finite can interrupt the run. *)
Theorem solution_is_accepted_by_make_move (fuel : nat) (rnd : Random)
  (g : Config) (s : State) (ms : list Move) :
  (3 <= fuel)%nat -> game_over s = false ->
  get_solution g s = Some ms ->
  Permutation (current_pieces s) (map fst ms)
  /\ ((exists os s',
          play fuel rnd g s ms = Ret (os, s')
          /\ forallb is_success os = true
          /\ List.length os = List.length (current_pieces s))
      \/ play fuel rnd g s ms = Raise OverflowError
      \/ play fuel rnd g s ms = Raise ValueError).
Proof.
  intros Hf Hg Hsol.
  destruct (proj1 (get_solution_search g s) ms Hsol) as (cs & Hsolves & _).
  pose proof (solves_perm _ _ _ _ _ Hsolves) as Hperm.
  destruct (solves_plays _ _ _ _ _ Hsolves) as (b' & Hplays).
  split; [assumption|].
  destruct (play_plays fuel rnd g Hf ms s b' Hplays
              (Permutation_sym Hperm) Hg)
    as [(os & s' & Hp & Hall & Hlen & _)|[Hp|Hp]]; [left|tauto|tauto].
  exists os, s'. repeat split; try assumption.
  rewrite Hlen, (Permutation_length Hperm), length_map. reflexivity.
Qed.

Lemma solution_is_accepted_by_make_move_witness :
  Permutation (current_pieces bars_session)
    (map fst [(Pc.line4h, (0, 0)); (Pc.line4h, (4, 0)); (Pc.line4h, (0, 0))])
  /\ ((exists os s',
          play 3 keep_all g8 bars_session
            [(Pc.line4h, (0, 0)); (Pc.line4h, (4, 0)); (Pc.line4h, (0, 0))]
          = Ret (os, s')
          /\ forallb is_success os = true
          /\ List.length os = List.length (current_pieces bars_session))
      \/ play 3 keep_all g8 bars_session
           [(Pc.line4h, (0, 0)); (Pc.line4h, (4, 0)); (Pc.line4h, (0, 0))]
         = Raise OverflowError
      \/ play 3 keep_all g8 bars_session
           [(Pc.line4h, (0, 0)); (Pc.line4h, (4, 0)); (Pc.line4h, (0, 0))]
         = Raise ValueError).
Proof.
  apply (solution_is_accepted_by_make_move 3 keep_all g8 bars_session).
  - lia.
  - reflexivity.
  - lazy. reflexivity.
Defined.

Lemma plays_solves (g : Config) (ms : list Move) :
  forall (b b' : Z) (pieces : list Piece),
    plays g b ms b' -> Permutation (map fst ms) pieces ->
    exists cs, solves g b pieces cs ms.
Proof.
  induction ms as [|[p pos] rest IH]; intros b b' pieces Hplays Hperm.
  - apply Permutation_nil in Hperm. subst pieces.
    exists []. constructor.
  - inversion Hplays as [|b0 p0 pos0 rest0 b0' Hv Hrest]; subst.
    assert (Hin : In p pieces).
    { eapply Permutation_in; [exact Hperm|]. now left. }
    apply In_nth_error in Hin. destruct Hin as [i Hi].
    assert (Hperm' : Permutation (map fst rest) (pop i pieces)).
    { apply Permutation_cons_inv with (a := p).
      cbn [map fst] in Hperm. rewrite Hperm. now apply pop_perm. }
    destruct (IH _ _ _ Hrest Hperm') as [cs Hcs].
    exists ((i, pos) :: cs). now constructor.
Qed.

(** X18. The guaranteed deal keeps its promise to the solver: whenever
    some piece of the catalog has a legal placement on the board and the
    deal returns, [get_solution] run on the session as dealt finds a
    sequence that places all three pieces. *)
Theorem guaranteed_deal_is_solvable (fuel : nat) (rnd : Random) (g : Config)
  (s s' : State) :
  (exists p pos, is_valid_move g (board s) p pos = true) ->
  _guaranteed_deal_new_pieces fuel rnd g s = Ret s' ->
  exists ms, get_solution g s' = Some ms
             /\ List.length ms = 3%nat.
Proof.
  intros (p & pos & Hv) Hdeal.
  destruct (guaranteed_deal_sound g s s' rnd fuel
              (valid_has_empty g (board s) p pos Hv) Hdeal)
    as (moves & b' & Hlen & Hperm & Hplays & Hb).
  rewrite <- Hb in Hplays.
  destruct (plays_solves g moves _ _ _ Hplays Hperm) as [cs Hsolves].
  destruct (get_solution g s') as [ms|] eqn:Hsol.
  - exists ms. split; [reflexivity|].
    destruct (proj1 (get_solution_search g s') ms Hsol) as (cs' & Hs' & _).
    apply solves_perm in Hs'. apply Permutation_length in Hs'.
    rewrite length_map in Hs'. lia.
  - exfalso. exact (proj1 (proj2 (get_solution_search g s')) Hsol _ _ Hsolves).
Qed.

Lemma guaranteed_deal_is_solvable_witness :
  exists ms,
    get_solution g8
      (set_current_pieces tight_session [Pc.line2h; Pc.line3h; Pc.line5h])
    = Some ms
    /\ List.length ms = 3%nat.
Proof.
  apply (guaranteed_deal_is_solvable 3 tight_random g8 tight_session).
  - exists Pc.line2h, (0, 0). vm_compute. reflexivity.
  - vm_compute. reflexivity.
Defined.

(** * Calling [Solver.solve] *)

(** [self.solution] is falsy. *)
Definition cache_empty (sv : Solver) : Prop :=
  solution sv = None \/ solution sv = Some [].

(** One call of [solve] per game state of the list, in order. *)
Fixpoint solve_each (g : Config) (states : list State) (sv : Solver)
  : list (access_exn + Move) * Solver :=
  match states with
  | [] => ([], sv)
  | s :: rest =>
      let '(r, sv1) := solve g s sv in
      let '(rs, sv2) := solve_each g rest sv1 in
      (r :: rs, sv2)
  end.

(** A caller that asks the solver for a move and plays it, [n] times over
    (the turn of the bot loop): the outcomes, the session and the solver
    at the end. An exception of the solver ends the run at once, and so
    does one of [make_move]. *)
Fixpoint bot_turns (n : nat) (fuel : nat) (rnd : Random) (g : Config)
  (s : State) (sv : Solver)
  : access_exn + run (list Outcome * (State * Solver)) :=
  match n with
  | O => inr (Ret ([], (s, sv)))
  | S n' =>
      match solve g s sv with
      | (inl e, _) => inl e
      | (inr (piece, position), sv1) =>
          match make_move fuel rnd g s piece position with
          | Ret (o, s1) =>
              match bot_turns n' fuel rnd g s1 sv1 with
              | inr (Ret (os, end_state)) => inr (Ret (o :: os, end_state))
              | other => other
              end
          | Raise e => inr (Raise e)
          | Timeout => inr Timeout
          end
      end
  end.

Lemma solve_cached (g : Config) (s : State) (m : Move) (rest : list Move) :
  solve g s (mkSolver (Some (m :: rest))) = (inr m, mkSolver (Some rest)).
Proof. reflexivity. Qed.

Lemma solve_each_cached (g : Config) (states : list State) :
  forall ms : list Move,
    (List.length states <= List.length ms)%nat ->
    solve_each g states (mkSolver (Some ms))
    = (map inr (firstn (List.length states) ms),
       mkSolver (Some (skipn (List.length states) ms))).
Proof.
  induction states as [|s states IH]; intros ms Hl; [reflexivity|].
  destruct ms as [|m ms]; [cbn in Hl; lia|].
  cbn [solve_each List.length firstn skipn map]. rewrite solve_cached.
  rewrite IH by (cbn in Hl; lia). reflexivity.
Qed.

Lemma solve_searches (g : Config) (s : State) (sv : Solver) :
  cache_empty sv ->
  solve g s sv
  = match get_solution g s with
    | None => (inl AttributeError, mkSolver None)
    | Some [] => (inl IndexError, mkSolver (Some []))
    | Some (next_move :: rest) => (inr next_move, mkSolver (Some rest))
    end.
Proof. unfold solve. intros [-> | ->]; reflexivity. Qed.

(** X19. The solver searches once and then replays. Called with an empty
    [self.solution] on a game for which [get_solution] finds the sequence
    [ms], [solve] returns the first move of [ms]; the calls that follow
    return the next moves of [ms] in order, one each, whatever state the
    game is in by then, and when all of [ms] has been handed out
    [self.solution] is empty again. *)
Theorem solve_replays_its_solution (g : Config) (s : State)
  (later : list State) (sv : Solver) (ms : list Move) :
  cache_empty sv -> get_solution g s = Some ms ->
  (List.length later < List.length ms)%nat ->
  solve_each g (s :: later) sv
  = (map inr (firstn (S (List.length later)) ms),
     mkSolver (Some (skipn (S (List.length later)) ms))).
Proof.
  intros Hc Hsol Hl. cbn [solve_each]. rewrite (solve_searches g s sv Hc), Hsol.
  destruct ms as [|m ms]; [cbn in Hl; lia|].
  rewrite solve_each_cached by (cbn in Hl; lia). reflexivity.
Qed.

Lemma solve_replays_its_solution_witness :
  solve_each g8 [bars_session; tight_session] Solver_init
  = (map inr (firstn 2 [(Pc.line4h, (0, 0)); (Pc.line4h, (4, 0));
                         (Pc.line4h, (0, 0))]),
     mkSolver (Some (skipn 2 [(Pc.line4h, (0, 0)); (Pc.line4h, (4, 0));
                              (Pc.line4h, (0, 0))]))).
Proof.
  apply (solve_replays_its_solution g8 bars_session [tight_session]
           Solver_init).
  - right. reflexivity.
  - lazy. reflexivity.
  - cbn. lia.
Defined.

(** X20. What [solve] does when it has to search. With an empty
    [self.solution]: it raises [AttributeError] exactly when no choice of
    order and positions places all the held pieces, leaving
    [self.solution] set to [None]; it raises [IndexError] exactly when the
    hand is empty; in every other case it returns a move whose piece is
    held and whose placement is valid on the live board. *)
Theorem solve_on_empty_cache (g : Config) (s : State) (sv : Solver) :
  cache_empty sv ->
  (fst (solve g s sv) = inl AttributeError
   <-> forall cs ms, ~ solves g (board s) (current_pieces s) cs ms)
  /\ (fst (solve g s sv) = inl AttributeError ->
      solution (snd (solve g s sv)) = None)
  /\ (fst (solve g s sv) = inl IndexError <-> current_pieces s = [])
  /\ (forall p pos, fst (solve g s sv) = inr (p, pos) ->
        In p (current_pieces s)
        /\ is_valid_move g (board s) p pos = true).
Proof.
  intros Hc. rewrite (solve_searches g s sv Hc).
  pose proof (get_solution_search g s) as [Hsome Hnone].
  destruct (get_solution g s) as [[|[q qpos] rest]|] eqn:Hsol; cbn [fst snd].
  - destruct (Hsome [] eq_refl) as (cs & Hsolves & _).
    pose proof (solves_perm _ _ _ _ _ Hsolves) as Hperm.
    apply Permutation_sym, Permutation_nil in Hperm.
    split; [|split; [discriminate|split; [tauto|discriminate]]].
    split; [discriminate|]. intros Hno. exfalso. eapply Hno. exact Hsolves.
  - destruct (Hsome _ eq_refl) as (cs & Hsolves & _).
    pose proof (solves_perm _ _ _ _ _ Hsolves) as Hperm.
    split; [|split; [discriminate|split]].
    + split; [discriminate|]. intros Hno. exfalso. eapply Hno. exact Hsolves.
    + split; [discriminate|]. intros He. rewrite He in Hperm.
      apply Permutation_nil in Hperm. discriminate.
    + intros p pos Heq. inversion Heq; subst q qpos. split.
      * eapply Permutation_in; [apply Permutation_sym; exact Hperm|].
        now left.
      * inversion Hsolves; subst. assumption.
  - split; [|split; [reflexivity|split; [|discriminate]]].
    + split; [intros _; now apply Hnone|reflexivity].
    + split; [discriminate|]. intros He. exfalso.
      apply (proj1 Hnone eq_refl [] []). rewrite He. constructor.
Qed.

Lemma solve_on_empty_cache_witness :
  In Pc.line4h (current_pieces bars_session)
  /\ is_valid_move g8 (board bars_session) Pc.line4h (0, 0) = true.
Proof.
  assert (Hc : cache_empty Solver_init) by (right; reflexivity).
  apply (proj2 (proj2 (proj2 (solve_on_empty_cache g8 bars_session
                                Solver_init Hc))) Pc.line4h (0, 0)).
  lazy. reflexivity.
Defined.

Lemma bot_turns_cached (fuel : nat) (rnd : Random) (g : Config) :
  forall (ms : list Move) (s : State),
    bot_turns (List.length ms) fuel rnd g s (mkSolver (Some ms))
    = inr (match play fuel rnd g s ms with
           | Ret (os, s') => Ret (os, (s', mkSolver (Some [])))
           | Raise e => Raise e
           | Timeout => Timeout
           end).
Proof.
  induction ms as [|[p pos] rest IH]; intros s; [reflexivity|].
  cbn [List.length bot_turns play]. rewrite solve_cached.
  destruct (make_move fuel rnd g s p pos) as [[o s1]| |]; cbn [bind];
    try reflexivity.
  rewrite IH.
  destruct (play fuel rnd g s1 rest) as [[os s']| |]; reflexivity.
Qed.

(** X21. A bot that alternates [solve] and [make_move] plays a whole hand
    without a rejected move. From a session that is not over and a solver
    with an empty [self.solution], when the search succeeds, as many
    turns as there are pieces in hand each place one piece with status
    success, and [self.solution] is empty again at the end, so that the
    next turn searches on the hand as it is then. Only [int()] on a
    non-finite score increment can interrupt the run. *)
Theorem bot_plays_whole_hand (fuel : nat) (rnd : Random) (g : Config)
  (s : State) (sv : Solver) (ms : list Move) :
  (3 <= fuel)%nat -> game_over s = false -> cache_empty sv ->
  get_solution g s = Some ms ->
  (exists os s' sv',
      bot_turns (List.length (current_pieces s)) fuel rnd g s sv
      = inr (Ret (os, (s', sv')))
      /\ cache_empty sv'
      /\ forallb is_success os = true
      /\ List.length os = List.length (current_pieces s))
  \/ bot_turns (List.length (current_pieces s)) fuel rnd g s sv
     = inr (Raise OverflowError)
  \/ bot_turns (List.length (current_pieces s)) fuel rnd g s sv
     = inr (Raise ValueError).
Proof.
  intros Hf Hg Hc Hsol.
  destruct (proj1 (get_solution_search g s) ms Hsol) as (cs & Hsolves & _).
  pose proof (solves_perm _ _ _ _ _ Hsolves) as Hperm.
  destruct (solves_plays _ _ _ _ _ Hsolves) as (b' & Hplays).
  assert (Hlen : List.length (current_pieces s) = List.length ms)
    by (rewrite (Permutation_length Hperm), length_map; reflexivity).
  rewrite Hlen. destruct ms as [|m rest].
  { left. exists [], s, sv. cbn. tauto. }
  assert (Hsame : bot_turns (List.length (m :: rest)) fuel rnd g s sv
                  = bot_turns (List.length (m :: rest)) fuel rnd g s
                      (mkSolver (Some (m :: rest)))).
  { cbn [List.length bot_turns].
    rewrite (solve_searches g s sv Hc), Hsol, solve_cached. reflexivity. }
  rewrite Hsame, bot_turns_cached.
  destruct (play_plays fuel rnd g Hf (m :: rest) s b' Hplays
              (Permutation_sym Hperm) Hg)
    as [(os & s' & Hp & Hall & Hl & _)|[Hp|Hp]]; rewrite Hp.
  - left. exists os, s', (mkSolver (Some [])).
    repeat split; try assumption. right. reflexivity.
  - right. left. reflexivity.
  - right. right. reflexivity.
Qed.

Lemma bot_plays_whole_hand_witness :
  (exists os s' sv',
      bot_turns (List.length (current_pieces bars_session)) 3 keep_all g8
        bars_session Solver_init
      = inr (Ret (os, (s', sv')))
      /\ cache_empty sv'
      /\ forallb is_success os = true
      /\ List.length os = List.length (current_pieces bars_session))
  \/ bot_turns (List.length (current_pieces bars_session)) 3 keep_all g8
       bars_session Solver_init
     = inr (Raise OverflowError)
  \/ bot_turns (List.length (current_pieces bars_session)) 3 keep_all g8
       bars_session Solver_init
     = inr (Raise ValueError).
Proof.
  apply (bot_plays_whole_hand 3 keep_all g8 bars_session Solver_init
           [(Pc.line4h, (0, 0)); (Pc.line4h, (4, 0)); (Pc.line4h, (0, 0))]).
  - lia.
  - reflexivity.
  - right. reflexivity.
  - lazy. reflexivity.
Defined.

(** * Counting cells *)

Lemma bit_count_double (z : Z) : bit_count (2 * z) = bit_count z.
Proof. destruct z; reflexivity. Qed.

Lemma bit_count_shiftl (a n : Z) :
  0 <= n -> bit_count (Z.shiftl a n) = bit_count a.
Proof.
  intros Hn. rewrite Z.shiftl_mul_pow2 by assumption.
  revert n Hn. apply natlike_ind.
  - now rewrite Z.mul_1_r.
  - intros n Hn IH. rewrite Z.pow_succ_r by assumption.
    replace (a * (2 * 2 ^ n)) with (2 * (a * 2 ^ n)) by ring.
    now rewrite bit_count_double.
Qed.

Lemma ndouble_zero (n : N) : Pos.Ndouble n = 0%N -> n = 0%N.
Proof. destruct n; [reflexivity|discriminate]. Qed.

Lemma popcount_lor (p : positive) :
  forall q, Pos.land p q = 0%N ->
            popcount_pos (Pos.lor p q) = popcount_pos p + popcount_pos q.
Proof.
  induction p as [p IH|p IH|]; intros [q|q|];
    cbn [popcount_pos Pos.lor Pos.land]; intros H;
    try discriminate; try lia;
    try (apply ndouble_zero in H; rewrite (IH q H); lia).
Qed.

Lemma bit_count_lor (a b : Z) :
  0 <= a -> 0 <= b -> Z.land a b = 0 ->
  bit_count (Z.lor a b) = bit_count a + bit_count b.
Proof.
  intros Ha Hb H. destruct a as [|p|p], b as [|q|q]; cbn; try lia.
  cbn in H. apply popcount_lor.
  destruct (Pos.land p q); [reflexivity|discriminate].
Qed.

Lemma small_bits (a n i : Z) :
  0 <= a < 2 ^ n -> n <= i -> Z.testbit a i = false.
Proof.
  intros Ha Hi. destruct (Z.eq_dec a 0) as [->|Hnz]; [apply Z.bits_0|].
  apply Z.bits_above_log2; [lia|].
  assert (Hlog : Z.log2 a < n) by (apply Z.log2_lt_pow2; lia). lia.
Qed.

Lemma range_succ (k : nat) :
  range (Z.of_nat (S k)) = range (Z.of_nat k) ++ [Z.of_nat k].
Proof.
  unfold range. rewrite !Nat2Z.id, seq_S, map_app. reflexivity.
Qed.

(** Rows of at most [w] bits laid out at a stride of [W >= w] bits do not
    overlap: the layout has as many ones as the rows together. *)
Lemma scaled_rows (W w : Z) (rb : Z -> Z) :
  0 <= w <= W -> (forall r, 0 <= rb r < 2 ^ w) ->
  forall k : nat,
    0 <= fold_left (fun m r => Z.lor m (Z.shiftl (rb r) (r * W)))
                   (range (Z.of_nat k)) 0
      < 2 ^ (Z.of_nat k * W)
    /\ bit_count (fold_left (fun m r => Z.lor m (Z.shiftl (rb r) (r * W)))
                            (range (Z.of_nat k)) 0)
       = fold_left (fun t r => t + bit_count (rb r)) (range (Z.of_nat k)) 0.
Proof.
  intros Hw Hrb. induction k as [|k [IHb IHc]].
  - cbn. split; [lia|reflexivity].
  - rewrite range_succ, !fold_left_app. cbn [fold_left].
    set (acc := fold_left (fun m r => Z.lor m (Z.shiftl (rb r) (r * W)))
                          (range (Z.of_nat k)) 0) in *.
    set (n := Z.of_nat k) in *.
    assert (Hn : 0 <= n) by (subst n; lia).
    assert (Hs : 0 <= Z.shiftl (rb n) (n * W)).
    { apply Z.shiftl_nonneg. apply Hrb. }
    assert (Hdis : Z.land acc (Z.shiftl (rb n) (n * W)) = 0).
    { apply Z.bits_inj'. intros i Hi. rewrite Z.land_spec, Z.bits_0.
      destruct (Z.lt_ge_cases i (n * W)) as [Hlt|Hge].
      - rewrite Z.shiftl_spec_low by assumption. apply andb_false_r.
      - rewrite (small_bits acc (n * W) i IHb Hge). reflexivity. }
    split.
    + assert (Hsum : Z.lor acc (Z.shiftl (rb n) (n * W))
                     = acc + Z.shiftl (rb n) (n * W)).
      { rewrite <- Z.lxor_lor by assumption.
        symmetry. now apply Z.add_nocarry_lxor. }
      rewrite Hsum. rewrite Z.shiftl_mul_pow2 by nia.
      replace (Z.of_nat (S k) * W) with (n * W + W) by (subst n; lia).
      rewrite Z.pow_add_r by nia.
      pose proof (Hrb n) as Hr.
      assert (Hpw : 2 ^ w <= 2 ^ W) by (apply Z.pow_le_mono_r; lia).
      assert (Hp : 0 < 2 ^ (n * W)) by (apply Z.pow_pos_nonneg; nia).
      nia.
    + rewrite bit_count_lor by (try assumption; lia).
      rewrite bit_count_shiftl by nia. rewrite IHc. reflexivity.
Qed.

Lemma compact_rows_count (p : Piece) :
  fold_left
    (fun t r =>
       t + bit_count (Z.land (Z.shiftr (name_to_pieces p)
                                       (r * fst (name_to_size p)))
                             (Z.shiftl 1 (fst (name_to_size p)) - 1)))
    (range (snd (name_to_size p))) 0
  = bit_count (name_to_pieces p).
Proof. destruct p; reflexivity. Qed.

Lemma piece_mask_count (g : Config) (p : Piece) :
  fst (name_to_size p) <= width g ->
  0 <= name_to_piece_masks g p
  /\ bit_count (name_to_piece_masks g p) = bit_count (name_to_pieces p).
Proof.
  intros Hw. pose proof (piece_size_pos p) as [Hw1 Hh1].
  pose proof (compact_rows_count p) as Hrows.
  unfold name_to_piece_masks.
  destruct (name_to_size p) as [w h]. cbn [fst snd] in *.
  assert (Hrb : forall r, 0 <= Z.land (Z.shiftr (name_to_pieces p) (r * w))
                                      (Z.shiftl 1 w - 1) < 2 ^ w).
  { intros r. rewrite ones_shiftl, Z.land_ones by lia.
    apply Z.mod_pos_bound. apply Z.pow_pos_nonneg; lia. }
  destruct (scaled_rows (width g) w
              (fun r => Z.land (Z.shiftr (name_to_pieces p) (r * w))
                               (Z.shiftl 1 w - 1))
              ltac:(lia) Hrb (Z.to_nat h)) as [Hb Hc].
  rewrite Z2Nat.id in Hb, Hc by lia.
  split; [lia|]. rewrite Hc. exact Hrows.
Qed.

Lemma placement_count (g : Config) (b : Z) (p : Piece) (pos : Position) :
  0 <= b -> is_valid_move g b p pos = true ->
  bit_count (Z.lor b (get_piece_mask g p pos))
  = bit_count b + bit_count (name_to_pieces p).
Proof.
  intros Hb Hv. destruct pos as [x y]. pose proof Hv as Hv0.
  apply is_valid_move_spec in Hv0.
  destruct Hv0 as (Hx & Hy & Hxw & Hyh & Hland).
  pose proof (piece_size_pos p) as [Hw1 Hh1].
  destruct (piece_mask_count g p ltac:(lia)) as [Hm0 Hmc].
  rewrite bit_count_lor; [|assumption| |assumption].
  - unfold get_piece_mask. rewrite bit_count_shiftl by nia.
    now rewrite Hmc.
  - unfold get_piece_mask. now apply Z.shiftl_nonneg.
Qed.

(** X22. The flat score counts cells. In every state of a session, the
    piece an accepted move places adds exactly [bit_count] of its compact
    shape to the number of occupied cells of the board, the very number
    [make_move] adds to the score; so when the move clears no line, the
    score gained equals the number of cells the board gained. *)
Theorem score_counts_cells (fuel : nat) (rnd : Random) (g : Config)
  (s : State) (p : Piece) (pos : Position) (b : Z) (sc : option Z) (n : Z)
  (over : bool) (s' : State) :
  reachable g s ->
  make_move fuel rnd g s p pos = Ret (Success b sc n over, s') ->
  bit_count (Z.lor (board s) (get_piece_mask g p pos))
  = bit_count (board s) + bit_count (name_to_pieces p)
  /\ (n = 0 ->
      bit_count (board s') - bit_count (board s) = score s' - score s).
Proof.
  intros Hreach H. pose proof H as H0. apply make_move_inv in H.
  destruct H as [(_ & _ & [msg Hmsg])|(Hg & Hh & Hv & _)]; [discriminate|].
  assert (Hb0 : 0 <= board s).
  { destruct pos as [x y]. pose proof Hv as Hv0.
    apply is_valid_move_spec in Hv0.
    destruct Hv0 as (Hx & Hy & Hxw & Hyh & _).
    pose proof (piece_size_pos p) as [Hw1 Hh1].
    apply (in_extent_bounds g); [nia|].
    now apply reachable_in_extent. }
  pose proof (placement_count g (board s) p pos Hb0 Hv) as Hcount.
  split; [assumption|]. intros ->.
  destruct (make_move_accepted_inv _ _ _ _ _ _ _ _ Hg Hh Hv H0)
    as (s2 & Hst & Hs' & Ho & _).
  inversion Ho as [[Hb Hsc Hn Hov]].
  change (fst (detect_lines g (board (placed g s p pos)))) with
    (fst (detect_lines g (Z.lor (board s) (get_piece_mask g p pos)))) in Hst.
  rewrite <- Hn in Hst.
  unfold score_transition in Hst. cbn [Z.gtb Z.compare] in Hst.
  inversion Hst; subst s2; clear Hst.
  rewrite Hs'. unfold placed. cbn. rewrite Hcount. lia.
Qed.

Lemma score_counts_cells_witness :
  bit_count (Z.lor (board (mkState 0 0 (-1) 3 0%float 0%float false
                             [Pc.line4h; Pc.sq1; Pc.sq2]))
                   (get_piece_mask g8 Pc.line4h (0, 0)))
  = bit_count (board (mkState 0 0 (-1) 3 0%float 0%float false
                        [Pc.line4h; Pc.sq1; Pc.sq2]))
    + bit_count (name_to_pieces Pc.line4h)
  /\ (0 = 0 ->
      bit_count (board (mkState 15 4 (-1) 2 0%float 0%float false
                          [Pc.sq1; Pc.sq2]))
      - bit_count (board (mkState 0 0 (-1) 3 0%float 0%float false
                            [Pc.line4h; Pc.sq1; Pc.sq2]))
      = score (mkState 15 4 (-1) 2 0%float 0%float false [Pc.sq1; Pc.sq2])
        - score (mkState 0 0 (-1) 3 0%float 0%float false
                   [Pc.line4h; Pc.sq1; Pc.sq2])).
Proof.
  apply (score_counts_cells 3 keep_all g8
           (mkState 0 0 (-1) 3 0%float 0%float false
              [Pc.line4h; Pc.sq1; Pc.sq2])
           Pc.line4h (0, 0) 15 (Some 4) 0 false
           (mkState 15 4 (-1) 2 0%float 0%float false [Pc.sq1; Pc.sq2])).
  - apply (reach_new g8 (8, 8)
             (mkRandom (shuffle_to [Pc.line4h; Pc.sq1; Pc.sq2]) keep keep)).
    vm_compute. reflexivity.
  - vm_compute. reflexivity.
Defined.

Set Warnings "-inexact-float".

(** * The score never goes down *)

(** A float that is not a negative finite number: a zero, a positive
    finite number, an infinity or a NaN. *)
Definition sf_not_negative (f : spec_float) : Prop :=
  match f with
  | S754_finite s _ _ => s = false
  | _ => True
  end.

Definition not_negative (x : float) : Prop := sf_not_negative (Prim2SF x).

Lemma binary_round_aux_not_negative (prec emax m e : Z) (l : location) :
  sf_not_negative (binary_round_aux prec emax false m e l).
Proof.
  unfold binary_round_aux.
  destruct (shr_fexp prec emax m e l) as [mrs1 e1].
  destruct (shr_fexp prec emax _ e1 loc_Exact) as [mrs2 e2].
  destruct (shr_m mrs2); cbn; [trivial| |trivial].
  destruct (e2 <=? emax - prec); cbn; trivial.
Qed.

Lemma add_not_negative (x y : float) :
  not_negative x -> not_negative y -> not_negative (x + y)%float.
Proof.
  unfold not_negative. rewrite add_spec. unfold SF64add, SFadd.
  destruct (Prim2SF x) as [sx|sx| |sx mx ex],
           (Prim2SF y) as [sy|sy| |sy my ey];
    cbn [sf_not_negative]; intros Hx Hy; subst; trivial.
  - destruct sx, sy; cbn; trivial.
  - destruct sx, sy; cbn; trivial.
  - cbn [cond_Zopp]. unfold binary_normalize.
    destruct (Z.pos _ + Z.pos _) as [|m|m] eqn:Hm; [cbn; trivial| |lia].
    unfold binary_round. destruct (shl_align m _ _) as [mz ez].
    apply binary_round_aux_not_negative.
Qed.

Lemma mul_not_negative (x y : float) :
  not_negative x -> not_negative y -> not_negative (x * y)%float.
Proof.
  unfold not_negative. rewrite mul_spec. unfold SF64mul, SFmul.
  destruct (Prim2SF x) as [sx|sx| |sx mx ex],
           (Prim2SF y) as [sy|sy| |sy my ey];
    cbn [sf_not_negative]; intros Hx Hy; subst; trivial.
  cbn [xorb]. apply binary_round_aux_not_negative.
Qed.

Lemma int_of_float_not_negative (f : float) (z : Z) :
  not_negative f -> int_of_float f = Ret z -> 0 <= z.
Proof.
  unfold not_negative, int_of_float.
  destruct (Prim2SF f) as [s|s| |s m e]; cbn [sf_not_negative];
    intros Hf H; try discriminate.
  - inversion H. lia.
  - subst s. inversion H; subst z.
    destruct (0 <=? e).
    + apply Z.shiftl_nonneg. lia.
    + apply Z.shiftr_nonneg. lia.
Qed.

Lemma multiplier_not_negative (n : Z) :
  not_negative (SCORE_MULTIPLIERS_get n).
Proof.
  assert (H1 : not_negative 1.0%float) by (vm_compute; reflexivity).
  assert (H2 : not_negative 2.0%float) by (vm_compute; reflexivity).
  assert (H6 : not_negative 6.0%float) by (vm_compute; reflexivity).
  assert (H12 : not_negative 12.0%float) by (vm_compute; reflexivity).
  assert (H20 : not_negative 20.0%float) by (vm_compute; reflexivity).
  assert (H30 : not_negative 30.0%float) by (vm_compute; reflexivity).
  unfold SCORE_MULTIPLIERS_get.
  destruct n as [|q|q]; try assumption.
  do 3 (try (destruct q as [q|q|]); try assumption).
Qed.

Lemma next_acceleration_not_negative (c : Z) (a : float) :
  not_negative a -> not_negative (next_acceleration c a).
Proof.
  intros Ha.
  assert (H0 : not_negative BASE_SCORE_ACCELERATION)
    by (vm_compute; reflexivity).
  assert (H5 : not_negative (a * 4)%float)
    by (apply mul_not_negative; [assumption|vm_compute; reflexivity]).
  assert (H6 : not_negative (a * 0.375)%float)
    by (apply mul_not_negative; [assumption|vm_compute; reflexivity]).
  assert (H10 : not_negative (a * 4.6666)%float)
    by (apply mul_not_negative; [assumption|vm_compute; reflexivity]).
  assert (H11 : not_negative (a * 0.2857)%float)
    by (apply mul_not_negative; [assumption|vm_compute; reflexivity]).
  unfold next_acceleration.
  destruct c as [|q|q]; try assumption.
  do 4 (try (destruct q as [q|q|]); try assumption).
Qed.

Lemma score_transition_score (s s2 : State) (n c : Z) :
  not_negative (score_increment s) ->
  not_negative (score_incremental_acceleration s) ->
  score_transition s n c = Ret s2 ->
  score s <= score s2
  /\ not_negative (score_increment s2)
  /\ not_negative (score_incremental_acceleration s2).
Proof.
  intros Hi Ha. rewrite score_transition_reset_dead.
  unfold score_transition_no_reset.
  destruct (n >? 0); [|intros H; inversion H; cbn; repeat split; try lia;
                        assumption].
  cbv zeta. rewrite accelerate_next.
  cbn [score score_increment score_incremental_acceleration combo
       set_score set_score_increment set_score_incremental_acceleration
       set_combo set_not_combo_counter set_board].
  assert (Ha' : not_negative
                  (next_acceleration (combo s + 1)
                     (score_incremental_acceleration s)))
    by now apply next_acceleration_not_negative.
  assert (Hi' : not_negative
                  (score_increment s
                   + next_acceleration (combo s + 1)
                       (score_incremental_acceleration s))%float)
    by now apply add_not_negative.
  destruct (int_of_float _) as [z| |] eqn:Hz; cbn [bind]; try discriminate.
  intros H. inversion H; subst s2; clear H. cbn.
  apply int_of_float_not_negative in Hz;
    [|apply mul_not_negative; [assumption|apply multiplier_not_negative]].
  repeat split; try assumption. lia.
Qed.

Lemma make_move_score (fuel : nat) (rnd : Random) (g : Config) (s : State)
  (p : Piece) (pos : Position) (o : Outcome) (s' : State) :
  not_negative (score_increment s) ->
  not_negative (score_incremental_acceleration s) ->
  make_move fuel rnd g s p pos = Ret (o, s') ->
  score s <= score s'
  /\ (is_success o = true ->
      score s + bit_count (name_to_pieces p) <= score s')
  /\ not_negative (score_increment s')
  /\ not_negative (score_incremental_acceleration s').
Proof.
  intros Hi Ha H. pose proof H as H0. apply make_move_inv in H.
  destruct H as [(_ & -> & [msg ->])|(Hg & Hh & Hv & _)].
  { cbn. repeat split; try assumption; [lia|discriminate]. }
  destruct (make_move_accepted_inv _ _ _ _ _ _ _ _ Hg Hh Hv H0)
    as (s2 & Hst & Hs' & _).
  apply score_transition_score in Hst; [|assumption|assumption].
  unfold placed in Hst.
  cbn [score score_increment score_incremental_acceleration set_score
       set_board] in Hst.
  destruct Hst as (Hsc & Hi2 & Ha2).
  pose proof (piece_catalog_bits p) as Hbits.
  rewrite Hs'. cbn. repeat split; try assumption; lia.
Qed.

Lemma reachable_not_negative (g : Config) (s : State) :
  reachable g s ->
  0 <= score s /\ not_negative (score_increment s)
  /\ not_negative (score_incremental_acceleration s).
Proof.
  induction 1 as [bs rnd s0 Hnew|fuel rnd s p pos o s' Hr IH Hm].
  - apply new_session_state in Hnew. destruct Hnew as (_ & _ & _ & ->).
    cbn. repeat split; try lia; vm_compute; trivial.
  - destruct IH as (Hs & Hi & Ha).
    destruct (make_move_score _ _ _ _ _ _ _ _ Hi Ha Hm) as (Hle & _ & Hi' & Ha').
    repeat split; try assumption. lia.
Qed.

(** X23. The score of a session never goes down. In every state the
    score is at least 0; a call of [make_move] that returns leaves it at
    least where it was, and an accepted move raises it by at least the
    number of cells of the piece: the line bonus [int(score_increment *
    multiplier)] is never negative, because the increment and its
    acceleration are only ever added to and multiplied by positive
    constants. *)
Theorem score_never_decreases (fuel : nat) (rnd : Random) (g : Config)
  (s : State) (p : Piece) (pos : Position) (o : Outcome) (s' : State) :
  reachable g s ->
  make_move fuel rnd g s p pos = Ret (o, s') ->
  0 <= score s <= score s'
  /\ (is_success o = true ->
      score s + bit_count (name_to_pieces p) <= score s'
      /\ score s < score s').
Proof.
  intros Hr Hm. destruct (reachable_not_negative g s Hr) as (Hs & Hi & Ha).
  destruct (make_move_score _ _ _ _ _ _ _ _ Hi Ha Hm) as (Hle & Hacc & _).
  split; [lia|]. intros Ho. specialize (Hacc Ho).
  pose proof (piece_catalog_bits p). lia.
Qed.

Lemma score_never_decreases_witness :
  0 <= score (mkState 0 0 (-1) 3 0%float 0%float false
                [Pc.line4h; Pc.sq1; Pc.sq2])
    <= score (mkState 15 4 (-1) 2 0%float 0%float false [Pc.sq1; Pc.sq2])
  /\ (is_success (Success 15 (Some 4) 0 false) = true ->
      score (mkState 0 0 (-1) 3 0%float 0%float false
               [Pc.line4h; Pc.sq1; Pc.sq2])
      + bit_count (name_to_pieces Pc.line4h)
      <= score (mkState 15 4 (-1) 2 0%float 0%float false [Pc.sq1; Pc.sq2])
      /\ score (mkState 0 0 (-1) 3 0%float 0%float false
                  [Pc.line4h; Pc.sq1; Pc.sq2])
         < score (mkState 15 4 (-1) 2 0%float 0%float false
                    [Pc.sq1; Pc.sq2])).
Proof.
  apply (score_never_decreases 3 keep_all g8
           (mkState 0 0 (-1) 3 0%float 0%float false
              [Pc.line4h; Pc.sq1; Pc.sq2])
           Pc.line4h (0, 0)).
  - apply (reach_new g8 (8, 8)
             (mkRandom (shuffle_to [Pc.line4h; Pc.sq1; Pc.sq2]) keep keep)).
    vm_compute. reflexivity.
  - vm_compute. reflexivity.
Defined.

(** * The move of the demonstration loop *)

Lemma dict_set_head (rest : list (Piece * list Position)) (k k0 : Piece)
  (v v0 : list Position) :
  exists rest',
    dict_set ((k0, v0) :: rest) k v
    = (k0, if piece_eqb k k0 then v else v0) :: rest'.
Proof.
  cbn [dict_set]. destruct (piece_eqb k k0) eqn:Hk; [|eauto].
  apply piece_eqb_eq in Hk. subst k0. eauto.
Qed.

Lemma possible_moves_keep_head (g : Config) (b : Z) (l : list Piece) :
  forall (k0 : Piece) (rest : list (Piece * list Position)),
  exists rest',
    fold_left
      (fun possible_moves name =>
         match filter (fun pos => is_valid_move g b name pos) (positions g)
         with
         | [] => possible_moves
         | _ :: _ =>
             dict_set possible_moves name
               (filter (fun pos => is_valid_move g b name pos) (positions g))
         end) l
      ((k0, filter (fun pos => is_valid_move g b k0 pos) (positions g))
         :: rest)
    = (k0, filter (fun pos => is_valid_move g b k0 pos) (positions g))
        :: rest'.
Proof.
  induction l as [|q l IH]; intros k0 rest; cbn [fold_left]; [eauto|].
  destruct (filter (fun pos => is_valid_move g b q pos) (positions g))
    as [|m ms] eqn:Hq; [apply IH|].
  destruct (dict_set_head rest q k0 (m :: ms)
              (filter (fun pos => is_valid_move g b k0 pos) (positions g)))
    as [rest' Hset].
  rewrite Hset. destruct (piece_eqb q k0) eqn:Hk.
  - apply piece_eqb_eq in Hk. subst k0. rewrite <- Hq. apply IH.
  - apply IH.
Qed.

Lemma possible_moves_first (g : Config) (b : Z) (l : list Piece) :
  match find (fun q => negb (dict_is_empty
                               (filter (fun pos => is_valid_move g b q pos)
                                       (positions g)))) l with
  | None =>
      fold_left
        (fun possible_moves name =>
           match filter (fun pos => is_valid_move g b name pos) (positions g)
           with
           | [] => possible_moves
           | _ :: _ =>
               dict_set possible_moves name
                 (filter (fun pos => is_valid_move g b name pos)
                         (positions g))
           end) l [] = []
  | Some q =>
      exists rest',
        fold_left
          (fun possible_moves name =>
             match filter (fun pos => is_valid_move g b name pos)
                          (positions g) with
             | [] => possible_moves
             | _ :: _ =>
                 dict_set possible_moves name
                   (filter (fun pos => is_valid_move g b name pos)
                           (positions g))
             end) l []
        = (q, filter (fun pos => is_valid_move g b q pos) (positions g))
            :: rest'
  end.
Proof.
  induction l as [|q l IH]; cbn [find fold_left]; [reflexivity|].
  destruct (filter (fun pos => is_valid_move g b q pos) (positions g))
    as [|m ms] eqn:Hq; cbn [dict_is_empty negb].
  - exact IH.
  - cbn [dict_set]. rewrite <- Hq. apply possible_moves_keep_head.
Qed.

Lemma find_filter {A : Type} (f : A -> bool) (l : list A) (a : A)
  (t : list A) :
  filter f l = a :: t -> find f l = Some a.
Proof.
  induction l as [|b l IH]; cbn; [discriminate|].
  destruct (f b); [intros H; inversion H; reflexivity|exact IH].
Qed.

Lemma filter_nil_invalid (g : Config) (b : Z) (q : Piece) :
  filter (fun pos => is_valid_move g b q pos) (positions g) = [] ->
  forall pos, is_valid_move g b q pos = false.
Proof.
  intros Hf pos. destruct (is_valid_move g b q pos) eqn:Hv; [|reflexivity].
  assert (Hin : In pos (filter (fun pos => is_valid_move g b q pos)
                               (positions g))).
  { apply filter_In. split; [|assumption].
    eapply valid_in_positions; eassumption. }
  rewrite Hf in Hin. destruct Hin.
Qed.

(** X24. The move the demonstration loop picks is always playable. The
    loop finds no move exactly when no held piece has a valid position;
    otherwise it picks the first piece of the hand that can be placed at
    all, at the position [_can_place_piece] would give for it (the first
    in row-major order), never fails on an empty list, and [make_move]
    accepts the pick whenever the session is not over. *)
Theorem first_possible_move_is_accepted (g : Config) (s : State) :
  (first_possible_move g s = inr None <->
   forall q pos, In q (current_pieces s) ->
                 is_valid_move g (board s) q pos = false)
  /\ first_possible_move g s <> inl IndexError
  /\ first_possible_move g s <> inl AttributeError
  /\ forall p pos,
       first_possible_move g s = inr (Some (p, pos)) ->
       _can_place_piece g (board s) p = Some pos
       /\ (exists before after,
              current_pieces s = before ++ p :: after
              /\ forall q pos', In q before ->
                                is_valid_move g (board s) q pos' = false)
       /\ (game_over s = false ->
           forall fuel rnd, (3 <= fuel)%nat ->
             (exists o s', make_move fuel rnd g s p pos = Ret (o, s')
                           /\ is_success o = true)
             \/ make_move fuel rnd g s p pos = Raise OverflowError
             \/ make_move fuel rnd g s p pos = Raise ValueError).
Proof.
  pose proof (possible_moves_first g (board s) (current_pieces s)) as Hfirst.
  pose proof (possible_moves_empty g s) as Hempty.
  unfold first_possible_move. fold (get_possible_moves g s) in Hfirst.
  destruct (find _ (current_pieces s)) as [q0|] eqn:Hfind.
  - destruct Hfirst as [rest' Hfold]. unfold get_possible_moves in Hfold |- *.
    rewrite Hfold in *.
    apply find_first in Hfind.
    destruct Hfind as (Hq0 & before & after & Hhand & Hbefore).
    destruct (filter (fun pos => is_valid_move g (board s) q0 pos)
                     (positions g)) as [|m ms] eqn:Hq; [discriminate|].
    split; [|split; [discriminate|split; [discriminate|]]].
    + split; [discriminate|]. intros Hno. exfalso.
      assert (Hin : In q0 (current_pieces s))
        by (rewrite Hhand; apply in_or_app; right; now left).
      pose proof (find_filter _ _ _ _ Hq) as Hfm.
      apply find_some in Hfm. destruct Hfm as [_ Hv].
      rewrite (Hno q0 m Hin) in Hv. discriminate.
    + intros p pos Heq. inversion Heq; subst q0 m; clear Heq.
      pose proof (find_filter _ _ _ _ Hq) as Hcan.
      split; [exact Hcan|]. split.
      * exists before, after. split; [assumption|].
        intros q pos' Hin. specialize (Hbefore q Hin).
        apply negb_false_iff in Hbefore.
        apply filter_nil_invalid.
        destruct (filter (fun pos0 => is_valid_move g (board s) q pos0)
                         (positions g)); [reflexivity|discriminate].
      * intros Hg fuel rnd Hf.
        assert (Hin : In p (current_pieces s))
          by (rewrite Hhand; apply in_or_app; right; now left).
        assert (Hv : is_valid_move g (board s) p pos = true)
          by (apply can_place_valid; exact Hcan).
        destruct (make_move_no_timeout fuel rnd g s p pos Hf)
          as [(o & s' & Hm)|[Hm|Hm]]; [left|tauto|tauto].
        exists o, s'. split; [assumption|].
        apply make_move_inv in Hm.
        destruct Hm as [([Hr|[Hr|Hr]] & _)|(_ & _ & _ & Hrest)];
          [congruence|contradiction|congruence|].
        cbv zeta in Hrest. destruct Hrest as (_ & -> & _). reflexivity.
  - unfold get_possible_moves in Hfirst, Hempty |- *. rewrite Hfirst in *.
    split; [|split; [discriminate|split; [discriminate|discriminate]]].
    split; [intros _; now apply Hempty|reflexivity].
Qed.

Set Warnings "-inexact-float".

(** * Two four-cell bars across a row of eight *)

(** ** A session that meets a second bar

    The constructor deals a bar of four, a single cell and a square of
    two; so does the deal that follows the third move. *)
Definition two_bar_random : Random :=
  mkRandom (shuffle_to [Pc.line4h]) (shuffle_to [Pc.line4h]) keep.

(** After the bar at the left of row 0, the single cell at [(0, 7)] and
    the square at [(0, 5)]: no line cleared yet, and a bar in hand. *)
Definition two_bar_state : State :=
  mkState 72905317502943247 9 (-1) 0 0%float 0%float false
          [Pc.line4h; Pc.sq1; Pc.sq2].

Lemma two_bar_state_reachable : reachable g8 two_bar_state.
Proof.
  apply (reach_move g8 3 two_bar_random
           (mkState 72057594037927951 5 (-1) 1 0%float 0%float false
              [Pc.sq2])
           Pc.sq2 (0, 5) (Success 72905317502943247 (Some 9) 0 false));
    [|vm_compute; reflexivity].
  apply (reach_move g8 3 two_bar_random
           (mkState 15 4 (-1) 2 0%float 0%float false [Pc.sq1; Pc.sq2])
           Pc.sq1 (0, 7) (Success 72057594037927951 (Some 5) 0 false));
    [|vm_compute; reflexivity].
  apply (reach_move g8 3 two_bar_random
           (mkState 0 0 (-1) 3 0%float 0%float false
              [Pc.line4h; Pc.sq1; Pc.sq2])
           Pc.line4h (0, 0) (Success 15 (Some 4) 0 false));
    [|vm_compute; reflexivity].
  apply (reach_new g8 (8, 8) two_bar_random). vm_compute. reflexivity.
Qed.

(** ** Lists *)

Lemma filter_map_comm {A B : Type} (f : B -> bool) (h : A -> B)
  (l : list A) :
  filter f (map h l) = map h (filter (fun a => f (h a)) l).
Proof.
  induction l as [|a l IH]; cbn; [reflexivity|].
  destruct (f (h a)); cbn; now rewrite IH.
Qed.

Lemma filter_none {A : Type} (f : A -> bool) (l : list A) :
  (forall x, In x l -> f x = false) -> filter f l = [].
Proof.
  induction l as [|a l IH]; intros H; cbn; [reflexivity|].
  rewrite (H a) by now left. apply IH. intros x Hx. apply H. now right.
Qed.

Lemma filter_unique {A : Type} (f : A -> bool) (l : list A) (a : A) :
  NoDup l -> In a l -> f a = true ->
  (forall x, In x l -> f x = true -> x = a) ->
  filter f l = [a].
Proof.
  induction 1 as [|b l Hnb Hnd IH]; intros Hin Ha Huniq; [destruct Hin|].
  cbn. destruct (f b) eqn:Hb.
  - assert (b = a) by (apply Huniq; [now left|assumption]). subst b.
    f_equal. apply filter_none. intros x Hx.
    destruct (f x) eqn:Hfx; [|reflexivity].
    assert (x = a) by (apply Huniq; [now right|assumption]). subst x.
    contradiction.
  - destruct Hin as [Heq|Hin]; [subst b; congruence|].
    apply IH; [assumption|assumption|].
    intros x Hx. apply Huniq. now right.
Qed.

Lemma remove_first_nodup (p : Piece) (l : list Piece) :
  NoDup l -> ~ In p (remove_first p l).
Proof.
  induction 1 as [|q l Hnq Hnd IH]; cbn; [tauto|].
  destruct (piece_eqb p q) eqn:Hpq.
  - apply piece_eqb_eq in Hpq. now subst q.
  - intros [Heq|Hin]; [|contradiction].
    subst q. rewrite piece_eqb_refl in Hpq. discriminate.
Qed.

(** ** The bar on the board *)

Lemma line4h_mask (guar : bool) (x y : Z) :
  get_piece_mask (mkConfig 8 8 guar) Pc.line4h (x, y)
  = Z.shiftl 15 (y * 8 + x).
Proof. reflexivity. Qed.

Lemma testbit_bar (n i : Z) :
  0 <= n -> 0 <= i ->
  Z.testbit (Z.shiftl 15 n) i = (n <=? i) && (i <? n + 4).
Proof.
  intros Hn Hi. rewrite Z.shiftl_spec by assumption.
  destruct (Z.leb_spec n i) as [Hle|Hgt]; cbn [andb].
  - change 15 with (Z.ones 4). rewrite Z.testbit_ones by lia.
    destruct (Z.leb_spec 0 (i - n)); [|lia]. cbn [andb].
    destruct (Z.ltb_spec (i - n) 4), (Z.ltb_spec i (n + 4)); lia || reflexivity.
  - apply Z.testbit_neg_r. lia.
Qed.

(** On an 8 by 8 board without a full line, with cells 0 to 3 of row [r]
    occupied and a free cell in each of columns 4 to 7 outside that row,
    the bar at column 4 of row [r] completes that row and nothing else. *)
Lemma second_bar_detection (guar : bool) (b r : Z) :
  no_full_line (mkConfig 8 8 guar) b -> 0 <= r < 8 ->
  (forall x, 0 <= x < 4 -> Z.testbit b (r * 8 + x) = true) ->
  is_valid_move (mkConfig 8 8 guar) b Pc.line4h (4, r) = true ->
  (forall c, 4 <= c < 8 ->
     exists y, 0 <= y < 8 /\ y <> r /\ Z.testbit b (y * 8 + c) = false) ->
  detect_lines (mkConfig 8 8 guar)
    (Z.lor b (get_piece_mask (mkConfig 8 8 guar) Pc.line4h (4, r)))
  = (1, row_mask (mkConfig 8 8 guar) r).
Proof.
  intros Hnf Hr Hleft Hv Hcols.
  destruct (full_lines_touch_piece (mkConfig 8 8 guar) b Pc.line4h 4 r Hnf Hv)
    as [Hrows Hcs].
  cbn [name_to_size fst snd] in Hrows, Hcs.
  assert (Hw : 0 <= width (mkConfig 8 8 guar)) by (cbn; lia).
  assert (Hrow : filter
                   (is_full (Z.lor b (get_piece_mask (mkConfig 8 8 guar)
                                        Pc.line4h (4, r))))
                   (row_masks (mkConfig 8 8 guar))
                 = [row_mask (mkConfig 8 8 guar) r]).
  { unfold row_masks. rewrite filter_map_comm.
    rewrite (filter_unique _ (range (height (mkConfig 8 8 guar))) r);
      [reflexivity| | | |].
    - apply sorted_nodup, sorted_range.
    - apply In_range. cbn. lia.
    - rewrite row_full_cells by lia. apply forallb_forall. intros x Hx.
      apply In_range in Hx. cbn [width] in *.
      rewrite Z.lor_spec, line4h_mask.
      destruct (Z.lt_ge_cases x 4) as [Hx4|Hx4].
      + rewrite Hleft by lia. reflexivity.
      + rewrite testbit_bar by lia.
        destruct (Z.leb_spec (r * 8 + 4) (r * 8 + x)); [|lia].
        destruct (Z.ltb_spec (r * 8 + x) (r * 8 + 4 + 4)); [|lia].
        apply orb_true_r.
    - intros y Hy Hfull. apply In_range in Hy.
      specialize (Hrows y Hy Hfull). lia. }
  assert (Hcol : filter
                   (is_full (Z.lor b (get_piece_mask (mkConfig 8 8 guar)
                                        Pc.line4h (4, r))))
                   (col_masks (mkConfig 8 8 guar)) = []).
  { unfold col_masks. rewrite filter_map_comm.
    rewrite filter_none; [reflexivity|].
    intros c Hc. apply In_range in Hc.
    destruct (is_full _ (col_mask (mkConfig 8 8 guar) c)) eqn:Hfull;
      [|reflexivity].
    exfalso. specialize (Hcs c Hc Hfull).
    destruct (Hcols c ltac:(lia)) as (y & Hy & Hyr & Hfree).
    rewrite col_full_cells in Hfull by lia.
    rewrite forallb_forall in Hfull.
    assert (Hin : In y (range (height (mkConfig 8 8 guar))))
      by (apply In_range; cbn; lia).
    specialize (Hfull y Hin). cbn [width] in Hfull.
    rewrite Z.lor_spec, Hfree, line4h_mask in Hfull. cbn [orb] in Hfull.
    rewrite testbit_bar in Hfull by lia.
    apply andb_true_iff in Hfull. rewrite Z.leb_le, Z.ltb_lt in Hfull. lia. }
  rewrite detect_lines_spec. unfold line_masks.
  rewrite filter_app, Hrow, Hcol. cbn. reflexivity.
Qed.

Lemma clear_row_after_bar (guar : bool) (b r : Z) :
  0 <= r < 8 ->
  Z.land (Z.lor b (get_piece_mask (mkConfig 8 8 guar) Pc.line4h (4, r)))
         (Z.lnot (row_mask (mkConfig 8 8 guar) r))
  = Z.land b (Z.lnot (row_mask (mkConfig 8 8 guar) r)).
Proof.
  intros Hr. apply Z.bits_inj'. intros i Hi.
  rewrite !Z.land_spec, Z.lor_spec, Z.lnot_spec by assumption.
  rewrite line4h_mask, testbit_bar by lia.
  rewrite testbit_row_mask by (cbn; lia). cbn [width].
  destruct (Z.leb_spec (r * 8 + 4) i), (Z.ltb_spec i (r * 8 + 4 + 4)),
    (Z.leb_spec (r * 8) i), (Z.ltb_spec i (r * 8 + 8));
    cbn; try lia; try (now rewrite orb_false_r);
    now rewrite !andb_false_r.
Qed.

(** ** Scoring the first clear of a session *)

Lemma score_transition_idle (s : State) (n c : Z) :
  (n >? 0) = false ->
  score_transition s n c
  = Ret (set_not_combo_counter s (not_combo_counter s - 1)).
Proof. intros Hn. unfold score_transition. now rewrite Hn. Qed.

(** Until a line is cleared the score increment is untouched. *)
Lemma before_first_clear (g : Config) (s : State) :
  reachable g s ->
  -1 <= combo s /\ (combo s = -1 -> score_increment s = 0%float).
Proof.
  induction 1 as [bs rnd s0 Hnew|fuel rnd s p pos o s' Hr IH Hm].
  - apply new_session_state in Hnew. destruct Hnew as (_ & _ & _ & ->).
    cbn. split; [lia|reflexivity].
  - destruct IH as [IHc IHi]. pose proof Hm as Hm0. apply make_move_inv in Hm.
    destruct Hm as [(_ & -> & _)|(Hg & Hh & Hv & _)]; [tauto|].
    destruct (make_move_accepted_inv _ _ _ _ _ _ _ _ Hg Hh Hv Hm0)
      as (s2 & Hst & Hs' & _).
    assert (Hc' : combo s' = combo s2) by (rewrite Hs'; reflexivity).
    assert (Hi' : score_increment s' = score_increment s2)
      by (rewrite Hs'; reflexivity).
    rewrite Hc', Hi'.
    pose proof (score_transition_inv _ _ _ _ Hst) as (_ & Hc2 & _).
    unfold placed in Hc2. cbn [combo set_score set_board] in Hc2.
    destruct (_ >? 0) eqn:Hn.
    + rewrite Hc2. split; lia.
    + rewrite (score_transition_idle _ _ _ Hn) in Hst.
      inversion Hst; subst s2. unfold placed. cbn. tauto.
Qed.

Lemma first_clear_transition (s : State) (c : Z) :
  combo s = -1 -> score_increment s = 0%float ->
  score_transition s 1 c
  = Ret (mkState (Z.land (board s) (Z.lnot c)) (score s + 34) 0 3
           BASE_SCORE_ACCELERATION BASE_SCORE_ACCELERATION (game_over s)
           (current_pieces s)).
Proof.
  destruct s as [b sc cb ncc inc acc go hand]. simpl_state.
  intros -> ->. unfold score_transition. cbn [Z.gtb Z.compare]. cbv zeta.
  simpl_state.
  cbn [Z.leb Z.add Z.compare Pos.add Pos.compare Pos.compare_cont Pos.succ].
  unfold accelerate. simpl_state. cbn [Z.add Z.opp Z.pos_sub]. simpl_state.
  replace (int_of_float _) with (@Ret Z 34) by (vm_compute; reflexivity).
  cbn [bind]. simpl_state.
  replace (0 + BASE_SCORE_ACCELERATION)%float with BASE_SCORE_ACCELERATION
    by (vm_compute; reflexivity).
  reflexivity.
Qed.

(** ** The first bar of a fresh session *)

Lemma piece_fits_beside_bar (guar : bool) (r : Z) (q : Piece) :
  0 <= r < 8 ->
  exists pos,
    is_valid_move (mkConfig 8 8 guar) (Z.shiftl 15 (8 * r)) q pos = true.
Proof.
  intros Hr.
  destruct (row_index_cases r Hr) as [Hv|[Hv|[Hv|[Hv|[Hv|[Hv|[Hv|Hv]]]]]]];
    subst r; destruct q;
    first [ exists (4, 0); vm_compute; reflexivity
          | exists (0, 1); vm_compute; reflexivity
          | exists (0, 0); vm_compute; reflexivity ].
Qed.

Lemma first_bar (fuel : nat) (rnd : Random) (guar : bool) (r : Z) (s : State) :
  0 <= r < 8 -> board s = 0 -> game_over s = false ->
  In Pc.line4h (current_pieces s) ->
  remove_first Pc.line4h (current_pieces s) <> [] ->
  make_move fuel rnd (mkConfig 8 8 guar) s Pc.line4h (0, r)
  = Ret (Success (Z.shiftl 15 (8 * r)) (Some (score s + 4)) 0 false,
         mkState (Z.shiftl 15 (8 * r)) (score s + 4) (combo s)
           (not_combo_counter s - 1) (score_increment s)
           (score_incremental_acceleration s) false
           (remove_first Pc.line4h (current_pieces s))).
Proof.
  intros Hr Hb Hg Hh Hh2.
  assert (Hv : is_valid_move (mkConfig 8 8 guar) (board s) Pc.line4h (0, r)
               = true).
  { rewrite Hb.
    destruct (row_index_cases r Hr) as [Hv|[Hv|[Hv|[Hv|[Hv|[Hv|[Hv|Hv]]]]]]];
      subst r; reflexivity. }
  rewrite (make_move_accepted _ _ _ _ _ _ Hg Hh Hv). unfold placed. cbv zeta.
  destruct s as [b sc cb ncc inc acc go hand]. simpl_state. subst b go.
  assert (Hd : detect_lines (mkConfig 8 8 guar)
                 (Z.lor 0 (get_piece_mask (mkConfig 8 8 guar) Pc.line4h (0, r)))
               = (0, 0)
               /\ Z.lor 0 (get_piece_mask (mkConfig 8 8 guar) Pc.line4h (0, r))
                  = Z.shiftl 15 (8 * r)).
  { destruct (row_index_cases r Hr)
      as [Hv'|[Hv'|[Hv'|[Hv'|[Hv'|[Hv'|[Hv'|Hv']]]]]]];
      subst r; split; vm_compute; reflexivity. }
  destruct Hd as (Hd & Hm). rewrite Hd, Hm. cbn [fst snd].
  unfold score_transition. cbn [Z.gtb Z.compare bind]. simpl_state.
  destruct (remove_first Pc.line4h hand) as [|q qs] eqn:Hrem;
    [contradiction|].
  cbn [bind].
  destruct (piece_fits_beside_bar guar r q Hr) as [pos Hpos].
  rewrite not_stuck with (p := q) (pos := pos);
    [reflexivity|now left|exact Hpos].
Qed.

(** ** The claim *)

(** C4, as amended. On the 8 by 8 board a row is eight cells wide, so two
    bars of four fill it, not four. In a session fresh from the
    constructor that holds a bar of four, the bar placed at column 0 of a
    row clears nothing and scores its 4 cells; the hand, three distinct
    names, holds no second bar. In any state of a session in which no
    line has been cleared yet (combo -1) and that holds a bar, when
    cells 0 to 3 of row [r] are occupied and each of columns 4 to 7 has
    a free cell outside that row, the bar placed at column 4 of row [r]
    fills the row exactly: the move clears exactly 1 line, empties the
    row, takes combo from -1 to 0 and adds [int(34.2 * 1.0)], that is 34,
    on top of the 4 cells of the bar. A bar that starts beyond column 4,
    as a third and a fourth bar end to end would at columns 8 and 12, is
    not a valid move on any board and is refused with the session
    unchanged. *)
Theorem two_bars_clear_one_row (guar : bool) :
  (forall rnd0 s0 fuel rnd r,
      BlockBlast (8, 8) guar rnd0 = Ret (mkConfig 8 8 guar, s0) ->
      In Pc.line4h (current_pieces s0) -> 0 <= r < 8 ->
      make_move fuel rnd (mkConfig 8 8 guar) s0 Pc.line4h (0, r)
      = Ret (Success (Z.shiftl 15 (8 * r)) (Some 4) 0 false,
             mkState (Z.shiftl 15 (8 * r)) 4 (-1) 2 0%float 0%float false
               (remove_first Pc.line4h (current_pieces s0)))
      /\ ~ In Pc.line4h (remove_first Pc.line4h (current_pieces s0)))
  /\ (forall s fuel rnd r,
        reachable (mkConfig 8 8 guar) s -> (3 <= fuel)%nat -> 0 <= r < 8 ->
        game_over s = false -> combo s = -1 ->
        In Pc.line4h (current_pieces s) ->
        (forall x, 0 <= x < 4 -> Z.testbit (board s) (r * 8 + x) = true) ->
        is_valid_move (mkConfig 8 8 guar) (board s) Pc.line4h (4, r) = true ->
        (forall c, 4 <= c < 8 ->
           exists y, 0 <= y < 8 /\ y <> r
                     /\ Z.testbit (board s) (y * 8 + c) = false) ->
        exists s',
          make_move fuel rnd (mkConfig 8 8 guar) s Pc.line4h (4, r)
          = Ret (Success
                   (Z.land (board s)
                           (Z.lnot (row_mask (mkConfig 8 8 guar) r)))
                   (Some (score s + 4 + 34)) 1 (game_over s'), s')
          /\ combo s' = 0 /\ score s' = score s + 4 + 34
          /\ board s'
             = Z.land (board s) (Z.lnot (row_mask (mkConfig 8 8 guar) r))
          /\ score_increment s' = BASE_SCORE_ACCELERATION)
  /\ (forall s fuel rnd x r,
        4 < x ->
        is_valid_move (mkConfig 8 8 guar) (board s) Pc.line4h (x, r) = false
        /\ exists msg,
             make_move fuel rnd (mkConfig 8 8 guar) s Pc.line4h (x, r)
             = Ret (Error msg, s)).
Proof.
  split; [|split].
  - intros rnd0 s0 fuel rnd r Hnew Hin Hr.
    apply new_session_state in Hnew. destruct Hnew as (_ & _ & _ & Hs0).
    pose proof (sample_three (sample_order rnd0)) as (Hlen & Hnd & _).
    assert (Hhand : current_pieces s0
                    = firstn 3 (shuffled (sample_order rnd0) all_piece_names))
      by (rewrite Hs0; reflexivity).
    rewrite <- Hhand in Hlen, Hnd.
    split; [|now apply remove_first_nodup].
    assert (Hne : remove_first Pc.line4h (current_pieces s0) <> []).
    { pose proof (remove_first_length Pc.line4h _ Hin) as Hl.
      intros He. rewrite He in Hl. cbn in Hl. lia. }
    rewrite (first_bar fuel rnd guar r s0 Hr); try assumption;
      rewrite Hs0; reflexivity.
  - intros s fuel rnd r Hreach Hf Hr Hg Hc Hin Hleft Hv Hcols.
    pose proof (reachable_no_full_line _ s Hreach) as Hnf.
    cbn [width height] in Hnf. specialize (Hnf ltac:(lia) ltac:(lia)).
    pose proof (second_bar_detection guar (board s) r Hnf Hr Hleft Hv Hcols)
      as Hdet.
    destruct (before_first_clear _ s Hreach) as [_ Hinc].
    specialize (Hinc Hc).
    assert (Hst : score_transition
                    (placed (mkConfig 8 8 guar) s Pc.line4h (4, r))
                    (fst (detect_lines (mkConfig 8 8 guar)
                            (board (placed (mkConfig 8 8 guar) s Pc.line4h
                                      (4, r)))))
                    (snd (detect_lines (mkConfig 8 8 guar)
                            (board (placed (mkConfig 8 8 guar) s Pc.line4h
                                      (4, r)))))
                  = Ret (mkState
                           (Z.land (board s)
                              (Z.lnot (row_mask (mkConfig 8 8 guar) r)))
                           (score s + 4 + 34) 0 3 BASE_SCORE_ACCELERATION
                           BASE_SCORE_ACCELERATION (game_over s)
                           (current_pieces s))).
    { unfold placed. cbn [board set_board set_score]. rewrite Hdet.
      cbn [fst snd]. rewrite first_clear_transition by assumption.
      cbn [board score game_over current_pieces set_board set_score].
      rewrite clear_row_after_bar by assumption. reflexivity. }
    destruct (make_move_accepted_returns fuel rnd _ s Pc.line4h (4, r) _
                Hf Hg Hin Hv Hst) as (o & s' & Hm).
    destruct (make_move_accepted_inv fuel rnd _ s Pc.line4h (4, r) o s'
                Hg Hin Hv Hm) as (t & Ht & Hs' & Ho & _).
    rewrite Hst in Ht. inversion Ht; subst t; clear Ht.
    unfold placed in Ho. cbn [board set_board set_score] in Ho.
    rewrite Hdet in Ho. cbn [fst board score] in Ho.
    exists s'. split; [rewrite Hm, Ho; reflexivity|].
    rewrite Hs'. cbn. repeat split; reflexivity.
  - intros s fuel rnd x r Hx.
    assert (Hv : is_valid_move (mkConfig 8 8 guar) (board s) Pc.line4h (x, r)
                 = false).
    { unfold is_valid_move. cbn [name_to_size width height].
      destruct (x <? 0); [reflexivity|]. destruct (r <? 0); [reflexivity|].
      destruct (Z.gtb_spec (x + 4) 8); [reflexivity|lia]. }
    split; [exact Hv|].
    apply make_move_rejected. right. right. exact Hv.
Qed.

(** A fresh session that holds a bar, and the session of
    [two_bar_state], in which the second bar clears row 0. *)
Lemma two_bars_clear_one_row_witness :
  (make_move 3 two_bar_random g8
     (mkState 0 0 (-1) 3 0%float 0%float false [Pc.line4h; Pc.sq1; Pc.sq2])
     Pc.line4h (0, 0)
   = Ret (Success (Z.shiftl 15 (8 * 0)) (Some 4) 0 false,
          mkState (Z.shiftl 15 (8 * 0)) 4 (-1) 2 0%float 0%float false
            (remove_first Pc.line4h
               (current_pieces
                  (mkState 0 0 (-1) 3 0%float 0%float false
                     [Pc.line4h; Pc.sq1; Pc.sq2]))))
   /\ ~ In Pc.line4h
          (remove_first Pc.line4h
             (current_pieces
                (mkState 0 0 (-1) 3 0%float 0%float false
                   [Pc.line4h; Pc.sq1; Pc.sq2]))))
  /\ exists s',
       make_move 3 two_bar_random g8 two_bar_state Pc.line4h (4, 0)
       = Ret (Success
                (Z.land (board two_bar_state) (Z.lnot (row_mask g8 0)))
                (Some (score two_bar_state + 4 + 34)) 1 (game_over s'), s')
       /\ combo s' = 0 /\ score s' = score two_bar_state + 4 + 34
       /\ board s'
          = Z.land (board two_bar_state) (Z.lnot (row_mask g8 0))
       /\ score_increment s' = BASE_SCORE_ACCELERATION.
Proof.
  split.
  - apply (proj1 (two_bars_clear_one_row true) two_bar_random
             (mkState 0 0 (-1) 3 0%float 0%float false
                [Pc.line4h; Pc.sq1; Pc.sq2])
             3%nat two_bar_random 0).
    + vm_compute. reflexivity.
    + cbn. tauto.
    + lia.
  - apply (proj1 (proj2 (two_bars_clear_one_row true))
             two_bar_state 3%nat two_bar_random 0).
    + exact two_bar_state_reachable.
    + lia.
    + lia.
    + reflexivity.
    + reflexivity.
    + cbn. tauto.
    + intros x Hx.
      assert (Hcase : x = 0 \/ x = 1 \/ x = 2 \/ x = 3) by lia.
      destruct Hcase as [Hv|[Hv|[Hv|Hv]]]; subst x; reflexivity.
    + vm_compute. reflexivity.
    + intros c Hc. exists 1.
      assert (Hcase : c = 4 \/ c = 5 \/ c = 6 \/ c = 7) by lia.
      destruct Hcase as [Hv|[Hv|[Hv|Hv]]]; subst c;
        (split; [lia|split; [lia|reflexivity]]).
Defined.

(** C4, as stated, fails. A session built by the constructor is dealt a
    bar of four, a single cell and a square of two, and after they are
    placed the same three again. The bar at column 0 of row 0 scores 4
    and clears nothing; the next bar, at column 4, already fills the row:
    the line is cleared by the second bar of the row, not by a fourth,
    for a score of 47 where the flat score stands at 13. With a bar in
    hand again, the third and the fourth bar end to end, at columns 8 and
    12, are refused as invalid moves, as they are on every board. *)
Lemma four_bars_counterexample :
  ('(g, s0) <- BlockBlast (8, 8) true two_bar_random ;;
   play 3 two_bar_random g s0
     [(Pc.line4h, (0, 0)); (Pc.sq1, (0, 7)); (Pc.sq2, (0, 5));
      (Pc.line4h, (4, 0)); (Pc.sq1, (7, 7)); (Pc.sq2, (6, 1));
      (Pc.line4h, (8, 0)); (Pc.line4h, (12, 0))])
  = Ret ([Success 15 (Some 4) 0 false;
          Success 72057594037927951 (Some 5) 0 false;
          Success 72905317502943247 (Some 9) 0 false;
          Success 72905317502943232 (Some 47) 1 false;
          Success 9296277354357719040 (Some 48) 0 false;
          Success 9296277354370351104 (Some 52) 0 false;
          Error "Invalid move."; Error "Invalid move."],
         mkState 9296277354370351104 52 0 1 BASE_SCORE_ACCELERATION
           BASE_SCORE_ACCELERATION false [Pc.line4h; Pc.sq1; Pc.sq2])
  /\ (forall b r,
        is_valid_move g8 b Pc.line4h (8, r) = false
        /\ is_valid_move g8 b Pc.line4h (12, r) = false)
  /\ 47 <> 16 + 34.
Proof.
  split; [vm_compute; reflexivity|]. split; [|lia].
  intros b r. unfold is_valid_move. cbn [name_to_size g8 width height].
  destruct (r <? 0); split; reflexivity.
Qed.
